(** * gta_sa_parser: the schema-driven binary codec, embedded and verified

    The development follows [gta_sa_parser/parsers/schema_parser.py] and
    [gta_sa_parser/parsers/__init__.py].  Python objects are an inductive
    type [pyvalue]; exceptions are the [Raise] branch of [result]; the codecs
    that [build_struct_from_schema] assembles from the [construct] package
    (versions 2.10.x, the range [setup.py] asks for) are a tree [Construct]
    with a [parse] and a [build] function that thread the package's context. *)

From Stdlib Require Import ZArith List String Ascii Bool Lia Floats.
From Stdlib Require Import Strings.Byte.
From Stdlib Require Import Sorting.Sorted.
From Stdlib Require Import Sorting.Permutation.
Import ListNotations.

Set Warnings "-register-all,-inexact-float".

Open Scope string_scope.
Open Scope Z_scope.

(** ** Python objects and exceptions *)

Inductive pyvalue : Type :=
| VNone
| VBool (b : bool)
| VInt (z : Z)
| VFloat (f : float)
| VStr (s : string)
| VBytes (bs : list byte)
| VList (items : list pyvalue)
| VDict (kv : list (string * pyvalue))
| VContainer (kv : list (string * pyvalue))
| VOther (repr : string).

Inductive exn : Type :=
| ValueError (msg : string)
| KeyError (key : string)
| KeyErrorNone
| TypeError
| AttributeError
| ZeroDivisionError
| OverflowError
| StreamError
| RangeError
| IntegerError
| FormatFieldError
| StringError
| PaddingError
| RecursionError.

Inductive result (A : Type) : Type :=
| Ok (a : A)
| Raise (e : exn).

Arguments Ok {A} a.
Arguments Raise {A} e.

Definition bind {A B : Type} (r : result A) (k : A -> result B) : result B :=
  match r with
  | Ok a => k a
  | Raise e => Raise e
  end.

Notation "x <- r ;; k" := (bind r (fun x => k))
  (at level 61, r at next level, right associativity).
Notation "' p <- r ;; k" := (bind r (fun x => let p := x in k))
  (at level 61, p pattern, r at next level, right associativity).

Definition is_ok {A : Type} (r : result A) : bool :=
  match r with Ok _ => true | Raise _ => false end.

(** ** Ordered dictionaries

    A Python [dict] (and construct's [Container], a subclass of it) keeps
    its keys in insertion order; assigning to a key that is present keeps
    the key's position. *)

Section Dict.
Context {V : Type}.

Fixpoint dict_get (k : string) (d : list (string * V)) : option V :=
  match d with
  | [] => None
  | (k', v) :: d' => if String.eqb k k' then Some v else dict_get k d'
  end.

Fixpoint dict_set (k : string) (v : V) (d : list (string * V))
  : list (string * V) :=
  match d with
  | [] => [(k, v)]
  | (k', v') :: d' =>
      if String.eqb k k' then (k, v) :: d' else (k', v') :: dict_set k v d'
  end.

Definition dict_mem (k : string) (d : list (string * V)) : bool :=
  match dict_get k d with Some _ => true | None => false end.

(** [d.update(e)] *)
Definition dict_update (d e : list (string * V)) : list (string * V) :=
  fold_left (fun acc kv => dict_set (fst kv) (snd kv) acc) e d.
End Dict.

(** ** Python arithmetic on the objects above *)

Definition truthy (v : pyvalue) : bool :=
  match v with
  | VNone => false
  | VBool b => b
  | VInt z => negb (z =? 0)
  | VFloat f => negb (PrimFloat.eqb f 0%float)
  | VStr s => negb (String.eqb s "")
  | VBytes bs => match bs with [] => false | _ => true end
  | VList l => match l with [] => false | _ => true end
  | VDict kv => match kv with [] => false | _ => true end
  | VContainer kv => match kv with [] => false | _ => true end
  | VOther _ => true
  end.

(** [int.from_bytes(bs, "little")] and [int.from_bytes(bs, "big")] *)
Fixpoint int_from_bytes_little (bs : list byte) : Z :=
  match bs with
  | [] => 0
  | b :: bs' => Z.of_N (Byte.to_N b) + 256 * int_from_bytes_little bs'
  end.

Definition int_from_bytes_big (bs : list byte) : Z :=
  int_from_bytes_little (rev bs).

(** [n.to_bytes(len, "little")] for [0 <= n]; the caller checks the range *)
Definition byte_of_Z (z : Z) : byte :=
  match Byte.of_N (Z.to_N (z mod 256)) with
  | Some b => b
  | None => x00
  end.

Fixpoint int_to_bytes_little (len : nat) (z : Z) : list byte :=
  match len with
  | O => []
  | S len' => byte_of_Z z :: int_to_bytes_little len' (z / 256)
  end.

Definition int_to_bytes_big (len : nat) (z : Z) : list byte :=
  rev (int_to_bytes_little len z).

(** [x >> n] and [x << n]: a negative count is a [ValueError] *)
Definition py_rshift (x n : Z) : result Z :=
  if n <? 0 then Raise (ValueError "negative shift count")
  else Ok (Z.shiftr x n).

Definition py_lshift (x n : Z) : result Z :=
  if n <? 0 then Raise (ValueError "negative shift count")
  else Ok (Z.shiftl x n).

(** Floats are IEEE binary64, as in CPython; an [int] converts to the
    nearest float (ties to even) or overflows. *)
Definition float_of_Z (z : Z) : result float :=
  match binary_normalize prec emax z 0 false with
  | S754_infinity _ => Raise OverflowError
  | sf => Ok (SF2Prim sf)
  end.

(** [int(f)]: the integer part, rounding toward zero *)
Definition trunc_float (f : float) : result Z :=
  match Prim2SF f with
  | S754_nan => Raise (ValueError "cannot convert float NaN to integer")
  | S754_infinity _ => Raise OverflowError
  | S754_zero _ => Ok 0
  | S754_finite s m e =>
      let a := if 0 <=? e then Z.pos m * 2 ^ e else Z.pos m / 2 ^ (- e) in
      Ok (if s then - a else a)
  end.

Definition sf_of_Z (z : Z) : spec_float :=
  match z with
  | Z0 => S754_zero false
  | Zpos p => S754_finite false p 0
  | Zneg p => S754_finite true p 0
  end.

(** [a / b] on two [int]s: the correctly rounded quotient *)
Definition int_truediv (a b : Z) : result float :=
  if b =? 0 then Raise ZeroDivisionError
  else match SFdiv prec emax (sf_of_Z a) (sf_of_Z b) with
       | S754_infinity _ => Raise OverflowError
       | sf => Ok (SF2Prim sf)
       end.

Inductive number : Type :=
| NInt (z : Z)
| NFloat (f : float).

(** [bool] is a subclass of [int] *)
Definition as_number (v : pyvalue) : option number :=
  match v with
  | VBool b => Some (NInt (Z.b2z b))
  | VInt z => Some (NInt z)
  | VFloat f => Some (NFloat f)
  | _ => None
  end.

Definition value_of_number (n : number) : pyvalue :=
  match n with
  | NInt z => VInt z
  | NFloat f => VFloat f
  end.

Definition to_float (n : number) : result float :=
  match n with
  | NInt z => float_of_Z z
  | NFloat f => Ok f
  end.

(** [x / y].  Operands that are not numbers raise [TypeError]. *)
Definition py_truediv (x y : pyvalue) : result pyvalue :=
  match as_number x, as_number y with
  | Some (NInt a), Some (NInt b) =>
      f <- int_truediv a b ;; Ok (VFloat f)
  | Some a, Some b =>
      fa <- to_float a ;;
      fb <- to_float b ;;
      if PrimFloat.eqb fb 0%float then Raise ZeroDivisionError
      else Ok (VFloat (fa / fb)%float)
  | _, _ => Raise TypeError
  end.

(** [x * y] on numbers.  Python also repeats a sequence ([str * int]);
    the codecs below multiply numbers only, and the repetition case is
    rendered as [TypeError]. *)
Definition py_mul (x y : pyvalue) : result pyvalue :=
  match as_number x, as_number y with
  | Some (NInt a), Some (NInt b) => Ok (VInt (a * b))
  | Some a, Some b =>
      fa <- to_float a ;;
      fb <- to_float b ;;
      Ok (VFloat (fa * fb)%float)
  | _, _ => Raise TypeError
  end.

(** [int(x)] on numbers; the parsing of numeric text is not needed by the
    codecs and is rendered as [ValueError]. *)
Definition py_int (x : pyvalue) : result Z :=
  match x with
  | VBool b => Ok (Z.b2z b)
  | VInt z => Ok z
  | VFloat f => trunc_float f
  | VStr _ => Raise (ValueError "invalid literal for int()")
  | _ => Raise TypeError
  end.

(** ** [BoolBitAdapter] *)

Definition BoolBitAdapter_decode (bit_position : Z) (obj : pyvalue)
  : result pyvalue :=
  value <- match obj with
           | VInt z => Ok z
           | VBool b => Ok (Z.b2z b)
           | VBytes bs => Ok (int_from_bytes_little bs)
           | _ => Raise TypeError
           end ;;
  shifted <- py_rshift value bit_position ;;
  Ok (VBool (negb (Z.land shifted 1 =? 0))).

Definition BoolBitAdapter_encode (bit_position : Z) (obj : pyvalue)
  : result pyvalue :=
  let value := if truthy obj then 1 else 0 in
  shifted <- py_lshift value bit_position ;;
  Ok (VInt shifted).

(** ** [ScaleAdapter] *)

Definition ScaleAdapter_decode (scale : number) (obj : pyvalue) : result pyvalue :=
  py_truediv obj (value_of_number scale).

Definition ScaleAdapter_encode (scale : number) (obj : pyvalue) : result pyvalue :=
  p <- py_mul obj (value_of_number scale) ;;
  z <- py_int p ;;
  Ok (VInt z).

(** ** Schema descriptions

    A schema node is the attribute bag that [json.load] returns, read at
    the types the schema format gives its attributes; [None] is an absent
    key.  [count] may be an integer or a dotted path; any other JSON value
    there is [CountOther] with its printed form. *)

Record flag : Type := Flag {
  flag_name : option string;
  flag_bit : option Z
}.

Inductive count_attr : Type :=
| CountInt (n : Z)
| CountStr (path : string)
| CountOther (repr : string).

Inductive schema : Type :=
| Schema (s_type : option string)
         (s_name : option string)
         (s_fields : option (list schema))
         (s_elements : option schema)
         (s_count : option count_attr)
         (s_until_eof : option bool)
         (s_size : option Z)
         (s_length : option Z)
         (s_encoding : option string)
         (s_scale : option number)
         (s_flags : option (list flag)).

Definition s_name_of (s : schema) : option string :=
  match s with Schema _ name _ _ _ _ _ _ _ _ _ => name end.

(** Builders for schema literals: a bare node of a given type, and the
    attributes set one at a time. *)
Definition schema_node (ty : option string) : schema :=
  Schema ty None None None None None None None None None None.

Definition with_name (n : string) (s : schema) : schema :=
  match s with
  | Schema ty _ fs el c u sz len enc sc fl =>
      Schema ty (Some n) fs el c u sz len enc sc fl
  end.

Definition with_fields (fs : list schema) (s : schema) : schema :=
  match s with
  | Schema ty n _ el c u sz len enc sc fl =>
      Schema ty n (Some fs) el c u sz len enc sc fl
  end.

Definition with_elements (el : schema) (s : schema) : schema :=
  match s with
  | Schema ty n fs _ c u sz len enc sc fl =>
      Schema ty n fs (Some el) c u sz len enc sc fl
  end.

Definition with_count (c : count_attr) (s : schema) : schema :=
  match s with
  | Schema ty n fs el _ u sz len enc sc fl =>
      Schema ty n fs el (Some c) u sz len enc sc fl
  end.

Definition with_until_eof (u : bool) (s : schema) : schema :=
  match s with
  | Schema ty n fs el c _ sz len enc sc fl =>
      Schema ty n fs el c (Some u) sz len enc sc fl
  end.

Definition with_size (sz : Z) (s : schema) : schema :=
  match s with
  | Schema ty n fs el c u _ len enc sc fl =>
      Schema ty n fs el c u (Some sz) len enc sc fl
  end.

Definition with_length (len : Z) (s : schema) : schema :=
  match s with
  | Schema ty n fs el c u sz _ enc sc fl =>
      Schema ty n fs el c u sz (Some len) enc sc fl
  end.

Definition with_encoding (enc : string) (s : schema) : schema :=
  match s with
  | Schema ty n fs el c u sz len _ sc fl =>
      Schema ty n fs el c u sz len (Some enc) sc fl
  end.

Definition with_scale (sc : number) (s : schema) : schema :=
  match s with
  | Schema ty n fs el c u sz len enc _ fl =>
      Schema ty n fs el c u sz len enc (Some sc) fl
  end.

Definition with_flags (fl : list flag) (s : schema) : schema :=
  match s with
  | Schema ty n fs el c u sz len enc sc _ =>
      Schema ty n fs el c u sz len enc sc (Some fl)
  end.

(** ** The codec tree

    One constructor per [construct] class that the compiler instantiates.
    A [FormatField] is an endianness and a [struct] format character. *)

Inductive endianness : Type := LittleEndian | BigEndian.

Inductive format_char : Type :=
| Fmt_B | Fmt_H | Fmt_L | Fmt_Q
| Fmt_b | Fmt_h | Fmt_l | Fmt_q
| Fmt_f | Fmt_d.

(** A flag that passed the ["bit" in f] filter *)
Record bit_flag : Type := BitFlag {
  bf_name : option string;
  bf_bit : Z
}.

Inductive count_expr : Type :=
| CountLit (n : Z)
| CountPath (parts : list string).

Inductive Construct : Type :=
| Struct (subcons : list (string * Construct))
| Array (count : count_expr) (subcon : Construct)
| GreedyRange (subcon : Construct)
| FormatField (e : endianness) (c : format_char)
| Bytes (length : Z)
| PaddedString (length : Z) (encoding : string)
| BytesInteger (length : Z) (signed swapped : bool)
| BitFieldAdapter (size_bits : Z) (bit_flags : list bit_flag) (subcon : Construct)
| ScaleAdapter (subcon : Construct) (scale : number)
| BoolBitAdapter (subcon : Construct) (bit_position : Z).

Definition Byte : Construct := FormatField BigEndian Fmt_B.

Definition TYPE_MAPPING : list (string * Construct) :=
  [ ("char", Byte);
    ("Int8ul", FormatField LittleEndian Fmt_B);
    ("Int16ul", FormatField LittleEndian Fmt_H);
    ("Int32ul", FormatField LittleEndian Fmt_L);
    ("Int64ul", FormatField LittleEndian Fmt_Q);
    ("Int8sl", FormatField LittleEndian Fmt_b);
    ("Int16sl", FormatField LittleEndian Fmt_h);
    ("Int32sl", FormatField LittleEndian Fmt_l);
    ("Int64sl", FormatField LittleEndian Fmt_q);
    ("Float32l", FormatField LittleEndian Fmt_f);
    ("Float64l", FormatField LittleEndian Fmt_d);
    ("int8", FormatField LittleEndian Fmt_b);
    ("uint8", FormatField LittleEndian Fmt_B);
    ("int16", FormatField LittleEndian Fmt_h);
    ("uint16", FormatField LittleEndian Fmt_H);
    ("int32", FormatField LittleEndian Fmt_l);
    ("uint32", FormatField LittleEndian Fmt_L) ].

(** ** [BitFieldAdapter] *)

(** [sorted(l, key=lambda f: f["bit"])]: a stable sort *)
Fixpoint insert_by_bit (f : bit_flag) (l : list bit_flag) : list bit_flag :=
  match l with
  | [] => [f]
  | g :: l' =>
      if bf_bit f <=? bf_bit g then f :: g :: l'
      else g :: insert_by_bit f l'
  end.

Fixpoint sorted_by_bit (l : list bit_flag) : list bit_flag :=
  match l with
  | [] => []
  | f :: l' => insert_by_bit f (sorted_by_bit l')
  end.

(** [[f for f in flags if "bit" in f]] *)
Fixpoint flags_with_bit (flags : list flag) : list bit_flag :=
  match flags with
  | [] => []
  | f :: flags' =>
      match flag_bit f with
      | Some b => BitFlag (flag_name f) b :: flags_with_bit flags'
      | None => flags_with_bit flags'
      end
  end.

(** [self.bit_flags[i + 1]["bit"] if i + 1 < len(self.bit_flags) else size_bits],
    with [rest] the flags after position [i] *)
Definition flag_end (size_bits : Z) (rest : list bit_flag) : Z :=
  match rest with
  | g :: _ => bf_bit g
  | [] => size_bits
  end.

Definition flag_name_of (f : bit_flag) : result string :=
  match bf_name f with
  | Some n => Ok n
  | None => Raise (KeyError "name")
  end.

Fixpoint decode_flags (size_bits value : Z) (flags : list bit_flag)
  (res : list (string * pyvalue)) : result (list (string * pyvalue)) :=
  match flags with
  | [] => Ok res
  | f :: rest =>
      name <- flag_name_of f ;;
      let start := bf_bit f in
      let width := flag_end size_bits rest - start in
      if width =? 1 then
        shifted <- py_rshift value start ;;
        decode_flags size_bits value rest
          (dict_set name (VBool (negb (Z.land shifted 1 =? 0))) res)
      else
        one <- py_lshift 1 width ;;
        let mask := one - 1 in
        shifted <- py_rshift value start ;;
        decode_flags size_bits value rest
          (dict_set name (VInt (Z.land shifted mask)) res)
  end.

Definition BitFieldAdapter_decode (size_bits : Z) (bit_flags : list bit_flag)
  (obj : pyvalue) : result pyvalue :=
  value <- match obj with
           | VBytes bs => Ok (int_from_bytes_little bs)
           | _ => py_int obj
           end ;;
  res <- decode_flags size_bits value bit_flags [] ;;
  Ok (VDict res).

(** [name in obj] and [obj[name]] for a text key *)
Definition py_contains (obj : pyvalue) (name : string) : result bool :=
  match obj with
  | VDict kv | VContainer kv => Ok (dict_mem name kv)
  | VList l =>
      Ok (existsb (fun v => match v with
                            | VStr s => String.eqb s name
                            | _ => false
                            end) l)
  | VStr s => Ok (match index 0 name s with Some _ => true | None => false end)
  | _ => Raise TypeError
  end.

Definition py_getitem (obj : pyvalue) (key : string) : result pyvalue :=
  match obj with
  | VDict kv | VContainer kv =>
      match dict_get key kv with
      | Some v => Ok v
      | None => Raise (KeyError key)
      end
  | _ => Raise TypeError
  end.

Definition as_int (v : pyvalue) : result Z :=
  match v with
  | VInt z => Ok z
  | VBool b => Ok (Z.b2z b)
  | _ => Raise TypeError
  end.

Fixpoint encode_flags (size_bits : Z) (obj : pyvalue)
  (flags : list bit_flag) (value : Z) : result Z :=
  match flags with
  | [] => Ok value
  | f :: rest =>
      name <- flag_name_of f ;;
      present <- py_contains obj name ;;
      if negb present then encode_flags size_bits obj rest value
      else
        let start := bf_bit f in
        let width := flag_end size_bits rest - start in
        if width =? 1 then
          v <- py_getitem obj name ;;
          if truthy v then
            bit <- py_lshift 1 start ;;
            encode_flags size_bits obj rest (Z.lor value bit)
          else encode_flags size_bits obj rest value
        else
          one <- py_lshift 1 width ;;
          let mask := one - 1 in
          v <- py_getitem obj name ;;
          iv <- as_int v ;;
          field <- py_lshift (Z.land iv mask) start ;;
          encode_flags size_bits obj rest (Z.lor value field)
  end.

Definition BitFieldAdapter_encode (size_bits : Z) (bit_flags : list bit_flag)
  (obj : pyvalue) : result pyvalue :=
  value <- encode_flags size_bits obj bit_flags 0 ;;
  Ok (VInt value).

(** [build_bitfield_struct]: the byte count rounds the bit width up, and
    the base integer is read with [swapped=False], which in construct is
    the big-endian byte order. *)
Definition build_bitfield_struct (size : option Z) (flags : option (list flag))
  : Construct :=
  let size_bits := match size with Some n => n | None => 16 end in
  let size_bytes := (size_bits + 7) / 8 in
  let base_type := BytesInteger size_bytes false false in
  let flags := match flags with Some l => l | None => [] end in
  let bit_flags := sorted_by_bit (flags_with_bit flags) in
  BitFieldAdapter size_bits bit_flags base_type.

(** ** The schema compiler *)

(** [path.split(".")] *)
Fixpoint split_dot (s : string) : list string :=
  match s with
  | EmptyString => [""]
  | String c s' =>
      if Ascii.eqb c "." then "" :: split_dot s'
      else match split_dot s' with
           | [] => [String c ""]
           | h :: t => String c h :: t
           end
  end.

(** [_resolve_this_path]: the resolver is the list of path segments; it is
    run against a context by [resolver] further down. *)
Definition _resolve_this_path (path : string) : count_expr :=
  CountPath (split_dot path).

(** construct's [encodingunit]: the encoding name, with ["-"] replaced by
    ["_"] and lowered, has to be in the package's table. *)
Definition lower_ascii (c : ascii) : ascii :=
  let n := nat_of_ascii c in
  if (Nat.leb 65 n && Nat.leb n 90)%bool then ascii_of_nat (n + 32) else c.

Fixpoint normalize_encoding (s : string) : string :=
  match s with
  | EmptyString => EmptyString
  | String c s' =>
      String (if Ascii.eqb c "-" then "_"%char else lower_ascii c)
             (normalize_encoding s')
  end.

Definition possiblestringencodings : list (string * Z) :=
  [ ("ascii", 1);
    ("utf8", 1); ("utf_8", 1); ("u8", 1);
    ("utf16", 2); ("utf_16", 2); ("u16", 2);
    ("utf32", 4); ("utf_32", 4); ("u32", 4) ].

Definition encodingunit (encoding : string) : result Z :=
  match dict_get (normalize_encoding encoding) possiblestringencodings with
  | Some u => Ok u
  | None => Raise StringError
  end.

(** [construct.Struct] called with the fields as keyword arguments: the
    keyword [self] collides with the first parameter of the constructor. *)
Definition make_Struct (fields : list (string * Construct)) : result Construct :=
  if dict_mem "self" fields then Raise TypeError else Ok (Struct fields).

Section StructFields.
(** The loop over [schema.get("fields", [])] in the struct branch:
    [fields[name] = self.build_struct_from_schema(field)] *)
Variable build_field : schema -> result Construct.

Fixpoint build_fields_from_schema (fs : list schema)
  (fields : list (string * Construct)) : result (list (string * Construct)) :=
  match fs with
  | [] => Ok fields
  | field :: fs' =>
      match s_name_of field with
      | None => Raise (KeyError "name")
      | Some name =>
          c <- build_field field ;;
          build_fields_from_schema fs' (dict_set name c fields)
      end
  end.
End StructFields.

Fixpoint build_struct_from_schema (s : schema) : result Construct :=
  match s with
  | Schema s_type s_name s_fields s_elements s_count s_until_eof
           s_size s_length s_encoding s_scale s_flags =>
      let schema_type := match s_type with Some t => t | None => "struct" end in
      if String.eqb schema_type "struct" then
        fields <- match s_fields with
                  | Some l => build_fields_from_schema build_struct_from_schema l []
                  | None => Ok []
                  end ;;
        make_Struct fields
      else if String.eqb schema_type "array" then
        match s_elements with
        | None => Raise (KeyError "elements")
        | Some elements =>
            element_struct <- build_struct_from_schema elements ;;
            match s_count with
            | Some (CountInt n) => Ok (Array (CountLit n) element_struct)
            | Some (CountStr path) =>
                Ok (Array (_resolve_this_path path) element_struct)
            | Some (CountOther repr) =>
                Raise (ValueError ("Unsupported count type: " ++ repr))
            | None =>
                if match s_until_eof with Some b => b | None => false end
                then Ok (GreedyRange element_struct)
                else Raise (ValueError "Array must have 'count' or 'until_eof'")
            end
        end
      else if String.eqb schema_type "char" then
        Ok (BoolBitAdapter Byte 0)
      else if String.eqb schema_type "bytes" then
        let size := match s_size with Some n => n | None => 0 end in
        if size <=? 0 then Raise (ValueError "Bytes must have a positive 'size'")
        else Ok (Bytes size)
      else if String.eqb schema_type "string" then
        match s_length with
        | None => Raise (ValueError "String must have 'length'")
        | Some length =>
            let encoding := match s_encoding with Some e => e | None => "ascii" end in
            _ <- encodingunit encoding ;;
            Ok (PaddedString length encoding)
        end
      else if String.eqb schema_type "bitfield" then
        Ok (build_bitfield_struct s_size s_flags)
      else
        match dict_get schema_type TYPE_MAPPING with
        | Some base_type =>
            match s_scale with
            | Some scale => Ok (ScaleAdapter base_type scale)
            | None => Ok base_type
            end
        | None => Raise (ValueError ("Unknown type in schema: " ++ schema_type))
        end
  end.

(** ** [SchemaParser] and the batch loader *)

(** What [json.load] gives for a schema file: the top-level keys that the
    parser reads. *)
Record schema_doc : Type := SchemaDoc {
  doc_name : option string;
  doc_pattern : option string;
  doc_file_pattern : option string;
  doc_structure : option schema
}.

(** A file of the schema directory: its path and what [load_schema]
    returns for it, the document or the exception of [open]/[json.load]. *)
Record schema_file : Type := SchemaFile {
  file_path : string;
  file_load : result schema_doc
}.

Record SchemaParser : Type := MkSchemaParser {
  sp_schema_file : string;
  sp_schema : schema_doc;
  sp_struct : Construct
}.

(** [SchemaParser.__init__] *)
Definition SchemaParser_init (f : schema_file) : result SchemaParser :=
  doc <- file_load f ;;
  match doc_structure doc with
  | None => Raise (KeyError "structure")
  | Some structure =>
      c <- build_struct_from_schema structure ;;
      Ok (MkSchemaParser (file_path f) doc c)
  end.

Inductive schema_dir : Type :=
| NoSuchPath (path : string)
| NotADirectory (path : string)
| Directory (path : string) (json_files : list schema_file).

(** The loop of [load_parsers_from_schemas]: the parsers that loaded, and
    the warnings printed for the others (path and exception). *)
Fixpoint load_each (files : list schema_file)
  : list SchemaParser * list (string * exn) :=
  match files with
  | [] => ([], [])
  | f :: files' =>
      let (parsers, warnings) := load_each files' in
      match SchemaParser_init f with
      | Ok parser => (parser :: parsers, warnings)
      | Raise e => (parsers, (file_path f, e) :: warnings)
      end
  end.

Definition load_parsers_from_schemas (d : schema_dir)
  : result (list SchemaParser * list (string * exn)) :=
  match d with
  | NoSuchPath p => Raise (ValueError ("Schema directory does not exist: " ++ p))
  | NotADirectory p => Raise (ValueError ("Schema path is not a directory: " ++ p))
  | Directory _ files => Ok (load_each files)
  end.

(** ** The construct context

    While a [Struct] is parsed or built, construct keeps a [Container] that
    maps the names of the fields done so far to their values, next to the
    package's own entries: ["_"] is the context of the enclosing struct,
    ["_root"] the context of the outermost struct, ["_params"] the context
    that [parse_stream] or [build_stream] made, and ["_parsing"],
    ["_building"], ["_sizing"], ["_subcons"], ["_io"] and ["_index"].  The
    three links alias live contexts, so a context is kept as the stack of
    the open frames, innermost first, and a link is a [cell] that names
    the context it points at by its depth, the number of frames of it. *)

Inductive cell : Type :=
| CVal (v : pyvalue)
| CLink (depth : nat).

Abbreviation frame := (list (string * cell)).
Abbreviation context := (list frame).

(** What indexing can reach from a context: a context again, or an object *)
Inductive node : Type :=
| NCtx (c : context)
| NVal (v : pyvalue).

(** The context of the given depth among the open ones *)
Definition ctx_at (depth : nat) (c : context) : context :=
  skipn (List.length c - depth) c.

Definition ctx_getitem (c : context) (key : string) : result node :=
  match c with
  | [] => Raise (KeyError key)
  | fr :: _ =>
      match dict_get key fr with
      | None => Raise (KeyError key)
      | Some (CVal v) => Ok (NVal v)
      | Some (CLink d) => Ok (NCtx (ctx_at d c))
      end
  end.

Definition node_getitem (n : node) (key : string) : result node :=
  match n with
  | NCtx c => ctx_getitem c key
  | NVal v => v' <- py_getitem v key ;; Ok (NVal v')
  end.

(** The closure that [_resolve_this_path] returns:
    [reduce(operator.getitem, parts, ctx)] *)
Fixpoint resolver (parts : list string) (n : node) : result node :=
  match parts with
  | [] => Ok n
  | key :: parts' => n' <- node_getitem n key ;; resolver parts' n'
  end.

(** [context[key] = v] and [context._index = i] write to the innermost frame *)
Definition ctx_set (key : string) (c : cell) (ctx : context) : context :=
  match ctx with
  | [] => []
  | fr :: parents => dict_set key c fr :: parents
  end.

(** [context.<key>] on the innermost frame, to copy an entry into a new
    frame; a missing attribute is an [AttributeError] *)
Definition ctx_attr (key : string) (ctx : context) : result cell :=
  match ctx with
  | [] => Raise AttributeError
  | fr :: _ =>
      match dict_get key fr with
      | Some c => Ok c
      | None => Raise AttributeError
      end
  end.

Definition stream_object : pyvalue := VOther "<stream>".

(** [self._subcons]: the named subcons, which are library objects *)
Definition subcons_object (subcons : list (string * Construct)) : pyvalue :=
  VContainer
    (fold_left (fun acc sc =>
                  if String.eqb (fst sc) "" then acc
                  else dict_set (fst sc) (VOther "<Construct>") acc)
               subcons []).

(** The context that [Struct._parse] and [Struct._build] open:
    [Container(_ = context, _params = context._params, _root = None, ...)]
    and then [context._root = context._.get("_root", context)]; an entry
    copied from the enclosing context denotes what it denotes there. *)
Definition new_frame (subcons : list (string * Construct)) (ctx : context)
  : result frame :=
  params <- ctx_attr "_params" ctx ;;
  parsing <- ctx_attr "_parsing" ctx ;;
  building <- ctx_attr "_building" ctx ;;
  sizing <- ctx_attr "_sizing" ctx ;;
  let index := match ctx_attr "_index" ctx with
               | Ok c => c
               | Raise _ => CVal VNone
               end in
  let root := match ctx_attr "_root" ctx with
              | Ok c => c
              | Raise _ => CLink (S (List.length ctx))
              end in
  Ok [ ("_", CLink (List.length ctx));
       ("_params", params);
       ("_root", root);
       ("_parsing", parsing);
       ("_building", building);
       ("_sizing", sizing);
       ("_subcons", CVal (subcons_object subcons));
       ("_io", CVal stream_object);
       ("_index", index) ].

(** The context of [parse_stream] and of [build_stream], whose
    ["_params"] is that context itself *)
Definition top_context (parsing : bool) : context :=
  [ [ ("_parsing", CVal (VBool parsing));
      ("_building", CVal (VBool (negb parsing)));
      ("_sizing", CVal (VBool false));
      ("_params", CLink 1) ] ].

(** The count of an [Array] at parse time: [evaluate(self.count, context)],
    the test [not 0 <= count], then [range(count)]. *)
Definition count_of_node (n : node) : result Z :=
  match n with
  | NVal (VInt z) => if z <? 0 then Raise RangeError else Ok z
  | NVal (VBool b) => Ok (Z.b2z b)
  | NVal (VFloat f) =>
      if PrimFloat.leb 0%float f then Raise TypeError else Raise RangeError
  | _ => Raise TypeError
  end.

Definition evaluate (count : count_expr) (ctx : context) : result node :=
  match count with
  | CountLit n => Ok (NVal (VInt n))
  | CountPath parts => resolver parts (NCtx ctx)
  end.

Definition parse_count (count : count_expr) (ctx : context) : result Z :=
  n <- evaluate count ctx ;; count_of_node n.

(** ** [FormatField]: [struct.unpack] and [struct.pack] *)

Definition format_size (c : format_char) : nat :=
  match c with
  | Fmt_B | Fmt_b => 1
  | Fmt_H | Fmt_h => 2
  | Fmt_L | Fmt_l | Fmt_f => 4
  | Fmt_Q | Fmt_q | Fmt_d => 8
  end.

Definition format_signed (c : format_char) : bool :=
  match c with
  | Fmt_b | Fmt_h | Fmt_l | Fmt_q => true
  | _ => false
  end.

Definition format_is_float (c : format_char) : bool :=
  match c with
  | Fmt_f | Fmt_d => true
  | _ => false
  end.

Definition ordered (e : endianness) (bs : list byte) : list byte :=
  match e with
  | LittleEndian => bs
  | BigEndian => rev bs
  end.

(** Two's complement over [8 * size] bits *)
Definition to_signed (size : nat) (z : Z) : Z :=
  if z <? 2 ^ (8 * Z.of_nat size - 1) then z else z - 2 ^ (8 * Z.of_nat size).

Definition of_signed (size : nat) (z : Z) : Z :=
  if z <? 0 then z + 2 ^ (8 * Z.of_nat size) else z.

(** IEEE 754 bit patterns, with [mw] fraction bits and [ew] exponent bits *)
Definition float_of_bits (mw ew : Z) (bits : Z) : float :=
  let frac := bits mod 2 ^ mw in
  let ex := (bits / 2 ^ mw) mod 2 ^ ew in
  let sign := negb (bits / 2 ^ (mw + ew) =? 0) in
  let bias := 2 ^ (ew - 1) - 1 in
  if (ex =? 2 ^ ew - 1)%Z then
    if (frac =? 0)%Z then SF2Prim (S754_infinity sign) else SF2Prim S754_nan
  else if (ex =? 0)%Z then
    match frac with
    | Zpos m => SF2Prim (S754_finite sign m (1 - bias - mw)%Z)
    | _ => SF2Prim (S754_zero sign)
    end
  else
    match (frac + 2 ^ mw)%Z with
    | Zpos m => SF2Prim (S754_finite sign m (ex - bias - mw)%Z)
    | _ => SF2Prim (S754_zero sign)
    end.

(** The bit pattern of a float that is already rounded to the format;
    [None] when it overflowed to an infinity by that rounding. *)
Definition bits_of_sf (mw ew : Z) (sf : spec_float) : Z :=
  let bias := 2 ^ (ew - 1) - 1 in
  let signbit (s : bool) := if s then 2 ^ (mw + ew) else 0 in
  match sf with
  | S754_zero s => signbit s
  | S754_infinity s => signbit s + (2 ^ ew - 1) * 2 ^ mw
  | S754_nan => (2 ^ ew - 1) * 2 ^ mw + 2 ^ (mw - 1)
  | S754_finite s m e =>
      if Z.pos m <? 2 ^ mw then signbit s + Z.pos m
      else signbit s + (e + bias + mw) * 2 ^ mw + (Z.pos m - 2 ^ mw)
  end.

Definition round_to_format (mw ew : Z) (f : float) : result spec_float :=
  match Prim2SF f with
  | S754_finite s m e =>
      match binary_round (mw + 1) (2 ^ (ew - 1)) s m e with
      | S754_infinity _ => Raise OverflowError
      | sf => Ok sf
      end
  | sf => Ok sf
  end.

Definition float_widths (c : format_char) : Z * Z :=
  match c with
  | Fmt_f => (23, 8)
  | _ => (52, 11)
  end.

(** [struct.unpack(fmt, data)[0]] for [data] of the format's size *)
Definition unpack (e : endianness) (c : format_char) (data : list byte) : pyvalue :=
  let raw := int_from_bytes_little (ordered e data) in
  if format_is_float c then
    let (mw, ew) := float_widths c in VFloat (float_of_bits mw ew raw)
  else if format_signed c then VInt (to_signed (format_size c) raw)
  else VInt raw.

(** [struct.pack(fmt, obj)]; construct turns any exception of it into a
    [FormatFieldError] *)
Definition pack (e : endianness) (c : format_char) (obj : pyvalue)
  : result (list byte) :=
  let size := format_size c in
  if format_is_float c then
    let (mw, ew) := float_widths c in
    match as_number obj with
    | Some n =>
        match (f <- to_float n ;; round_to_format mw ew f) with
        | Ok sf => Ok (ordered e (int_to_bytes_little size (bits_of_sf mw ew sf)))
        | Raise _ => Raise FormatFieldError
        end
    | None => Raise FormatFieldError
    end
  else
    match as_int obj with
    | Ok z =>
        let lo := if format_signed c then - 2 ^ (8 * Z.of_nat size - 1) else 0 in
        let hi := if format_signed c then 2 ^ (8 * Z.of_nat size - 1)
                  else 2 ^ (8 * Z.of_nat size) in
        if (lo <=? z) && (z <? hi) then
          Ok (ordered e (int_to_bytes_little size
                           (if format_signed c then of_signed size z else z)))
        else Raise FormatFieldError
    | Raise _ => Raise FormatFieldError
    end.

(** [stream_read(stream, length)]: exactly [length] bytes or a
    [StreamError]; a negative length reads everything and then fails the
    length test. *)
Definition stream_read (length : Z) (input : list byte)
  : result (list byte * list byte) :=
  if (0 <=? length) && (length <=? Z.of_nat (List.length input)) then
    Ok (firstn (Z.to_nat length) input, skipn (Z.to_nat length) input)
  else Raise StreamError.

(** ** Text: [NullStripped] and [StringEncoded] *)

Definition is_zero_byte (b : byte) : bool := Byte.eqb b x00.

Fixpoint drop_zero_units (fuel : nat) (unit : nat) (r : list byte) : list byte :=
  match fuel with
  | O => r
  | S fuel' =>
      if (Nat.leb unit (List.length r) && forallb is_zero_byte (firstn unit r))%bool
      then drop_zero_units fuel' unit (skipn unit r)
      else r
  end.

(** [NullStripped._parse] with the pad [bytes(unit)], which is all zero:
    a partial unit of zeros at the end goes first, then whole units.  The
    list is handled back to front. *)
Definition null_strip (unit : Z) (obj : list byte) : result (list byte) :=
  if unit <? 1 then Raise PaddingError
  else
    let u := Z.to_nat unit in
    let r := rev obj in
    if unit =? 1 then Ok (rev (drop_zero_units (List.length r) 1 r))
    else
      let tailunit := Nat.modulo (List.length obj) u in
      let r1 := if (negb (Nat.eqb tailunit 0)
                    && forallb is_zero_byte (firstn tailunit r))%bool
                then skipn tailunit r else r in
      Ok (rev (drop_zero_units (List.length r1) u r1)).

Definition is_ascii_byte (b : byte) : bool := (Byte.to_N b <? 128)%N.

(** The outcome of a parse: a value, an exception, or no answer within the
    given number of loop rounds. *)
Inductive outcome (A : Type) : Type :=
| Done (a : A)
| Fail (e : exn)
| Timeout.

Arguments Done {A} a.
Arguments Fail {A} e.
Arguments Timeout {A}.

Abbreviation parsed := (context * outcome (pyvalue * list byte))%type.

(** What a build returns: the object that stands for the built value, the
    bytes written and the context *)
Abbreviation built := (result (pyvalue * list byte * context)).

Definition of_result {A : Type} (ctx : context) (r : result A)
  : context * outcome A :=
  match r with
  | Ok a => (ctx, Done a)
  | Raise e => (ctx, Fail e)
  end.

(** An [Adapter]: the subcon parses, [_decode] converts *)
Definition adapt (decode : pyvalue -> result pyvalue) (p : parsed) : parsed :=
  match p with
  | (ctx, Done (obj, rest)) =>
      match decode obj with
      | Ok v => (ctx, Done (v, rest))
      | Raise e => (ctx, Fail e)
      end
  | other => other
  end.

Section Loops.
(** The loops of [Struct._parse], [Array._parse] and
    [GreedyRange._parse], over the parser of the subcons. *)
Variable parse_sub : Construct -> list byte -> context -> parsed.

Fixpoint parse_fields (scs : list (string * Construct))
  (obj : list (string * pyvalue)) (input : list byte) (ctx : context)
  : parsed :=
  match scs with
  | [] => (ctx, Done (VContainer obj, input))
  | (name, sc) :: scs' =>
      match parse_sub sc input ctx with
      | (ctx', Done (subobj, input')) =>
          if String.eqb name "" then parse_fields scs' obj input' ctx'
          else parse_fields scs' (dict_set name subobj obj) input'
                 (ctx_set name (CVal subobj) ctx')
      | other => other
      end
  end.

Variable parse_elem : list byte -> context -> parsed.

(** [for i in range(count)], from index [i] with [n] rounds to go *)
Fixpoint parse_array (n : nat) (i : Z) (acc : list pyvalue)
  (input : list byte) (ctx : context) : parsed :=
  match n with
  | O => (ctx, Done (VList (rev acc), input))
  | S n' =>
      match parse_elem input (ctx_set "_index" (CVal (VInt i)) ctx) with
      | (ctx', Done (e, input')) => parse_array n' (i + 1) (e :: acc) input' ctx'
      | other => other
      end
  end.

(** [for i in itertools.count()]: an exception of the element ends the
    range and the stream goes back to where the element began *)
Fixpoint parse_greedy (fuel : nat) (i : Z) (acc : list pyvalue)
  (input : list byte) (ctx : context) : parsed :=
  match fuel with
  | O => (ctx, Timeout)
  | S fuel' =>
      match parse_elem input (ctx_set "_index" (CVal (VInt i)) ctx) with
      | (ctx', Done (e, input')) => parse_greedy fuel' (i + 1) (e :: acc) input' ctx'
      | (ctx', Fail _) => (ctx', Done (VList (rev acc), input))
      | (ctx', Timeout) => (ctx', Timeout)
      end
  end.
End Loops.

(** Python's codecs for the encodings other than ASCII that construct
    admits: [data.decode(encoding)] and [text.encode(encoding)], [None]
    when the codec raises.  They belong to the host, and the codecs below
    are read over any host. *)
Class HostCodecs : Type := {
  bytes_decode : string -> list byte -> option string;
  str_encode : string -> string -> option (list byte)
}.

(** A host on which every codec other than ASCII raises *)
Definition ascii_only : HostCodecs :=
  {| bytes_decode := fun _ _ => None; str_encode := fun _ _ => None |}.

Section Codec.
Context {host : HostCodecs}.

(** [StringEncoded._decode] and [StringEncoded._encode] *)
Definition StringEncoded_decode (encoding : string) (data : list byte)
  : result pyvalue :=
  if String.eqb (normalize_encoding encoding) "ascii" then
    if forallb is_ascii_byte data then Ok (VStr (string_of_list_byte data))
    else Raise StringError
  else match bytes_decode encoding data with
       | Some s => Ok (VStr s)
       | None => Raise StringError
       end.

Definition StringEncoded_encode (encoding : string) (obj : pyvalue)
  : result (list byte) :=
  match obj with
  | VStr s =>
      if String.eqb s "" then Ok []
      else if String.eqb (normalize_encoding encoding) "ascii" then
        if forallb is_ascii_byte (list_byte_of_string s)
        then Ok (list_byte_of_string s)
        else Raise StringError
      else match str_encode encoding s with
           | Some bs => Ok bs
           | None => Raise StringError
           end
  | _ => Raise StringError
  end.

(** [BytesInteger._parse]'s conversion *)
Definition BytesInteger_decode (length : Z) (signed swapped : bool)
  (data : list byte) : pyvalue :=
  let data := if swapped then rev data else data in
  let raw := int_from_bytes_big data in
  VInt (if signed then to_signed (Z.to_nat length) raw else raw).

Fixpoint parse (fuel : nat) (con : Construct) (input : list byte)
  (ctx : context) {struct con} : parsed :=
  match con with
  | Struct subcons =>
      match new_frame subcons ctx with
      | Raise e => (ctx, Fail e)
      | Ok fr =>
          (ctx, snd (parse_fields (parse fuel) subcons
                       [("_io", stream_object)] input (fr :: ctx)))
      end
  | Array count subcon =>
      match parse_count count ctx with
      | Raise e => (ctx, Fail e)
      | Ok n => parse_array (parse fuel subcon) (Z.to_nat n) 0 [] input ctx
      end
  | GreedyRange subcon =>
      parse_greedy (parse fuel subcon) fuel 0 [] input ctx
  | FormatField e c =>
      of_result ctx
        ('(data, rest) <- stream_read (Z.of_nat (format_size c)) input ;;
         Ok (unpack e c data, rest))
  | Bytes length =>
      of_result ctx
        ('(data, rest) <- stream_read length input ;;
         Ok (VBytes data, rest))
  | PaddedString length encoding =>
      of_result ctx
        (if length <? 0 then Raise PaddingError
         else
           '(data, rest) <- stream_read length input ;;
           unit <- encodingunit encoding ;;
           stripped <- null_strip unit data ;;
           text <- StringEncoded_decode encoding stripped ;;
           Ok (text, rest))
  | BytesInteger length signed swapped =>
      of_result ctx
        (if length <=? 0 then Raise IntegerError
         else
           '(data, rest) <- stream_read length input ;;
           Ok (BytesInteger_decode length signed swapped data, rest))
  | BitFieldAdapter size_bits bit_flags subcon =>
      adapt (BitFieldAdapter_decode size_bits bit_flags)
        (parse fuel subcon input ctx)
  | ScaleAdapter subcon scale =>
      adapt (ScaleAdapter_decode scale) (parse fuel subcon input ctx)
  | BoolBitAdapter subcon bit_position =>
      adapt (BoolBitAdapter_decode bit_position) (parse fuel subcon input ctx)
  end.

(** [Construct.parse_stream], on the bytes that the stream holds: the
    value and the bytes left unread. *)
Definition parse_stream (fuel : nat) (con : Construct) (input : list byte)
  : outcome (pyvalue * list byte) :=
  snd (parse fuel con input (top_context true)).

(** *** Building *)

(** A struct's object, as the mapping that [context.update(obj)] and
    [obj[name]] read; [None] stands for an empty [Container].  Objects
    that are not mappings raise [TypeError]. *)
Definition mapping_of (obj : pyvalue) : result (list (string * pyvalue)) :=
  match obj with
  | VNone => Ok []
  | VContainer kv | VDict kv => Ok kv
  | _ => Raise TypeError
  end.

(** The context that [Struct._build] returns, as an object: the links
    to other contexts are library objects in it. *)
Definition frame_object (fr : frame) : pyvalue :=
  VContainer (map (fun kc => (fst kc,
                              match snd kc with
                              | CVal v => v
                              | _ => VOther "<Container>"
                              end)) fr).

(** The two tests of [Array._build]: [not 0 <= count], then
    [not len(obj) == count] *)
Definition build_count (n : node) (len : Z) : result unit :=
  match n with
  | NVal (VInt z) =>
      if z <? 0 then Raise RangeError
      else if len =? z then Ok tt else Raise RangeError
  | NVal (VBool b) => if len =? Z.b2z b then Ok tt else Raise RangeError
  | NVal (VFloat f) =>
      if PrimFloat.leb 0%float f then
        match float_of_Z len with
        | Ok l => if PrimFloat.eqb l f then Ok tt else Raise RangeError
        | Raise _ => Raise RangeError
        end
      else Raise RangeError
  | _ => Raise TypeError
  end.

(** The elements of an array object; sequences other than lists are not
    taken as array values and raise [TypeError]. *)
Definition items_of (obj : pyvalue) : result (list pyvalue) :=
  match obj with
  | VList l => Ok l
  | _ => Raise TypeError
  end.

Fixpoint flagbuildnone (con : Construct) : bool :=
  match con with
  | Struct subcons =>
      (fix all (scs : list (string * Construct)) : bool :=
         match scs with
         | [] => true
         | (_, sc) :: scs' => flagbuildnone sc && all scs'
         end) subcons
  | Array _ subcon | GreedyRange subcon => flagbuildnone subcon
  | BitFieldAdapter _ _ subcon => flagbuildnone subcon
  | ScaleAdapter subcon _ => flagbuildnone subcon
  | BoolBitAdapter subcon _ => flagbuildnone subcon
  | _ => false
  end.

Section BuildLoops.
Variable build_sub : Construct -> pyvalue -> context -> built.

(** The loop of [Struct._build]; [out] is what the stream holds of
    this struct so far.  A subcon that was given the empty name has the
    name [None] ([Renamed] keeps a name only when it is not empty), and
    [obj.get(None)] and [obj[None]] find nothing in a mapping whose keys
    are text: the one is [None], the other is [KeyError(None)]. *)
Fixpoint build_fields (scs : list (string * Construct))
  (obj : list (string * pyvalue)) (out : list byte) (ctx : context)
  : result (list byte * context) :=
  match scs with
  | [] => Ok (out, ctx)
  | (name, sc) :: scs' =>
      subobj <- (if String.eqb name "" then
                   if flagbuildnone sc then Ok VNone else Raise KeyErrorNone
                 else if flagbuildnone sc then
                   Ok (match dict_get name obj with
                       | Some v => v
                       | None => VNone
                       end)
                 else match dict_get name obj with
                      | Some v => Ok v
                      | None => Raise (KeyError name)
                      end) ;;
      let ctx1 := if String.eqb name "" then ctx
                  else ctx_set name (CVal subobj) ctx in
      '(buildret, data, ctx2) <- build_sub sc subobj ctx1 ;;
      let ctx3 := if String.eqb name "" then ctx2
                  else ctx_set name (CVal buildret) ctx2 in
      build_fields scs' obj (out ++ data)%list ctx3
  end.

Variable build_elem : pyvalue -> context -> built.

(** [for i, e in enumerate(obj)] of [Array._build] and
    [GreedyRange._build] *)
Fixpoint build_items (items : list pyvalue) (i : Z) (rets : list pyvalue)
  (out : list byte) (ctx : context) : built :=
  match items with
  | [] => Ok (VList (rev rets), out, ctx)
  | e :: items' =>
      '(buildret, data, ctx') <-
        build_elem e (ctx_set "_index" (CVal (VInt i)) ctx) ;;
      build_items items' (i + 1) (buildret :: rets) (out ++ data)%list ctx'
  end.
End BuildLoops.

Definition zeros (n : nat) : list byte := repeat x00 n.

Fixpoint build (con : Construct) (obj : pyvalue) (ctx : context)
  {struct con} : built :=
  match con with
  | Struct subcons =>
      fr <- new_frame subcons ctx ;;
      kv <- mapping_of obj ;;
      let fr' := dict_update fr (map (fun p => (fst p, CVal (snd p))) kv) in
      '(out, ctx') <- build_fields build subcons kv [] (fr' :: ctx) ;;
      Ok (frame_object (hd [] ctx'), out, ctx)
  | Array count subcon =>
      n <- evaluate count ctx ;;
      _ <- match n with
           | NVal (VInt z) => if z <? 0 then Raise RangeError else Ok tt
           | NVal (VBool _) => Ok tt
           | NVal (VFloat f) =>
               if PrimFloat.leb 0%float f then Ok tt else Raise RangeError
           | _ => Raise TypeError
           end ;;
      items <- items_of obj ;;
      _ <- build_count n (Z.of_nat (List.length items)) ;;
      build_items (build subcon) items 0 [] [] ctx
  | GreedyRange subcon =>
      items <- items_of obj ;;
      build_items (build subcon) items 0 [] [] ctx
  | FormatField e c =>
      data <- pack e c obj ;;
      Ok (obj, data, ctx)
  | Bytes length =>
      match obj with
      | VBytes data =>
          if Z.of_nat (List.length data) =? length then Ok (obj, data, ctx)
          else Raise StreamError
      | VInt _ | VBool _ =>
          z <- as_int obj ;;
          if (0 <=? z) && (z <? 256 ^ length) && (0 <=? length) then
            let data := int_to_bytes_big (Z.to_nat length) z in
            Ok (VBytes data, data, ctx)
          else Raise IntegerError
      | _ => Raise StringError
      end
  | PaddedString length encoding =>
      data <- StringEncoded_encode encoding obj ;;
      if length <? 0 then Raise PaddingError
      else
        let pad := length - Z.of_nat (List.length data) in
        if pad <? 0 then Raise PaddingError
        else Ok (obj, (data ++ zeros (Z.to_nat pad))%list, ctx)
  | BytesInteger length signed swapped =>
      match as_int obj with
      | Raise _ => Raise IntegerError
      | Ok z =>
          if length <=? 0 then Raise IntegerError
          else
            let size := Z.to_nat length in
            let lo := if signed then - 2 ^ (8 * length - 1) else 0 in
            let hi := if signed then 2 ^ (8 * length - 1) else 2 ^ (8 * length) in
            if (lo <=? z) && (z <? hi) then
              let data := int_to_bytes_big size
                            (if signed then of_signed size z else z) in
              Ok (obj, if swapped then rev data else data, ctx)
            else Raise IntegerError
      end
  | BitFieldAdapter size_bits bit_flags subcon =>
      obj2 <- BitFieldAdapter_encode size_bits bit_flags obj ;;
      '(_, data, ctx') <- build subcon obj2 ctx ;;
      Ok (obj, data, ctx')
  | ScaleAdapter subcon scale =>
      obj2 <- ScaleAdapter_encode scale obj ;;
      '(_, data, ctx') <- build subcon obj2 ctx ;;
      Ok (obj, data, ctx')
  | BoolBitAdapter subcon bit_position =>
      obj2 <- BoolBitAdapter_encode bit_position obj ;;
      '(_, data, ctx') <- build subcon obj2 ctx ;;
      Ok (obj, data, ctx')
  end.

(** [Construct.build]: the bytes written *)
Definition build_bytes (con : Construct) (obj : pyvalue) : result (list byte) :=
  '(_, data, _) <- build con obj (top_context false) ;;
  Ok data.

(** [SchemaParser.parse_file], on the bytes of the file: the parsed data
    with the file's name and the schema's name next to it. *)
Definition parse_file (fuel : nat) (p : SchemaParser) (filename : string)
  (content : list byte) : outcome (list (string * pyvalue)) :=
  match parse_stream fuel (sp_struct p) content with
  | Done (data, _) =>
      Done [ ("filename", VStr filename);
             ("schema", match doc_name (sp_schema p) with
                        | Some n => VStr n
                        | None => VNone
                        end);
             ("data", data) ]
  | Fail e => Fail e
  | Timeout => Timeout
  end.
End Codec.

(** ** [to_serializable] *)

Definition hex_digit (n : N) : ascii :=
  match n with
  | 0 => "0" | 1 => "1" | 2 => "2" | 3 => "3" | 4 => "4" | 5 => "5"
  | 6 => "6" | 7 => "7" | 8 => "8" | 9 => "9" | 10 => "a" | 11 => "b"
  | 12 => "c" | 13 => "d" | 14 => "e" | _ => "f"
  end%N%char.

(** [bytes.hex()] *)
Fixpoint hex (bs : list byte) : string :=
  match bs with
  | [] => EmptyString
  | b :: bs' =>
      String (hex_digit (Byte.to_N b / 16))
        (String (hex_digit (Byte.to_N b mod 16)) (hex bs'))
  end.

(** [k.startswith("_")] *)
Definition startswith_underscore (k : string) : bool :=
  match k with
  | String c _ => Ascii.eqb c "_"
  | EmptyString => false
  end.

(** The inner function of [to_serializable], as the value that it returns
    for a decoded value; [container_to_dict_call] below is the call, which
    can raise.  Tuples are lists here, and an object of any other class is
    a [VOther] that carries its [str()]. *)
Fixpoint container_to_dict (container : pyvalue) : pyvalue :=
  match container with
  | VContainer kv =>
      VDict ((fix items (kv : list (string * pyvalue)) : list (string * pyvalue) :=
                match kv with
                | [] => []
                | (k, v) :: kv' =>
                    if startswith_underscore k then items kv'
                    else (k, container_to_dict v) :: items kv'
                end) kv)
  | VDict kv =>
      VDict ((fix items (kv : list (string * pyvalue)) : list (string * pyvalue) :=
                match kv with
                | [] => []
                | (k, v) :: kv' => (k, container_to_dict v) :: items kv'
                end) kv)
  | VList l =>
      VList ((fix each (l : list pyvalue) : list pyvalue :=
                match l with
                | [] => []
                | item :: l' => container_to_dict item :: each l'
                end) l)
  | VBytes bs => VStr (hex bs)
  | VInt _ | VFloat _ | VStr _ | VBool _ | VNone => container
  | VOther repr => VStr repr
  end.

(** ** The call of the normalizer *)

(** The keys of the mappings that a caller can hand to
    [to_serializable]: text, a byte string, or a hashable object of
    another class (an integer, [None], a tuple), which has no
    [startswith]. *)
Inductive pykey : Type :=
| KStr (s : string)
| KBytes (bs : list byte)
| KOther (repr : string).

(** The objects that a caller can hand to [to_serializable]: the values
    of [pyvalue], with mappings over any key.  A tuple is an [OList], and
    [OOther] is an object of any other class with the text that [str]
    gives for it. *)
Inductive pyobject : Type :=
| ONone
| OBool (b : bool)
| OInt (z : Z)
| OFloat (f : float)
| OStr (s : string)
| OBytes (bs : list byte)
| OList (items : list pyobject)
| ODict (kv : list (pykey * pyobject))
| OContainer (kv : list (pykey * pyobject))
| OOther (repr : string).

(** A decoded value as such an object: its keys are text. *)
Fixpoint object_of (v : pyvalue) : pyobject :=
  match v with
  | VNone => ONone
  | VBool b => OBool b
  | VInt z => OInt z
  | VFloat f => OFloat f
  | VStr s => OStr s
  | VBytes bs => OBytes bs
  | VList l => OList (map object_of l)
  | VDict kv => ODict (map (fun p => (KStr (fst p), object_of (snd p))) kv)
  | VContainer kv =>
      OContainer (map (fun p => (KStr (fst p), object_of (snd p))) kv)
  | VOther repr => OOther repr
  end.

(** [k.startswith("_")] on a key: [bytes.startswith] does not take a
    [str], and the other classes have no such attribute. *)
Definition key_startswith_underscore (k : pykey) : result bool :=
  match k with
  | KStr s => Ok (startswith_underscore s)
  | KBytes _ => Raise TypeError
  | KOther _ => Raise AttributeError
  end.

Section NormalizerLoops.
(** The three comprehensions of [container_to_dict], over the recursive
    call: each tests the key where there is a test, then calls on the
    value, item by item, and the first exception ends it. *)
Variable call : pyobject -> result pyobject.

Fixpoint container_items (kv : list (pykey * pyobject))
  : result (list (pykey * pyobject)) :=
  match kv with
  | [] => Ok []
  | (k, v) :: kv' =>
      under <- key_startswith_underscore k ;;
      if under then container_items kv'
      else
        v' <- call v ;;
        rest <- container_items kv' ;;
        Ok ((k, v') :: rest)
  end.

Fixpoint dict_items (kv : list (pykey * pyobject))
  : result (list (pykey * pyobject)) :=
  match kv with
  | [] => Ok []
  | (k, v) :: kv' =>
      v' <- call v ;;
      rest <- dict_items kv' ;;
      Ok ((k, v') :: rest)
  end.

Fixpoint list_items (l : list pyobject) : result (list pyobject) :=
  match l with
  | [] => Ok []
  | item :: l' =>
      item' <- call item ;;
      rest <- list_items l' ;;
      Ok (item' :: rest)
  end.
End NormalizerLoops.

(** [container_to_dict(container)] as the interpreter runs it, with room
    on its stack for [limit] more nested calls of the function: a call
    that finds no room is a [RecursionError].  How many calls the stack
    admits belongs to the interpreter (its recursion limit and the frames
    in use); the properties below hold for every [limit]. *)
Fixpoint container_to_dict_call (limit : nat) (container : pyobject)
  : result pyobject :=
  match limit with
  | O => Raise RecursionError
  | S limit' =>
      match container with
      | OContainer kv =>
          items <- container_items (container_to_dict_call limit') kv ;;
          Ok (ODict items)
      | ODict kv =>
          items <- dict_items (container_to_dict_call limit') kv ;;
          Ok (ODict items)
      | OList l =>
          items <- list_items (container_to_dict_call limit') l ;;
          Ok (OList items)
      | OBytes bs => Ok (OStr (hex bs))
      | ONone | OBool _ | OInt _ | OFloat _ | OStr _ => Ok container
      | OOther repr => Ok (OStr repr)
      end
  end.

(** [data.get(key)] for a text key *)
Fixpoint object_get (key : string) (data : list (pykey * pyobject)) : pyobject :=
  match data with
  | [] => ONone
  | (KStr k, v) :: data' => if String.eqb key k then v else object_get key data'
  | _ :: data' => object_get key data'
  end.

(** [to_serializable(data)] as the interpreter runs it *)
Definition to_serializable (limit : nat) (data : list (pykey * pyobject))
  : result (list (string * pyobject)) :=
  let filename := object_get "filename" data in
  let schema_name := object_get "schema" data in
  body <- container_to_dict_call limit (object_get "data" data) ;;
  Ok [("filename", filename); ("schema", schema_name); ("data", body)].

(** A key under which a [Container]'s value is not visited *)
Definition skipped_key (k : pykey) : bool :=
  match k with
  | KStr s => startswith_underscore s
  | _ => false
  end.

(** The deepest nesting of calls that the normalizer makes on an object:
    one for the object, and those of the values it visits. *)
Fixpoint calls_needed (o : pyobject) : nat :=
  match o with
  | OList l => S (list_max (map calls_needed l))
  | ODict kv => S (list_max (map (fun p => calls_needed (snd p)) kv))
  | OContainer kv =>
      S (list_max (map (fun p => if skipped_key (fst p) then O
                                 else calls_needed (snd p)) kv))
  | _ => 1%nat
  end.

(** Every key of every [Container] that the normalizer visits is text. *)
Fixpoint text_keys (o : pyobject) : bool :=
  match o with
  | OList l => forallb text_keys l
  | ODict kv => forallb (fun p => text_keys (snd p)) kv
  | OContainer kv =>
      forallb (fun p => match fst p with
                        | KStr s => startswith_underscore s || text_keys (snd p)
                        | _ => false
                        end) kv
  | _ => true
  end.

(** What the normalizer is to return: [None], booleans, numbers, text,
    and lists and dicts of these; no [Container], no byte string, no
    object of another class *)
Fixpoint converted (o : pyobject) : bool :=
  match o with
  | ONone | OBool _ | OInt _ | OFloat _ | OStr _ => true
  | OList l => forallb converted l
  | ODict kv => forallb (fun p => converted (snd p)) kv
  | OBytes _ | OContainer _ | OOther _ => false
  end.

(** Lists nested [n] deep around [None] *)
Definition nested_lists (n : nat) : pyobject :=
  Nat.iter n (fun o => OList [o]) ONone.

(** ** Vocabulary of the properties *)

(** [z] is the float [f] with its fraction dropped: [z] has the sign of
    [f] and [|z| <= |f| < |z| + 1].  The float is [m * 2^e]; both sides
    are scaled by [2^k] to stay in the integers. *)
Definition toward_zero (f : float) (z : Z) : Prop :=
  match Prim2SF f with
  | S754_zero _ => z = 0
  | S754_finite s m e =>
      let k := Z.max 0 (- e) in
      Z.abs z * 2 ^ k <= Z.pos m * 2 ^ (e + k) < (Z.abs z + 1) * 2 ^ k
      /\ (if s then z <= 0 else 0 <= z)
  | _ => False
  end.

(** The flags of the width-8 scenario: [a] at bit 0, [b] at bit 1, [c] at
    bit 3 *)
Definition scenario_flags : list flag :=
  [ Flag (Some "a") (Some 0); Flag (Some "b") (Some 1); Flag (Some "c") (Some 3) ].

(** Two bytes' worth of flags: [a] at bit 0 and [b] at bit 8 *)
Definition two_byte_flags : list flag :=
  [ Flag (Some "a") (Some 0); Flag (Some "b") (Some 8) ].

(** A layout whose encoding cannot fail for a reason other than the
    object: every flag has a name and starts between bit 0 and the width. *)
Definition layout_ok (size_bits : Z) (flags : list bit_flag) : Prop :=
  Forall (fun f => bf_name f <> None /\ 0 <= bf_bit f <= size_bits) flags.

(** The values of the object that the flags name are integers or
    booleans. *)
Definition flag_values_int (flags : list bit_flag) (kv : list (string * pyvalue))
  : Prop :=
  forall f name v,
    In f flags -> bf_name f = Some name -> dict_get name kv = Some v ->
    exists z, as_int v = Ok z.

Definition by_bit (f g : bit_flag) : Prop := bf_bit f <= bf_bit g.

(** The type strings that [build_struct_from_schema] knows *)
Definition known_types : list string :=
  ["struct"; "array"; "char"; "bytes"; "string"; "bitfield"]
    ++ map fst TYPE_MAPPING.

Definition known_type (t : string) : bool := existsb (String.eqb t) known_types.

(** The keys that construct itself puts in a struct's context *)
Definition reserved_keys : list string :=
  ["_"; "_params"; "_root"; "_parsing"; "_building"; "_sizing"; "_subcons";
   "_io"; "_index"].

(** The keys of the innermost frame are among [keys] *)
Definition head_keys_in (keys : list string) (ctx : context) : Prop :=
  match ctx with
  | [] => True
  | fr :: _ => forall k, In k (map fst fr) -> In k keys
  end.

(** A struct with a one-byte [char] field and an array counted by it *)
Definition flag_count_schema : schema :=
  with_fields
    [ with_name "flag" (schema_node (Some "char"));
      with_name "items"
        (with_count (CountStr "flag")
           (with_elements (schema_node (Some "uint8")) (schema_node (Some "array")))) ]
    (schema_node None).

Definition flag_count_codec : Construct :=
  Struct [ ("flag", BoolBitAdapter Byte 0);
           ("items", Array (CountPath ["flag"]) (FormatField LittleEndian Fmt_B)) ].

(** Two schema files, one of a known and one of an unknown type *)
Definition good_schema_file : schema_file :=
  SchemaFile "nodes.json"
    (Ok (SchemaDoc (Some "nodes") (Some "NODES*.DAT") None
           (Some (with_fields [with_name "n" (schema_node (Some "uint8"))]
                    (schema_node None))))).

Definition bad_schema_file : schema_file :=
  SchemaFile "bad.json"
    (Ok (SchemaDoc (Some "bad") None None (Some (schema_node (Some "foo"))))).

(** *** What the round-trip property asks of a codec

    The keys of a context whose values differ between parsing and
    building, or that the package rewrites as it goes: a count path that
    reads one of them has no stable meaning. *)
Definition volatile_keys : list string :=
  ["_index"; "_parsing"; "_building"; "_sizing"; "_subcons"; "_io"; "_root";
   "_params"].

Definition is_stable (k : string) : bool :=
  negb (existsb (String.eqb k) volatile_keys).

(** A field name under which the struct keeps the value: not empty (a
    field without a name is parsed and dropped) and not ["_"], the link
    to the enclosing context *)
Definition name_ok (n : string) : bool :=
  negb (String.eqb n "") && negb (String.eqb n "_").

Fixpoint distinct (l : list string) : bool :=
  match l with
  | [] => true
  | x :: l' => negb (existsb (String.eqb x) l') && distinct l'
  end.

(** The flags start at bit [start] and tile the bits up to [size_bits]:
    each begins where the one before ends, and none is empty. *)
Fixpoint flags_cover (start size_bits : Z) (flags : list bit_flag) : bool :=
  match flags with
  | [] => false
  | f :: rest =>
      (bf_bit f =? start)
      && match rest with
         | [] => start <? size_bits
         | g :: _ => (start <? bf_bit g) && flags_cover (bf_bit g) size_bits rest
         end
  end.

Definition flag_key (f : bit_flag) : string :=
  match bf_name f with Some n => n | None => "" end.

Definition flags_named (flags : list bit_flag) : bool :=
  forallb (fun f => match bf_name f with Some _ => true | None => false end) flags.

(** The codecs that keep every bit of their input: structs whose fields
    have usable, distinct names; arrays, counted by a literal or by a path
    of stable keys, and greedy ranges; integer primitives; byte strings;
    ASCII text; bitfields whose named flags tile a whole number of bytes.
    Scaled primitives and [char] are left out, and so are the float
    primitives, whose NaN bit patterns the float model does not keep, and
    text in the encodings that belong to the host. *)
Fixpoint lossless (con : Construct) : bool :=
  match con with
  | Struct subcons =>
      forallb name_ok (map fst subcons)
      && distinct (map fst subcons)
      && (fix all (scs : list (string * Construct)) : bool :=
            match scs with
            | [] => true
            | (_, sc) :: scs' => lossless sc && all scs'
            end) subcons
  | Array count subcon =>
      match count with
      | CountLit _ => true
      | CountPath parts => forallb is_stable parts
      end && lossless subcon
  | GreedyRange subcon => lossless subcon
  | FormatField _ c => negb (format_is_float c)
  | Bytes _ => true
  | PaddedString _ encoding => String.eqb (normalize_encoding encoding) "ascii"
  | BitFieldAdapter size_bits bit_flags (BytesInteger length false false) =>
      (size_bits =? 8 * length)
      && flags_named bit_flags
      && distinct (map flag_key bit_flags)
      && flags_cover 0 size_bits bit_flags
  | _ => false
  end.

(** The values that an array takes as its count *)
Definition is_count_value (v : pyvalue) : bool :=
  match v with
  | VInt _ | VBool _ => true
  | _ => false
  end.

(** Every path of stable keys that leads from [n] to a count leads from
    [m] to the same count. *)
Definition node_sim (n m : node) : Prop :=
  forall parts s,
    forallb is_stable parts = true -> is_count_value s = true ->
    resolver parts n = Ok (NVal s) -> resolver parts m = Ok (NVal s).

(** Two contexts that differ at most in the ["_index"] of the innermost
    frame *)
Definition index_only (c c' : context) : Prop :=
  match c, c' with
  | [], [] => True
  | fr :: parents, fr' :: parents' =>
      parents = parents'
      /\ forall k, k <> "_index" -> dict_get k fr = dict_get k fr'
  | _, _ => False
  end.

(** In the innermost frame a stable key holds a value, or it is ["_"] and
    links to an enclosing context. *)
Definition links_ok (c : context) : Prop :=
  match c with
  | [] => True
  | fr :: parents =>
      forall k d, is_stable k = true -> dict_get k fr = Some (CLink d) ->
                  k = "_" /\ (d <= List.length parents)%nat
  end.

(** The entries that a new struct context copies are there. *)
Definition attrs_ok (c : context) : Prop :=
  exists fr, new_frame [] c = Ok fr.

(** The build context [b] stands for the parse context [p]. *)
Definition ctx_rel (p b : context) : Prop :=
  links_ok p /\ links_ok b /\ attrs_ok b /\ node_sim (NCtx p) (NCtx b).

(** The value that the bitfield decodes for flag [f], where [rest] are
    the flags after it *)
Definition flag_value (size_bits value : Z) (f : bit_flag) (rest : list bit_flag)
  : pyvalue :=
  let start := bf_bit f in
  let width := flag_end size_bits rest - start in
  if width =? 1 then VBool (negb (Z.land (Z.shiftr value start) 1 =? 0))
  else VInt (Z.land (Z.shiftr value start) (Z.shiftl 1 width - 1)).

(** The mapping has, under each flag's name, the value decoded for it. *)
Fixpoint entries_ok (size_bits value : Z) (obj : list (string * pyvalue))
  (flags : list bit_flag) : Prop :=
  match flags with
  | [] => True
  | f :: rest =>
      dict_get (flag_key f) obj = Some (flag_value size_bits value f rest)
      /\ entries_ok size_bits value obj rest
  end.

(** What the round-trip induction proves of a codec: whatever it parses
    in a context, it builds, in a build context that stands for that
    context, to the bytes it read; the object it returns stands for the
    parsed value. *)
Definition round_trips {host : HostCodecs} (con : Construct) : Prop :=
  forall fuel input p p' v rest b,
    parse fuel con input p = (p', Done (v, rest)) ->
    ctx_rel p b ->
    exists ret data b',
      build con v b = Ok (ret, data, b')
      /\ input = (data ++ rest)%list
      /\ node_sim (NVal v) (NVal ret).

(** The struct of the count scenario: a 32-bit [num] and as many one-byte
    [items] *)
Definition counted_items_schema : schema :=
  with_fields
    [ with_name "num" (schema_node (Some "uint32"));
      with_name "items"
        (with_count (CountStr "num")
           (with_elements (schema_node (Some "uint8")) (schema_node (Some "array")))) ]
    (schema_node None).

Definition counted_items_codec : Construct :=
  Struct [ ("num", FormatField LittleEndian Fmt_L);
           ("items", Array (CountPath ["num"]) (FormatField LittleEndian Fmt_B)) ].


(** *** Bitfields in both directions *)

(** A flag of the schema fits the width: if it has a ["bit"] it has a
    ["name"] too, and the bit is between 0 and the width. *)
Definition flag_fits (size_bits : Z) (f : flag) : Prop :=
  match flag_bit f with
  | None => True
  | Some b => flag_name f <> None /\ 0 <= b <= size_bits
  end.

(** The integer that [_encode] puts into the bits of a flag of width [w],
    given the entry of the mapping under the flag's name: nothing for an
    absent key, the truth value for a width of 1, the low [w] bits of the
    integer otherwise. *)
Definition flag_field (w : Z) (entry : option pyvalue) : Z :=
  match entry with
  | None => 0
  | Some val =>
      if w =? 1 then Z.b2z (truthy val)
      else match as_int val with
           | Ok z => z mod 2 ^ w
           | Raise _ => 0
           end
  end.

(** The value that [_decode] makes of the bits of a flag of width [w] *)
Definition flag_decoded (w field : Z) : pyvalue :=
  if w =? 1 then VBool (negb (field =? 0)) else VInt field.

(** The bits of [v] in the range of each flag are the field of the
    mapping's entry for that flag. *)
Fixpoint fields_ok (size_bits v : Z) (kv : list (string * pyvalue))
  (flags : list bit_flag) : Prop :=
  match flags with
  | [] => True
  | f :: rest =>
      let w := flag_end size_bits rest - bf_bit f in
      Z.land (Z.shiftr v (bf_bit f)) (Z.ones w)
      = flag_field w (dict_get (flag_key f) kv)
      /\ fields_ok size_bits v kv rest
  end.

(** The entries that [_decode] assigns, flag by flag *)
Fixpoint decoded_entries (size_bits v : Z) (flags : list bit_flag)
  : list (string * pyvalue) :=
  match flags with
  | [] => []
  | f :: rest =>
      (flag_key f, flag_value size_bits v f rest) :: decoded_entries size_bits v rest
  end.

(** A value as [_decode] returns it for a flag of width [w]: a boolean
    for a width of 1, otherwise an integer of [w] bits *)
Definition canonical_value (w : Z) (val : pyvalue) : bool :=
  match val with
  | VBool _ => w =? 1
  | VInt z => negb (w =? 1) && (0 <=? z) && (z <? 2 ^ w)
  | _ => false
  end.

(** A mapping as [_decode] returns it: the flags' names in the order of
    the flags, each with a value of the flag's width *)
Fixpoint canonical_flags (size_bits : Z) (flags : list bit_flag)
  (kv : list (string * pyvalue)) : bool :=
  match flags, kv with
  | [], [] => true
  | f :: rest, (k, val) :: kv' =>
      String.eqb k (flag_key f)
      && canonical_value (flag_end size_bits rest - bf_bit f) val
      && canonical_flags size_bits rest kv'
  | _, _ => false
  end.

(** *** Primitives and scales *)

(** The type strings that reach the [TYPE_MAPPING] branch of the
    compiler: its keys, but for ["char"], which has a branch of its own *)
Definition primitive_types : list string :=
  filter (fun t => negb (String.eqb t "char")) (map fst TYPE_MAPPING).

(** *** What the compiler keeps *)

(** No struct of the codec tree has two fields of one name. *)
Fixpoint names_distinct (con : Construct) : bool :=
  match con with
  | Struct subcons =>
      distinct (map fst subcons)
      && (fix all (scs : list (string * Construct)) : bool :=
            match scs with
            | [] => true
            | (_, sc) :: scs' => names_distinct sc && all scs'
            end) subcons
  | Array _ subcon | GreedyRange subcon => names_distinct subcon
  | BitFieldAdapter _ _ subcon => names_distinct subcon
  | ScaleAdapter subcon _ => names_distinct subcon
  | BoolBitAdapter subcon _ => names_distinct subcon
  | FormatField _ _ | Bytes _ | PaddedString _ _ | BytesInteger _ _ _ => true
  end.

(** The field of [fs] that the struct keeps under the name [n]: the last
    one of that name *)
Fixpoint field_for (n : string) (fs : list schema) (acc : option schema)
  : option schema :=
  match fs with
  | [] => acc
  | f :: fs' =>
      field_for n fs'
        (match s_name_of f with
         | Some m => if String.eqb m n then Some f else acc
         | None => acc
         end)
  end.

(** The names of [l] in the order of their first occurrence, those in
    [seen] left out: the order in which a [dict] keeps keys that are
    assigned one after the other *)
Fixpoint first_occurrences (seen l : list string) : list string :=
  match l with
  | [] => []
  | x :: l' =>
      if existsb (String.eqb x) seen then first_occurrences seen l'
      else x :: first_occurrences (x :: seen) l'
  end.

(** The names of the fields of a struct schema, in schema order *)
Definition field_names (fs : list schema) : list string :=
  flat_map (fun f => match s_name_of f with Some n => [n] | None => [] end) fs.

(** *** Hexadecimal text *)

(** The value of a lower-case hexadecimal digit, from its character
    code: [0-9] are 48 to 57 and [a-f] are 97 to 102 *)
Definition hex_value (c : ascii) : option N :=
  let code := N_of_ascii c in
  if ((48 <=? code) && (code <=? 57))%N then Some (code - 48)%N
  else if ((97 <=? code) && (code <=? 102))%N then Some (code - 87)%N
  else None.

(** Reading the bytes back from their hexadecimal text *)
Fixpoint unhex (s : string) : option (list byte) :=
  match s with
  | EmptyString => Some []
  | String hi (String lo s') =>
      match hex_value hi, hex_value lo, unhex s' with
      | Some h, Some l, Some bs =>
          match Byte.of_N (16 * h + l) with
          | Some b => Some (b :: bs)
          | None => None
          end
      | _, _, _ => None
      end
  | String _ EmptyString => None
  end.


(** ** Choosing a parser for a file *)

(** [a or b] on an attribute that may be absent and a default: an absent
    and an empty text are both false *)
Definition str_or (a : option string) (b : string) : string :=
  match a with
  | Some s => if String.eqb s "" then b else s
  | None => b
  end.

(** The properties [file_pattern] and [parser_name] *)
Definition file_pattern (p : SchemaParser) : string :=
  str_or (doc_pattern (sp_schema p)) (str_or (doc_file_pattern (sp_schema p)) "*").

Definition parser_name (p : SchemaParser) : string :=
  match doc_name (sp_schema p) with
  | Some n => n
  | None => "SchemaParser"
  end.

(** [c in s] for a character *)
Fixpoint contains_char (c : ascii) (s : string) : bool :=
  match s with
  | EmptyString => false
  | String d s' => Ascii.eqb c d || contains_char c s'
  end.

(** What the host's library does with text: [fnmatch.fnmatch(name, pat)]
    and [str.lower()] *)
Class HostText : Type := {
  fnmatch : string -> string -> bool;
  str_lower : string -> string
}.

(** A host for plain ASCII names, whose [fnmatch] knows ["*"] and ["?"] *)
Fixpoint glob_match (pat name : string) : bool :=
  match pat with
  | EmptyString => match name with EmptyString => true | _ => false end
  | String c pat' =>
      if Ascii.eqb c "*" then
        (fix star (name : string) : bool :=
           glob_match pat' name
           || match name with
              | EmptyString => false
              | String _ name' => star name'
              end) name
      else
        match name with
        | EmptyString => false
        | String d name' =>
            (Ascii.eqb c "?" || Ascii.eqb c d) && glob_match pat' name'
        end
  end.

Fixpoint lower_string (s : string) : string :=
  match s with
  | EmptyString => EmptyString
  | String c s' => String (lower_ascii c) (lower_string s')
  end.

Definition ascii_text : HostText :=
  {| fnmatch := fun name pat => glob_match pat name; str_lower := lower_string |}.

Section Selection.
Context {text : HostText}.

(** [find_parser_for_file], on the name of the file *)
Fixpoint find_parser_for_file (parsers : list SchemaParser) (filename : string)
  : option SchemaParser :=
  match parsers with
  | [] => None
  | parser :: parsers' =>
      let pattern := file_pattern parser in
      if String.eqb pattern filename then Some parser
      else if contains_char "*" pattern || contains_char "?" pattern then
        if fnmatch filename pattern then Some parser
        else find_parser_for_file parsers' filename
      else if String.eqb (str_lower filename) (str_lower pattern) then Some parser
      else find_parser_for_file parsers' filename
  end.

(** The three ways in which a pattern takes a file name: the same text; a
    pattern with a wildcard that [fnmatch] accepts; a pattern without one
    that is the name up to the case of letters. *)
Definition pattern_takes (pattern filename : string) : bool :=
  String.eqb pattern filename
  || (if contains_char "*" pattern || contains_char "?" pattern
      then fnmatch filename pattern
      else String.eqb (str_lower filename) (str_lower pattern)).
End Selection.

(** A schema file that [SchemaParser] loads *)
Definition loads (f : schema_file) : bool := is_ok (SchemaParser_init f).

(** *** Sizes, ranges and text *)

(** The number of bytes that a codec reads whatever they are, where the
    layout fixes it: no array counted by a path, no array to the end of
    the file, no literal count below zero *)
Fixpoint fixed_size (con : Construct) : option Z :=
  match con with
  | Struct subcons =>
      (fix sum (scs : list (string * Construct)) : option Z :=
         match scs with
         | [] => Some 0
         | (_, sc) :: scs' =>
             match fixed_size sc, sum scs' with
             | Some a, Some b => Some (a + b)
             | _, _ => None
             end
         end) subcons
  | Array (CountLit n) subcon =>
      if n <? 0 then None
      else match fixed_size subcon with
           | Some s => Some (n * s)
           | None => None
           end
  | Array (CountPath _) _ | GreedyRange _ => None
  | FormatField _ c => Some (Z.of_nat (format_size c))
  | Bytes length | PaddedString length _ | BytesInteger length _ _ => Some length
  | BitFieldAdapter _ _ subcon => fixed_size subcon
  | ScaleAdapter subcon _ => fixed_size subcon
  | BoolBitAdapter subcon _ => fixed_size subcon
  end.

(** The parse read exactly [n] bytes. *)
Definition reads (n : Z) (input rest : list byte) : Prop :=
  exists data, input = (data ++ rest)%list /\ Z.of_nat (List.length data) = n.

(** Whenever the codec parses, it has read its fixed size. *)
Definition reads_fixed {host : HostCodecs} (con : Construct) : Prop :=
  forall n fuel input ctx ctx' v rest,
    fixed_size con = Some n ->
    parse fuel con input ctx = (ctx', Done (v, rest)) ->
    reads n input rest.

(** The integers that an integer primitive stores: from the first up to,
    and without, the second *)
Definition format_range (c : format_char) : Z * Z :=
  let bits := 8 * Z.of_nat (format_size c) in
  if format_signed c then (- 2 ^ (bits - 1), 2 ^ (bits - 1)) else (0, 2 ^ bits).

(** The last byte is a zero byte. *)
Definition ends_with_nul (bs : list byte) : bool :=
  match rev bs with
  | b :: _ => is_zero_byte b
  | [] => false
  end.

(** No array of the codec runs to the end of the file ([until_eof]). *)
Fixpoint no_until_eof (con : Construct) : bool :=
  match con with
  | Struct subcons =>
      (fix all (scs : list (string * Construct)) : bool :=
         match scs with
         | [] => true
         | (_, sc) :: scs' => no_until_eof sc && all scs'
         end) subcons
  | Array _ subcon => no_until_eof subcon
  | GreedyRange _ => false
  | FormatField _ _ | Bytes _ | PaddedString _ _ | BytesInteger _ _ _ => true
  | BitFieldAdapter _ _ subcon => no_until_eof subcon
  | ScaleAdapter subcon _ => no_until_eof subcon
  | BoolBitAdapter subcon _ => no_until_eof subcon
  end.

(** What the codec decodes depends on the bytes it reads and on nothing
    after them. *)
Definition reads_prefix {host : HostCodecs} (con : Construct) : Prop :=
  forall fuel input ctx ctx' v rest,
    no_until_eof con = true ->
    parse fuel con input ctx = (ctx', Done (v, rest)) ->
    exists data,
      input = (data ++ rest)%list
      /\ forall rest', parse fuel con (data ++ rest') ctx = (ctx', Done (v, rest')).

(** * Properties *)

(** ** Bytes and integers *)

Lemma byte_of_Z_to_N (b : byte) : byte_of_Z (Z.of_N (Byte.to_N b)) = b.
Proof.
  unfold byte_of_Z.
  pose proof (Byte.to_N_bounded b) as Hb.
  rewrite Z.mod_small by lia.
  rewrite N2Z.id, Byte.of_to_N. reflexivity.
Qed.

Lemma int_from_bytes_little_range (bs : list byte) :
  0 <= int_from_bytes_little bs < 256 ^ Z.of_nat (List.length bs).
Proof.
  induction bs as [|b bs IH]; cbn [int_from_bytes_little List.length].
  - simpl. lia.
  - pose proof (Byte.to_N_bounded b) as Hb.
    rewrite Nat2Z.inj_succ, Z.pow_succ_r by lia. lia.
Qed.

Lemma int_to_bytes_little_from (bs : list byte) :
  int_to_bytes_little (List.length bs) (int_from_bytes_little bs) = bs.
Proof.
  induction bs as [|b bs IH]; cbn [int_from_bytes_little List.length int_to_bytes_little].
  - reflexivity.
  - pose proof (Byte.to_N_bounded b) as Hb.
    f_equal.
    + unfold byte_of_Z.
      rewrite <- (Z.mod_unique _ 256 (int_from_bytes_little bs) (Z.of_N (Byte.to_N b)))
        by lia.
      rewrite N2Z.id, Byte.of_to_N. reflexivity.
    + rewrite <- (Z.div_unique _ 256 (int_from_bytes_little bs) (Z.of_N (Byte.to_N b)))
        by lia.
      exact IH.
Qed.

Lemma int_to_bytes_little_length (n : nat) (z : Z) :
  List.length (int_to_bytes_little n z) = n.
Proof.
  revert z; induction n as [|n IH]; intros z; simpl; [reflexivity|].
  now rewrite IH.
Qed.

Section Results.
Context {host : HostCodecs}.

(** ** The [char] codec *)

(** C10: the char codec decodes a byte to the boolean of its bit 0 and
    encodes true as 1 and false as 0, so decoding and encoding again
    yields the byte AND 1; the byte comes back unchanged exactly when it
    is 0 or 1. *)
Theorem char_codec_keeps_bit_zero (b : byte) (fuel : nat) :
  build_struct_from_schema (schema_node (Some "char")) = Ok (BoolBitAdapter Byte 0)
  /\ parse_stream fuel (BoolBitAdapter Byte 0) [b]
     = Done (VBool (Z.odd (Z.of_N (Byte.to_N b))), [])
  /\ build_bytes (BoolBitAdapter Byte 0) (VBool true) = Ok [x01]
  /\ build_bytes (BoolBitAdapter Byte 0) (VBool false) = Ok [x00]
  /\ build_bytes (BoolBitAdapter Byte 0) (VBool (Z.odd (Z.of_N (Byte.to_N b))))
     = Ok [byte_of_Z (Z.land (Z.of_N (Byte.to_N b)) 1)]
  /\ (byte_of_Z (Z.land (Z.of_N (Byte.to_N b)) 1) = b <-> (Byte.to_N b <= 1)%N).
Proof.
  repeat split; try reflexivity;
    destruct b; try reflexivity;
    try (intros _; vm_compute; discriminate);
    try (vm_compute; intros H; discriminate H);
    try (vm_compute; intros H; exfalso; apply H; reflexivity).
Qed.

(** ** The scale adapter *)

Lemma py_mul_number (x y v : pyvalue) :
  py_mul x y = Ok v -> (exists z, v = VInt z) \/ (exists f, v = VFloat f).
Proof.
  unfold py_mul.
  destruct (as_number x) as [[a|a]|]; destruct (as_number y) as [[b|b]|];
    cbn; intros H; try discriminate;
    repeat match goal with
           | H : context [float_of_Z ?z] |- _ => destruct (float_of_Z z); cbn in H
           end;
    try discriminate; inversion H; eauto.
Qed.

Lemma trunc_float_toward_zero (f : float) (z : Z) :
  trunc_float f = Ok z -> toward_zero f z.
Proof.
  unfold trunc_float, toward_zero.
  destruct (Prim2SF f) as [s| s| |s m e]; intros H; try discriminate.
  - now inversion H.
  - remember (if 0 <=? e then Z.pos m * 2 ^ e else Z.pos m / 2 ^ (- e)) as a eqn:Ha.
    cbv zeta in H. injection H as <-.
    destruct (0 <=? e) eqn:He.
    + apply Z.leb_le in He.
      rewrite Z.max_l by lia. rewrite Z.add_0_r, Z.pow_0_r.
      assert (0 < 2 ^ e) by (apply Z.pow_pos_nonneg; lia).
      assert (0 <= a) by nia.
      destruct s; rewrite ?Z.abs_opp, Z.abs_eq by lia; lia.
    + apply Z.leb_gt in He.
      rewrite Z.max_r by lia.
      replace (e + - e) with 0 by lia. rewrite Z.pow_0_r.
      assert (Hp : 0 < 2 ^ (- e)) by (apply Z.pow_pos_nonneg; lia).
      pose proof (Z.mul_div_le (Z.pos m) _ Hp).
      pose proof (Z.mul_succ_div_gt (Z.pos m) _ Hp).
      assert (0 <= a) by (subst a; apply Z.div_pos; lia).
      rewrite <- Ha in *.
      destruct s; rewrite ?Z.abs_opp, Z.abs_eq by lia; nia.
Qed.

(** C5: a scaled primitive decodes to the raw integer divided by the
    scale and encodes to the product with the scale, its fraction dropped
    (toward zero, not to the nearest integer); with scale 100, raw 250
    decodes to 2.5 and 2.7 encodes to 270. *)
Theorem scale_adapter_divides_and_truncates :
  (forall scale raw,
     ScaleAdapter_decode scale (VInt raw)
     = py_truediv (VInt raw) (value_of_number scale))
  /\ (forall scale obj z,
        ScaleAdapter_encode scale obj = Ok (VInt z) ->
        py_mul obj (value_of_number scale) = Ok (VInt z)
        \/ exists p, py_mul obj (value_of_number scale) = Ok (VFloat p)
                     /\ toward_zero p z)
  /\ build_struct_from_schema (with_scale (NInt 100) (schema_node (Some "uint16")))
     = Ok (ScaleAdapter (FormatField LittleEndian Fmt_H) (NInt 100))
  /\ (forall fuel,
        parse_stream fuel (ScaleAdapter (FormatField LittleEndian Fmt_H) (NInt 100))
          [xfa; x00] = Done (VFloat 2.5, []))
  /\ ScaleAdapter_decode (NInt 100) (VInt 250) = Ok (VFloat 2.5)
  /\ ScaleAdapter_encode (NInt 100) (VFloat 2.7) = Ok (VInt 270)
  /\ build_bytes (ScaleAdapter (FormatField LittleEndian Fmt_H) (NInt 100)) (VFloat 2.7)
     = Ok [x0e; x01]
  /\ ScaleAdapter_encode (NInt 100) (VFloat 2.679) = Ok (VInt 267)
  /\ ScaleAdapter_encode (NInt 100) (VFloat (-2.679)) = Ok (VInt (-267)).
Proof.
  split; [reflexivity|].
  split.
  { intros scale obj z. unfold ScaleAdapter_encode.
    destruct (py_mul obj (value_of_number scale)) as [p|e] eqn:Hm; cbn;
      [|discriminate].
    destruct (py_mul_number _ _ _ Hm) as [[z' ->]|[f ->]]; cbn.
    - intros H; inversion H; subst. now left.
    - destruct (trunc_float f) as [z'|e] eqn:Ht; cbn; [|discriminate].
      intros H; inversion H; subst.
      right. exists f. split; [reflexivity|].
      now apply trunc_float_toward_zero. }
  repeat split; intros; vm_compute; reflexivity.
Qed.

(** ** The bitfield adapter *)

Lemma insert_by_bit_In (f g : bit_flag) (l : list bit_flag) :
  In g (insert_by_bit f l) <-> g = f \/ In g l.
Proof.
  induction l as [|h l IH]; simpl.
  - intuition.
  - destruct (bf_bit f <=? bf_bit h); simpl; rewrite ?IH; intuition.
Qed.

Lemma insert_by_bit_sorted (f : bit_flag) (l : list bit_flag) :
  StronglySorted by_bit l -> StronglySorted by_bit (insert_by_bit f l).
Proof.
  induction 1 as [|h l Hs IH Hall]; simpl.
  - repeat constructor.
  - destruct (bf_bit f <=? bf_bit h) eqn:Hle.
    + apply Z.leb_le in Hle.
      constructor; [constructor; assumption|].
      constructor; [exact Hle|].
      rewrite Forall_forall in *. intros g Hg. specialize (Hall g Hg).
      unfold by_bit in *. lia.
    + apply Z.leb_gt in Hle.
      constructor; [exact IH|].
      rewrite Forall_forall in *. intros g Hg.
      apply insert_by_bit_In in Hg. destruct Hg as [->|Hg].
      * unfold by_bit. lia.
      * now apply Hall.
Qed.

Lemma sorted_by_bit_sorted (l : list bit_flag) :
  StronglySorted by_bit (sorted_by_bit l).
Proof.
  induction l as [|f l IH]; simpl.
  - constructor.
  - now apply insert_by_bit_sorted.
Qed.

Lemma sorted_by_bit_In (g : bit_flag) (l : list bit_flag) :
  In g (sorted_by_bit l) <-> In g l.
Proof.
  induction l as [|f l IH]; simpl; [tauto|].
  rewrite insert_by_bit_In, IH. intuition.
Qed.

Lemma py_lshift_ok (x n r : Z) : py_lshift x n = Ok r -> 0 <= n /\ r = Z.shiftl x n.
Proof.
  unfold py_lshift. destruct (n <? 0) eqn:Hn; intros H; [discriminate|].
  apply Z.ltb_ge in Hn. now inversion H.
Qed.

Lemma py_rshift_ok (x n r : Z) : py_rshift x n = Ok r -> 0 <= n /\ r = Z.shiftr x n.
Proof.
  unfold py_rshift. destruct (n <? 0) eqn:Hn; intros H; [discriminate|].
  apply Z.ltb_ge in Hn. now inversion H.
Qed.

Lemma mask_is_ones (w : Z) : Z.shiftl 1 w - 1 = Z.ones w.
Proof. unfold Z.ones. lia. Qed.

(** A bit of a shifted masked field lies in the field's range *)
Lemma field_bit_in_range (iv w start p : Z) :
  0 <= w -> 0 <= start ->
  Z.testbit (Z.shiftl (Z.land iv (Z.ones w)) start) p = true ->
  start <= p < start + w.
Proof.
  intros Hw Hs Hb.
  destruct (Z.ltb_spec p 0) as [Hneg|Hp]; [now rewrite Z.testbit_neg_r in Hb|].
  rewrite Z.shiftl_spec in Hb by lia.
  destruct (Z.ltb_spec (p - start) 0) as [Hlow|Hlow];
    [now rewrite Z.testbit_neg_r in Hb|].
  rewrite Z.land_spec in Hb. apply andb_true_iff in Hb as [_ Hb].
  destruct (Z.ltb_spec (p - start) w) as [Hin|Hout]; [lia|].
  rewrite Z.ones_spec_high in Hb by lia. discriminate.
Qed.

Lemma one_bit_in_range (start p : Z) :
  0 <= start -> Z.testbit (Z.shiftl 1 start) p = true -> p = start.
Proof.
  intros Hs Hb. rewrite Z.shiftl_1_l in Hb.
  destruct (Z.eq_dec start p) as [|Hne]; [congruence|].
  rewrite Z.pow2_bits_false in Hb by lia. discriminate.
Qed.

(** Every bit of the encoded integer was there before or lies in the range
    of a flag whose name the object has. *)
Lemma encode_flags_bits (size_bits : Z) (obj : pyvalue) :
  forall flags value v p,
    encode_flags size_bits obj flags value = Ok v ->
    Z.testbit v p = true ->
    Z.testbit value p = true
    \/ exists pre f post name,
         flags = (pre ++ f :: post)%list
         /\ bf_name f = Some name
         /\ py_contains obj name = Ok true
         /\ bf_bit f <= p < flag_end size_bits post.
Proof.
  induction flags as [|f rest IH]; intros value v p; cbn [encode_flags].
  - intros H Hb. inversion H; subst. now left.
  - unfold flag_name_of.
    destruct (bf_name f) as [name|] eqn:Hname; cbn [bind]; [|discriminate].
    destruct (py_contains obj name) as [present|e] eqn:Hpres; cbn [bind];
      [|discriminate].
    assert (Hlater : forall value',
               encode_flags size_bits obj rest value' = Ok v ->
               Z.testbit v p = true ->
               Z.testbit value' p = true
               \/ exists pre f0 post name0,
                    (f :: rest) = (pre ++ f0 :: post)%list
                    /\ bf_name f0 = Some name0
                    /\ py_contains obj name0 = Ok true
                    /\ bf_bit f0 <= p < flag_end size_bits post).
    { intros value' H Hb.
      destruct (IH _ _ _ H Hb) as [Hv|(pre & f0 & post & name0 & -> & Hrest)];
        [now left|right].
      exists (f :: pre), f0, post, name0. now split. }
    destruct present; cbn [negb]; [|now apply Hlater].
    assert (Hhere : forall lo hi, bf_bit f <= lo -> hi <= flag_end size_bits rest ->
               lo <= p < hi ->
               exists pre f0 post name0,
                    (f :: rest) = (pre ++ f0 :: post)%list
                    /\ bf_name f0 = Some name0
                    /\ py_contains obj name0 = Ok true
                    /\ bf_bit f0 <= p < flag_end size_bits post).
    { intros lo hi Hlo Hhi Hp.
      exists [], f, rest, name.
      split; [reflexivity|]. split; [exact Hname|]. split; [exact Hpres|]. lia. }
    destruct (flag_end size_bits rest - bf_bit f =? 1) eqn:Hw.
    + apply Z.eqb_eq in Hw.
      destruct (py_getitem obj name) as [x|e]; cbn [bind]; [|discriminate].
      destruct (truthy x); [|now apply Hlater].
      destruct (py_lshift 1 (bf_bit f)) as [bit|e] eqn:Hsh; cbn [bind];
        [|discriminate].
      apply py_lshift_ok in Hsh as [Hs ->].
      intros H Hb. destruct (Hlater _ H Hb) as [Hv|Hex]; [|now right].
      rewrite Z.lor_spec in Hv. apply orb_true_iff in Hv as [Hv|Hv]; [now left|].
      right. apply one_bit_in_range in Hv; [|exact Hs].
      apply (Hhere p (p + 1)); lia.
    + destruct (py_lshift 1 (flag_end size_bits rest - bf_bit f)) as [one|e] eqn:Hone;
        cbn [bind]; [|discriminate].
      apply py_lshift_ok in Hone as [Hwidth ->].
      destruct (py_getitem obj name) as [x|e]; cbn [bind]; [|discriminate].
      destruct (as_int x) as [iv|e]; cbn [bind]; [|discriminate].
      destruct (py_lshift _ (bf_bit f)) as [field|e] eqn:Hsh; cbn [bind];
        [|discriminate].
      apply py_lshift_ok in Hsh as [Hs ->].
      intros H Hb. destruct (Hlater _ H Hb) as [Hv|Hex]; [|now right].
      rewrite Z.lor_spec in Hv. apply orb_true_iff in Hv as [Hv|Hv]; [now left|].
      right. rewrite mask_is_ones in Hv.
      apply field_bit_in_range in Hv; [|lia|lia].
      apply (Hhere (bf_bit f) (flag_end size_bits rest)); lia.
Qed.

Lemma sorted_split (pre post : list bit_flag) (f : bit_flag) :
  StronglySorted by_bit (pre ++ f :: post) ->
  (forall g, In g pre -> bf_bit g <= bf_bit f)
  /\ (forall g, In g post -> bf_bit f <= bf_bit g).
Proof.
  induction pre as [|h pre IH]; cbn [app]; intros Hs.
  - apply StronglySorted_inv in Hs as [_ Hall].
    rewrite Forall_forall in Hall. split; [intros g []|exact Hall].
  - apply StronglySorted_inv in Hs as [Hs Hall].
    destruct (IH Hs) as [Hpre Hpost]. split; [|exact Hpost].
    intros g [->|Hg]; [|now apply Hpre].
    rewrite Forall_forall in Hall. apply Hall, in_or_app. right. now left.
Qed.

Lemma sorted_suffix (pre post : list bit_flag) :
  StronglySorted by_bit (pre ++ post) -> StronglySorted by_bit post.
Proof.
  induction pre as [|h pre IH]; cbn [app]; intros Hs; [exact Hs|].
  apply StronglySorted_inv in Hs as [Hs _]. now apply IH.
Qed.

Lemma flag_end_sorted (size_bits : Z) (mid rest : list bit_flag) (g : bit_flag) :
  StronglySorted by_bit (mid ++ g :: rest) ->
  flag_end size_bits (mid ++ g :: rest) <= bf_bit g.
Proof.
  intros Hs. destruct mid as [|h mid]; cbn [app flag_end]; [lia|].
  apply (sorted_split (h :: mid) rest g Hs). now left.
Qed.

(** The bits of a flag that the object does not name are 0 in the encoded
    integer, whatever else the object holds. *)
Lemma absent_flag_bits_zero (size_bits : Z) (obj : pyvalue)
  (pre post : list bit_flag) (f : bit_flag) (name : string) (v p : Z) :
  StronglySorted by_bit (pre ++ f :: post) ->
  bf_name f = Some name ->
  py_contains obj name = Ok false ->
  encode_flags size_bits obj (pre ++ f :: post) 0 = Ok v ->
  bf_bit f <= p < flag_end size_bits post ->
  Z.testbit v p = false.
Proof.
  intros Hs Hname Habs Henc Hp.
  destruct (Z.testbit v p) eqn:Hb; [exfalso|reflexivity].
  destruct (encode_flags_bits _ _ _ _ _ _ Henc Hb)
    as [H0|(pre' & g & post' & name' & Heq & Hname' & Hpres & Hrange)].
  { now rewrite Z.testbit_0_l in H0. }
  apply app_eq_app in Heq as [l [[Hpre Hpost]|[Hpre Hpost]]].
  - destruct l as [|x l]; cbn [app] in Hpost.
    + inversion Hpost; subst. congruence.
    + inversion Hpost; subst x post'.
      rewrite Hpre, <- app_assoc in Hs. cbn [app] in Hs.
      apply sorted_suffix in Hs. apply StronglySorted_inv in Hs as [Hs _].
      pose proof (flag_end_sorted size_bits _ _ _ Hs). lia.
  - destruct l as [|x l]; cbn [app] in Hpost.
    + inversion Hpost; subst. congruence.
    + inversion Hpost; subst x post.
      apply sorted_suffix in Hs. apply StronglySorted_inv in Hs as [Hs _].
      pose proof (flag_end_sorted size_bits _ _ _ Hs). lia.
Qed.

Lemma dict_mem_get {V : Type} (k : string) (d : list (string * V)) :
  dict_mem k d = true -> exists v, dict_get k d = Some v.
Proof.
  unfold dict_mem. destruct (dict_get k d) as [v|]; [eauto|discriminate].
Qed.

(** On a well-formed layout the encoder succeeds on every mapping whose
    flag values are integers or booleans, with or without all the keys. *)
Lemma encode_flags_succeeds (size_bits : Z) (kv : list (string * pyvalue)) :
  forall flags value,
    StronglySorted by_bit flags ->
    layout_ok size_bits flags ->
    flag_values_int flags kv ->
    exists v, encode_flags size_bits (VDict kv) flags value = Ok v.
Proof.
  induction flags as [|f rest IH]; intros value Hs Hok Hint; cbn [encode_flags].
  - eauto.
  - apply StronglySorted_inv in Hs as [Hs Hall].
    apply Forall_cons_iff in Hok as [[Hn Hb] Hok].
    assert (Hint' : flag_values_int rest kv).
    { intros g n x Hg. apply Hint. now right. }
    assert (Hwidth : 0 <= flag_end size_bits rest - bf_bit f).
    { destruct rest as [|g rest']; cbn [flag_end]; [lia|].
      apply Forall_inv in Hall. unfold by_bit in Hall. lia. }
    unfold flag_name_of.
    destruct (bf_name f) as [name|] eqn:Hname; [|congruence]. cbn [bind py_contains].
    destruct (dict_mem name kv) eqn:Hmem; cbn [negb]; [|now apply IH].
    destruct (dict_mem_get _ _ Hmem) as [x Hx].
    destruct (Hint f name x (or_introl eq_refl) Hname Hx) as [iv Hiv].
    unfold py_getitem, py_lshift. rewrite Hx.
    replace (bf_bit f <? 0) with false by (symmetry; apply Z.ltb_ge; lia).
    replace (flag_end size_bits rest - bf_bit f <? 0) with false
      by (symmetry; apply Z.ltb_ge; lia).
    cbn [bind]. rewrite Hiv. cbn [bind].
    destruct (_ =? 1); [destruct (truthy x)|]; now apply IH.
Qed.

(** C4, as the code has it: a bitfield encodes a mapping that leaves out
    declared subfields; it skips each absent name, and the bits of an
    absent subfield are 0 in the encoded integer. *)
Theorem bitfield_encode_skips_absent_keys
  (size : option Z) (fl : option (list flag)) (kv : list (string * pyvalue)) :
  match build_bitfield_struct size fl with
  | BitFieldAdapter size_bits bit_flags _ =>
      (layout_ok size_bits bit_flags -> flag_values_int bit_flags kv ->
       exists v, BitFieldAdapter_encode size_bits bit_flags (VDict kv) = Ok (VInt v))
      /\ (forall pre f post name v p,
            bit_flags = (pre ++ f :: post)%list ->
            bf_name f = Some name ->
            dict_get name kv = None ->
            BitFieldAdapter_encode size_bits bit_flags (VDict kv) = Ok (VInt v) ->
            bf_bit f <= p < flag_end size_bits post ->
            Z.testbit v p = false)
  | _ => False
  end.
Proof.
  unfold build_bitfield_struct.
  set (size_bits := match size with Some n => n | None => 16 end).
  set (bit_flags := sorted_by_bit _).
  assert (Hs : StronglySorted by_bit bit_flags) by apply sorted_by_bit_sorted.
  unfold BitFieldAdapter_encode. split.
  - intros Hok Hint.
    destruct (encode_flags_succeeds size_bits kv bit_flags 0 Hs Hok Hint) as [v Hv].
    exists v. now rewrite Hv.
  - intros pre f post name v p Heq Hname Habs Henc Hp.
    destruct (encode_flags size_bits (VDict kv) bit_flags 0) as [v'|e] eqn:Hv;
      cbn [bind] in Henc; [|discriminate].
    inversion Henc; subst v'.
    rewrite Heq in Hs, Hv.
    eapply absent_flag_bits_zero; eauto.
    cbn [py_contains]. unfold dict_mem. now rewrite Habs.
Qed.

(** C2, what the code does: a bitfield of [size_bits] bits reads
    [ceil(size_bits/8)] bytes and hands them to the adapter as an unsigned
    integer in big-endian byte order ([BytesInteger] with [swapped=False]);
    the bytes 01 00 of a 16-bit field give 256, not 1. *)
Theorem bitfield_reads_big_endian :
  (forall size_bits fl fuel input ctx data rest,
     0 < size_bits ->
     stream_read ((size_bits + 7) / 8) input = Ok (data, rest) ->
     parse fuel (build_bitfield_struct (Some size_bits) fl) input ctx
     = (ctx,
        match BitFieldAdapter_decode size_bits
                (sorted_by_bit (flags_with_bit
                                  (match fl with Some l => l | None => [] end)))
                (VInt (int_from_bytes_big data)) with
        | Ok v => Done (v, rest)
        | Raise e => Fail e
        end))
  /\ (forall fuel,
        parse_stream fuel (build_bitfield_struct (Some 16) (Some two_byte_flags))
          [x01; x00]
        = Done (VDict [("a", VInt 0); ("b", VInt 1)], []))
  /\ BitFieldAdapter_decode 16 (sorted_by_bit (flags_with_bit two_byte_flags))
       (VInt (int_from_bytes_little [x01; x00]))
     = Ok (VDict [("a", VInt 1); ("b", VInt 0)]).
Proof.
  split; [|split; [intros fuel|]; vm_compute; reflexivity].
  intros size_bits fl fuel input ctx data rest Hpos Hread.
  unfold build_bitfield_struct. cbn [parse adapt of_result].
  replace ((size_bits + 7) / 8 <=? 0) with false.
  - rewrite Hread. cbn [bind of_result adapt BytesInteger_decode].
    destruct (BitFieldAdapter_decode _ _ _); reflexivity.
  - symmetry. apply Z.leb_gt.
    apply Z.div_str_pos. lia.
Qed.

(** C3, as the code has it: with flags [a] at bit 0, [b] at bit 1 and [c]
    at bit 3 in a width of 8, the byte 11 decodes to [a] true, [b] the
    integer 1 (its width is 3 - 1 = 2) and [c] the integer 1. *)
Theorem bitfield_scenario_decodes (fuel : nat) :
  build_struct_from_schema
    (with_size 8 (with_flags scenario_flags (schema_node (Some "bitfield"))))
  = Ok (build_bitfield_struct (Some 8) (Some scenario_flags))
  /\ parse_stream fuel (build_bitfield_struct (Some 8) (Some scenario_flags)) [x0b]
     = Done (VDict [("a", VBool true); ("b", VInt 1); ("c", VInt 1)], []).
Proof. split; vm_compute; reflexivity. Qed.

(** ** The schema compiler *)

(** C7, as the code has it: a [bytes] node without a size, or with a size
    that is not positive, does not compile; a [string] node without a
    length does not compile; a length that is present is taken as it is,
    positive or not, for want of the test that the [bytes] branch has. *)
Theorem bytes_size_and_string_length_checks
  (name : option string) (fields : option (list schema))
  (elements : option schema) (count : option count_attr)
  (until_eof : option bool) (size length : option Z)
  (encoding : option string) (scale : option number)
  (flags : option (list flag)) :
  (match size with Some n => n <= 0 | None => True end ->
   build_struct_from_schema
     (Schema (Some "bytes") name fields elements count until_eof size length
        encoding scale flags)
   = Raise (ValueError "Bytes must have a positive 'size'"))
  /\ (length = None ->
      build_struct_from_schema
        (Schema (Some "string") name fields elements count until_eof size length
           encoding scale flags)
      = Raise (ValueError "String must have 'length'"))
  /\ (forall n u,
        length = Some n ->
        encodingunit (match encoding with Some e => e | None => "ascii" end) = Ok u ->
        build_struct_from_schema
          (Schema (Some "string") name fields elements count until_eof size length
             encoding scale flags)
        = Ok (PaddedString n (match encoding with Some e => e | None => "ascii" end))).
Proof.
  split; [|split].
  - intros Hsize. cbn.
    destruct size as [n|]; [|reflexivity].
    destruct (Z.leb_spec n 0); [reflexivity|lia].
  - intros ->. reflexivity.
  - intros n u -> Hu. cbn. rewrite Hu. reflexivity.
Qed.

Lemma load_each_app (pre post : list schema_file) :
  load_each (pre ++ post)
  = ((fst (load_each pre) ++ fst (load_each post))%list,
     (snd (load_each pre) ++ snd (load_each post))%list).
Proof.
  induction pre as [|f pre IH]; cbn [app load_each].
  - cbn. now destruct (load_each post).
  - rewrite IH. destruct (load_each pre) as [ps ws], (load_each post) as [ps' ws'].
    cbn [fst snd]. destruct (SchemaParser_init f); reflexivity.
Qed.

Lemma load_each_In (files : list schema_file) (g : schema_file) (p : SchemaParser) :
  In g files -> SchemaParser_init g = Ok p -> In p (fst (load_each files)).
Proof.
  induction files as [|f files IH]; cbn [In load_each]; [tauto|].
  intros [->|Hg] Hp; destruct (load_each files) as [ps ws]; cbn [fst] in *.
  - rewrite Hp. now left.
  - destruct (SchemaParser_init f); [right|]; now apply IH.
Qed.

Lemma build_fields_from_schema_raise (build_field : schema -> result Construct)
  (pre post : list schema) (bad : schema) (e : exn) :
  Forall (fun f => s_name_of f <> None /\ exists c, build_field f = Ok c) pre ->
  s_name_of bad <> None ->
  build_field bad = Raise e ->
  forall fields,
    build_fields_from_schema build_field (pre ++ bad :: post) fields = Raise e.
Proof.
  intros Hpre Hname Hbad.
  induction Hpre as [|f pre [Hn [c Hc]] _ IH]; intros fields;
    cbn [app build_fields_from_schema].
  - destruct (s_name_of bad); [|congruence]. now rewrite Hbad.
  - destruct (s_name_of f); [|congruence]. rewrite Hc. cbn [bind]. apply IH.
Qed.

(** An unknown type in a field of a struct stops the compilation of the
    struct with the same error. *)
Lemma unknown_type_in_struct (pre post : list schema) (bad : schema) (e : exn) :
  Forall (fun f => s_name_of f <> None
                   /\ exists c, build_struct_from_schema f = Ok c) pre ->
  s_name_of bad <> None ->
  build_struct_from_schema bad = Raise e ->
  build_struct_from_schema (with_fields (pre ++ bad :: post) (schema_node None))
  = Raise e.
Proof.
  intros Hpre Hname Hbad.
  cbn [with_fields schema_node build_struct_from_schema String.eqb Ascii.eqb
       Bool.eqb].
  now rewrite (build_fields_from_schema_raise _ pre post bad e Hpre Hname Hbad).
Qed.

(** C8: a node whose type string is none of the known ones does not
    compile, and the error carries that string; a struct that has the node
    as a field stops with the same error; in a batch the schema is left
    out with a warning and the other schemas load. *)
Theorem unknown_type_fails_one_schema_only :
  (forall t name fields elements count until_eof size length encoding scale flags,
     known_type t = false ->
     build_struct_from_schema
       (Schema (Some t) name fields elements count until_eof size length
          encoding scale flags)
     = Raise (ValueError ("Unknown type in schema: " ++ t)))
  /\ build_struct_from_schema (schema_node (Some "foo"))
     = Raise (ValueError "Unknown type in schema: foo")
  /\ (forall pre bad post e,
        Forall (fun f => s_name_of f <> None
                         /\ exists c, build_struct_from_schema f = Ok c) pre ->
        s_name_of bad <> None ->
        build_struct_from_schema bad = Raise e ->
        build_struct_from_schema (with_fields (pre ++ bad :: post) (schema_node None))
        = Raise e)
  /\ (forall dir pre bad post e,
        SchemaParser_init bad = Raise e ->
        load_parsers_from_schemas (Directory dir (pre ++ bad :: post))
        = Ok ((fst (load_each pre) ++ fst (load_each post))%list,
              (snd (load_each pre) ++ (file_path bad, e) :: snd (load_each post))%list))
  /\ (forall dir files g p,
        In g files -> SchemaParser_init g = Ok p ->
        exists parsers warnings,
          load_parsers_from_schemas (Directory dir files) = Ok (parsers, warnings)
          /\ In p parsers).
Proof.
  split; [|split; [reflexivity|split; [intros pre bad post e; apply unknown_type_in_struct|split]]].
  - intros t name fields elements count until_eof size length encoding scale flags H.
    unfold known_type, known_types in H. cbn [app map fst TYPE_MAPPING existsb] in H.
    repeat (apply orb_false_iff in H; destruct H as [? H]).
    cbn [build_struct_from_schema dict_get TYPE_MAPPING].
    repeat match goal with
           | E : String.eqb t ?k = false |- _ => rewrite E; clear E
           end.
    reflexivity.
  - intros dir pre bad post e Hbad. cbn [load_parsers_from_schemas].
    rewrite load_each_app. cbn [load_each]. rewrite Hbad.
    destruct (load_each post). reflexivity.
  - intros dir files g p Hg Hp. cbn [load_parsers_from_schemas].
    destruct (load_each files) as [ps ws] eqn:E.
    exists ps, ws. split; [reflexivity|].
    change ps with (fst (ps, ws)). rewrite <- E. now apply load_each_In with g.
Qed.

(** ** The value normalizer *)

Section ValueInduction.
Variable P : pyvalue -> Prop.
Hypothesis HNone : P VNone.
Hypothesis HBool : forall b, P (VBool b).
Hypothesis HInt : forall z, P (VInt z).
Hypothesis HFloat : forall f, P (VFloat f).
Hypothesis HStr : forall s, P (VStr s).
Hypothesis HBytes : forall bs, P (VBytes bs).
Hypothesis HList : forall l, Forall P l -> P (VList l).
Hypothesis HDict : forall kv, Forall (fun p => P (snd p)) kv -> P (VDict kv).
Hypothesis HContainer :
  forall kv, Forall (fun p => P (snd p)) kv -> P (VContainer kv).
Hypothesis HOther : forall r, P (VOther r).

Lemma pyvalue_nested_ind : forall v, P v.
Proof.
  fix IH 1. intros [| b | z | f | s | bs | l | kv | kv | r].
  - exact HNone.
  - apply HBool.
  - apply HInt.
  - apply HFloat.
  - apply HStr.
  - apply HBytes.
  - apply HList. induction l as [|x l IHl]; constructor; [apply IH|exact IHl].
  - apply HDict. induction kv as [|[k x] kv IHkv]; constructor;
      [apply IH|exact IHkv].
  - apply HContainer. induction kv as [|[k x] kv IHkv]; constructor;
      [apply IH|exact IHkv].
  - apply HOther.
Qed.
End ValueInduction.

Lemma container_to_dict_list (l : list pyvalue) :
  container_to_dict (VList l) = VList (map container_to_dict l).
Proof.
  cbn [container_to_dict]. f_equal.
Qed.

Lemma container_to_dict_dict (kv : list (string * pyvalue)) :
  container_to_dict (VDict kv)
  = VDict (map (fun p => (fst p, container_to_dict (snd p))) kv).
Proof.
  cbn [container_to_dict]. f_equal.
  induction kv as [|[k x] kv IH]; cbn [map fst snd]; [reflexivity|now rewrite IH].
Qed.

Lemma container_to_dict_container (kv : list (string * pyvalue)) :
  container_to_dict (VContainer kv)
  = VDict (map (fun p => (fst p, container_to_dict (snd p)))
             (filter (fun p => negb (startswith_underscore (fst p))) kv)).
Proof.
  cbn [container_to_dict]. f_equal.
  induction kv as [|[k x] kv IH]; cbn [map filter fst snd]; [reflexivity|].
  destruct (startswith_underscore k); cbn [negb map fst snd]; now rewrite IH.
Qed.

(** *** The call of the normalizer *)

Lemma list_max_In (x : nat) (l : list nat) : In x l -> (x <= list_max l)%nat.
Proof.
  intros H. pose proof (proj1 (list_max_le l (list_max l)) (Nat.le_refl _)) as Hall.
  rewrite Forall_forall in Hall. now apply Hall.
Qed.

Lemma calls_needed_pos (o : pyobject) : (1 <= calls_needed o)%nat.
Proof. destruct o; cbn [calls_needed]; lia. Qed.

Lemma list_items_ok (call : pyobject -> result pyobject) (l : list pyobject) :
  (exists l', list_items call l = Ok l')
  <-> Forall (fun x => exists r, call x = Ok r) l.
Proof.
  induction l as [|x l IH]; cbn [list_items].
  - split; [constructor|eauto].
  - rewrite Forall_cons_iff, <- IH. split.
    + intros [l' H]. destruct (call x) as [r|]; cbn [bind] in H; [|discriminate].
      destruct (list_items call l) as [rest|]; cbn [bind] in H; [|discriminate].
      eauto.
    + intros [[r ->] [rest ->]]. cbn [bind]. eauto.
Qed.

Lemma dict_items_ok (call : pyobject -> result pyobject)
  (kv : list (pykey * pyobject)) :
  (exists kv', dict_items call kv = Ok kv')
  <-> Forall (fun p => exists r, call (snd p) = Ok r) kv.
Proof.
  induction kv as [|[k x] kv IH]; cbn [dict_items].
  - split; [constructor|eauto].
  - rewrite Forall_cons_iff, <- IH. cbn [snd]. split.
    + intros [kv' H]. destruct (call x) as [r|]; cbn [bind] in H; [|discriminate].
      destruct (dict_items call kv) as [rest|]; cbn [bind] in H; [|discriminate].
      eauto.
    + intros [[r ->] [rest ->]]. cbn [bind]. eauto.
Qed.

Lemma container_items_ok (call : pyobject -> result pyobject)
  (kv : list (pykey * pyobject)) :
  (exists kv', container_items call kv = Ok kv')
  <-> Forall (fun p => exists s, fst p = KStr s
                       /\ (startswith_underscore s = true
                           \/ exists r, call (snd p) = Ok r)) kv.
Proof.
  induction kv as [|[k x] kv IH]; cbn [container_items].
  - split; [constructor|eauto].
  - rewrite Forall_cons_iff, <- IH. cbn [fst snd]. split.
    + intros [kv' H]. destruct k as [s| |]; cbn [key_startswith_underscore bind] in H;
        try discriminate.
      destruct (startswith_underscore s) eqn:Hs.
      * split; [exists s; auto|eauto].
      * destruct (call x) as [r|]; cbn [bind] in H; [|discriminate].
        destruct (container_items call kv) as [rest|]; cbn [bind] in H;
          [|discriminate].
        split; [exists s; eauto|eauto].
    + intros [(s & -> & Hs) [rest Hrest]]. cbn [key_startswith_underscore bind].
      destruct (startswith_underscore s) eqn:Hu; [eauto|].
      destruct Hs as [Hs|[r ->]]; [discriminate|].
      cbn [bind]. rewrite Hrest. cbn [bind]. eauto.
Qed.

Lemma list_items_raise (call : pyobject -> result pyobject) (l : list pyobject)
  (e : exn) :
  list_items call l = Raise e -> exists x, In x l /\ call x = Raise e.
Proof.
  induction l as [|x l IH]; cbn [list_items]; [discriminate|].
  destruct (call x) as [r|e'] eqn:Hx; cbn [bind].
  - destruct (list_items call l) as [rest|e']; cbn [bind]; [discriminate|].
    intros H. inversion H; subst. destruct (IH eq_refl) as (y & Hy & Hc).
    exists y. split; [now right|exact Hc].
  - intros H. inversion H; subst. exists x. split; [now left|exact Hx].
Qed.

Lemma dict_items_raise (call : pyobject -> result pyobject)
  (kv : list (pykey * pyobject)) (e : exn) :
  dict_items call kv = Raise e -> exists p, In p kv /\ call (snd p) = Raise e.
Proof.
  induction kv as [|[k x] kv IH]; cbn [dict_items]; [discriminate|].
  destruct (call x) as [r|e'] eqn:Hx; cbn [bind].
  - destruct (dict_items call kv) as [rest|e']; cbn [bind]; [discriminate|].
    intros H. inversion H; subst. destruct (IH eq_refl) as (y & Hy & Hc).
    exists y. split; [now right|exact Hc].
  - intros H. inversion H; subst. exists (k, x). split; [now left|exact Hx].
Qed.

Lemma container_items_raise (call : pyobject -> result pyobject)
  (kv : list (pykey * pyobject)) (e : exn) :
  container_items call kv = Raise e ->
  exists p, In p kv
    /\ (key_startswith_underscore (fst p) = Raise e
        \/ (skipped_key (fst p) = false /\ call (snd p) = Raise e)).
Proof.
  induction kv as [|[k x] kv IH]; cbn [container_items]; [discriminate|].
  assert (Hrest : container_items call kv = Raise e ->
                  exists p, In p ((k, x) :: kv)
                    /\ (key_startswith_underscore (fst p) = Raise e
                        \/ (skipped_key (fst p) = false /\ call (snd p) = Raise e))).
  { intros H. destruct (IH H) as (p & Hp & Hc). exists p. split; [now right|exact Hc]. }
  destruct k as [s|bs|r]; cbn [key_startswith_underscore bind].
  - destruct (startswith_underscore s) eqn:Hs; [exact Hrest|].
    destruct (call x) as [r|e'] eqn:Hx; cbn [bind].
    + destruct (container_items call kv) as [rest|e']; cbn [bind]; [discriminate|].
      intros H. inversion H; subst. now apply Hrest.
    + intros H. inversion H; subst. exists (KStr s, x).
      split; [now left|]. right. cbn [fst snd skipped_key]. auto.
  - intros H. inversion H; subst. exists (KBytes bs, x). split; [now left|]. now left.
  - intros H. inversion H; subst. exists (KOther r, x). split; [now left|]. now left.
Qed.

Lemma list_items_done (call : pyobject -> result pyobject) :
  forall l l',
    list_items call l = Ok l' ->
    Forall (fun x' => exists x, In x l /\ call x = Ok x') l'.
Proof.
  induction l as [|x l IH]; intros l'; cbn [list_items].
  - intros H. inversion H. constructor.
  - destruct (call x) as [r|] eqn:Hx; cbn [bind]; [|discriminate].
    destruct (list_items call l) as [rest|]; cbn [bind]; [|discriminate].
    intros H. inversion H; subst. constructor.
    + exists x. split; [now left|exact Hx].
    + eapply Forall_impl; [|apply IH; reflexivity].
      intros y (z & Hz & Hc). exists z. split; [now right|exact Hc].
Qed.

Lemma dict_items_done (call : pyobject -> result pyobject) :
  forall kv kv',
    dict_items call kv = Ok kv' ->
    Forall (fun p' => exists x, call x = Ok (snd p')) kv'.
Proof.
  induction kv as [|[k x] kv IH]; intros kv'; cbn [dict_items].
  - intros H. inversion H. constructor.
  - destruct (call x) as [r|] eqn:Hx; cbn [bind]; [|discriminate].
    destruct (dict_items call kv) as [rest|]; cbn [bind]; [|discriminate].
    intros H. inversion H; subst. constructor; [now exists x|now apply IH].
Qed.

Lemma container_items_done (call : pyobject -> result pyobject) :
  forall kv kv',
    container_items call kv = Ok kv' ->
    Forall (fun p' => exists x, call x = Ok (snd p')) kv'.
Proof.
  induction kv as [|[k x] kv IH]; intros kv'; cbn [container_items].
  - intros H. inversion H. constructor.
  - destruct (key_startswith_underscore k) as [[|]|]; cbn [bind];
      [now apply IH| |discriminate].
    destruct (call x) as [r|] eqn:Hx; cbn [bind]; [|discriminate].
    destruct (container_items call kv) as [rest|]; cbn [bind]; [|discriminate].
    intros H. inversion H; subst. constructor; [now exists x|now apply IH].
Qed.

(** The call returns exactly on the objects whose visited keys are text
    and whose nesting the stack admits. *)
Lemma call_returns_iff (limit : nat) :
  forall o,
    (exists r, container_to_dict_call limit o = Ok r)
    <-> (text_keys o = true /\ (calls_needed o <= limit)%nat).
Proof.
  induction limit as [|n IH]; intros o.
  - cbn [container_to_dict_call]. pose proof (calls_needed_pos o) as Hpos. split.
    + intros [r H]. discriminate.
    + intros [_ H]. lia.
  - assert (Hscalar : forall o',
              calls_needed o' = 1%nat -> text_keys o' = true ->
              (exists r, container_to_dict_call (S n) o' = Ok r) ->
              (exists r, container_to_dict_call (S n) o' = Ok r)
              <-> (text_keys o' = true /\ (calls_needed o' <= S n)%nat)).
    { intros o' Ho1 Ho2 Ho3.
      split; [intros _; split; [exact Ho2|lia]|intros _; exact Ho3]. }
    destruct o as [| b | z | f | s | bs | l | kv | kv | r];
      try (apply Hscalar; [reflexivity|reflexivity|eexists; reflexivity]).
    + cbn [container_to_dict_call calls_needed text_keys].
      transitivity (exists l', list_items (container_to_dict_call n) l = Ok l').
      { split; intros [y Hy].
        - destruct (list_items _ l) as [l'|]; [eauto|discriminate].
        - rewrite Hy. cbn [bind]. eauto. }
      rewrite list_items_ok, forallb_forall, Forall_forall.
      rewrite <- Nat.succ_le_mono, list_max_le, Forall_forall. split.
      * intros H. split.
        -- intros x Hx. now apply IH, H.
        -- intros k Hk. apply in_map_iff in Hk as (x & <- & Hx). now apply IH, H.
      * intros [H1 H2] x Hx. apply IH. split; [now apply H1|].
        apply H2, in_map. exact Hx.
    + cbn [container_to_dict_call calls_needed text_keys].
      transitivity (exists kv', dict_items (container_to_dict_call n) kv = Ok kv').
      { split; intros [y Hy].
        - destruct (dict_items _ kv) as [kv'|]; [eauto|discriminate].
        - rewrite Hy. cbn [bind]. eauto. }
      rewrite dict_items_ok, forallb_forall, Forall_forall.
      rewrite <- Nat.succ_le_mono, list_max_le, Forall_forall. split.
      * intros H. split.
        -- intros p Hp. now apply IH, H.
        -- intros k Hk. apply in_map_iff in Hk as (p & <- & Hp). now apply IH, H.
      * intros [H1 H2] p Hp. apply IH. split; [now apply H1|].
        apply H2. apply (in_map (fun p => calls_needed (snd p))). exact Hp.
    + cbn [container_to_dict_call calls_needed text_keys].
      transitivity (exists kv', container_items (container_to_dict_call n) kv = Ok kv').
      { split; intros [y Hy].
        - destruct (container_items _ kv) as [kv'|]; [eauto|discriminate].
        - rewrite Hy. cbn [bind]. eauto. }
      rewrite container_items_ok, forallb_forall, Forall_forall.
      rewrite <- Nat.succ_le_mono, list_max_le, Forall_forall. split.
      * intros H. split.
        -- intros [k x] Hp. destruct (H _ Hp) as (s & Hk & Hs). cbn [fst snd] in *.
           subst k. destruct Hs as [->|Hr]; [reflexivity|].
           apply IH in Hr as [-> _]. apply orb_true_r.
        -- intros k Hk. apply in_map_iff in Hk as ([k' x] & <- & Hp).
           destruct (H _ Hp) as (s & Hk & Hs). cbn [fst snd] in *. subst k'.
           cbn [skipped_key]. destruct (startswith_underscore s); [lia|].
           destruct Hs as [Hs|Hr]; [discriminate|]. now apply IH in Hr.
      * intros [H1 H2] [k x] Hp. cbn [fst snd].
        pose proof (H1 _ Hp) as Hk. cbn [fst snd] in Hk.
        destruct k as [s| |]; try discriminate Hk. exists s. split; [reflexivity|].
        destruct (startswith_underscore s) eqn:Hs; [now left|]. right.
        apply IH. split; [exact Hk|].
        apply H2.
        apply (in_map (fun p => if skipped_key (fst p) then O
                                else calls_needed (snd p))) in Hp.
        cbn [fst snd skipped_key] in Hp. now rewrite Hs in Hp.
Qed.

(** What the call raises: [RecursionError] on an object nested deeper
    than the stack admits, and the key's error on an object with a
    [Container] key that is not text. *)
Lemma call_raises (limit : nat) :
  forall o e,
    container_to_dict_call limit o = Raise e ->
    (e = RecursionError /\ (limit < calls_needed o)%nat)
    \/ ((e = AttributeError \/ e = TypeError) /\ text_keys o = false).
Proof.
  induction limit as [|n IH]; intros o e.
  - cbn [container_to_dict_call]. intros H. inversion H. left.
    split; [reflexivity|apply calls_needed_pos].
  - destruct o as [| b | z | f | s | bs | l | kv | kv | r];
      cbn [container_to_dict_call]; try discriminate.
    + destruct (list_items _ l) as [l'|e'] eqn:Hl; cbn [bind]; [discriminate|].
      intros H. inversion H; subst e'.
      apply list_items_raise in Hl as (x & Hx & Hc).
      destruct (IH _ _ Hc) as [[-> Hd]|[He Hk]]; [left|right].
      * split; [reflexivity|]. cbn [calls_needed].
        pose proof (list_max_In _ _ (in_map calls_needed _ _ Hx)). lia.
      * split; [exact He|]. cbn [text_keys].
        apply not_true_is_false. intros Hall. rewrite forallb_forall in Hall.
        rewrite (Hall _ Hx) in Hk. discriminate.
    + destruct (dict_items _ kv) as [kv'|e'] eqn:Hl; cbn [bind]; [discriminate|].
      intros H. inversion H; subst e'.
      apply dict_items_raise in Hl as (p & Hp & Hc).
      destruct (IH _ _ Hc) as [[-> Hd]|[He Hk]]; [left|right].
      * split; [reflexivity|]. cbn [calls_needed].
        pose proof (list_max_In _ _
                      (in_map (fun p => calls_needed (snd p)) _ _ Hp)). lia.
      * split; [exact He|]. cbn [text_keys].
        apply not_true_is_false. intros Hall. rewrite forallb_forall in Hall.
        rewrite (Hall _ Hp) in Hk. discriminate.
    + destruct (container_items _ kv) as [kv'|e'] eqn:Hl; cbn [bind]; [discriminate|].
      intros H. inversion H; subst e'.
      apply container_items_raise in Hl as ([k x] & Hp & Hc). cbn [fst snd] in Hc.
      assert (Hbad : (match k with
                      | KStr s => startswith_underscore s || text_keys x
                      | _ => false
                      end) = false -> text_keys (OContainer kv) = false).
      { intros Hb. cbn [text_keys]. apply not_true_is_false. intros Hall.
        rewrite forallb_forall in Hall. specialize (Hall _ Hp).
        cbn [fst snd] in Hall. congruence. }
      destruct Hc as [Hkey|[Hskip Hc]].
      * right. destruct k as [s| |]; cbn [key_startswith_underscore] in Hkey;
          inversion Hkey; subst; (split; [auto|now apply Hbad]).
      * destruct (IH _ _ Hc) as [[-> Hd]|[He Hk]]; [left|right].
        -- split; [reflexivity|]. cbn [calls_needed].
           pose proof (list_max_In _ _
                         (in_map (fun p => if skipped_key (fst p) then O
                                           else calls_needed (snd p)) _ _ Hp)) as Hm.
           cbn [fst snd] in Hm. rewrite Hskip in Hm. lia.
        -- split; [exact He|]. apply Hbad.
           destruct k as [s| |]; try reflexivity.
           cbn [skipped_key] in Hskip. now rewrite Hskip, Hk.
Qed.

Lemma call_result_converted (limit : nat) :
  forall o r, container_to_dict_call limit o = Ok r -> converted r = true.
Proof.
  induction limit as [|n IH]; intros o r; cbn [container_to_dict_call];
    [discriminate|].
  destruct o as [| b | z | f | s | bs | l | kv | kv | t];
    try (intros H; inversion H; reflexivity).
  - destruct (list_items _ l) as [l'|] eqn:Hl; cbn [bind]; [|discriminate].
    intros H. inversion H; subst. cbn [converted]. apply forallb_forall.
    apply list_items_done in Hl. rewrite Forall_forall in Hl.
    intros y Hy. destruct (Hl _ Hy) as (x & _ & Hc). now apply IH in Hc.
  - destruct (dict_items _ kv) as [kv'|] eqn:Hl; cbn [bind]; [|discriminate].
    intros H. inversion H; subst. cbn [converted]. apply forallb_forall.
    apply dict_items_done in Hl. rewrite Forall_forall in Hl.
    intros y Hy. destruct (Hl _ Hy) as (x & Hc). now apply IH in Hc.
  - destruct (container_items _ kv) as [kv'|] eqn:Hl; cbn [bind]; [|discriminate].
    intros H. inversion H; subst. cbn [converted]. apply forallb_forall.
    apply container_items_done in Hl. rewrite Forall_forall in Hl.
    intros y Hy. destruct (Hl _ Hy) as (x & Hc). now apply IH in Hc.
Qed.

(** On a decoded value that the stack admits, the call returns the value
    of [container_to_dict]. *)
Lemma call_returns_the_value (limit : nat) :
  forall v,
    (calls_needed (object_of v) <= limit)%nat ->
    container_to_dict_call limit (object_of v) = Ok (object_of (container_to_dict v)).
Proof.
  induction limit as [|n IH]; intros v Hd.
  - pose proof (calls_needed_pos (object_of v)). lia.
  - destruct v as [| b | z | f | s | bs | l | kv | kv | r]; try reflexivity.
    + rewrite container_to_dict_list. cbn [object_of container_to_dict_call].
      cbn [object_of calls_needed] in Hd.
      apply Nat.succ_le_mono in Hd. rewrite list_max_le, Forall_forall in Hd.
      assert (Hl : list_items (container_to_dict_call n) (map object_of l)
                   = Ok (map object_of (map container_to_dict l))).
      { induction l as [|x l IHl]; [reflexivity|]. cbn [map list_items].
        rewrite IH by (apply Hd; cbn [map]; now left).
        cbn [bind]. rewrite IHl; [reflexivity|].
        intros k Hk. apply Hd. cbn [map]. now right. }
      now rewrite Hl.
    + rewrite container_to_dict_dict. cbn [object_of container_to_dict_call].
      cbn [object_of calls_needed] in Hd.
      apply Nat.succ_le_mono in Hd. rewrite list_max_le, Forall_forall in Hd.
      assert (Hl : dict_items (container_to_dict_call n)
                     (map (fun p => (KStr (fst p), object_of (snd p))) kv)
                   = Ok (map (fun p => (KStr (fst p), object_of (snd p)))
                           (map (fun p => (fst p, container_to_dict (snd p))) kv))).
      { induction kv as [|[k x] kv IHl]; [reflexivity|].
        cbn [map dict_items fst snd].
        rewrite IH by (apply Hd; cbn [map fst snd]; now left).
        cbn [bind]. rewrite IHl; [reflexivity|].
        intros m Hm. apply Hd. cbn [map]. now right. }
      now rewrite Hl.
    + rewrite container_to_dict_container. cbn [object_of container_to_dict_call].
      cbn [object_of calls_needed] in Hd.
      apply Nat.succ_le_mono in Hd. rewrite list_max_le, Forall_forall in Hd.
      assert (Hl : container_items (container_to_dict_call n)
                     (map (fun p => (KStr (fst p), object_of (snd p))) kv)
                   = Ok (map (fun p => (KStr (fst p), object_of (snd p)))
                           (map (fun p => (fst p, container_to_dict (snd p)))
                              (filter (fun p => negb (startswith_underscore (fst p)))
                                 kv)))).
      { induction kv as [|[k x] kv IHl]; [reflexivity|].
        cbn [map container_items filter fst snd key_startswith_underscore bind].
        assert (Hrest : forall m,
                  In m (map (fun p => if skipped_key (fst p) then O
                                      else calls_needed (snd p))
                          (map (fun p => (KStr (fst p), object_of (snd p))) kv)) ->
                  (m <= n)%nat).
        { intros m Hm. apply Hd. cbn [map]. now right. }
        destruct (startswith_underscore k) eqn:Hk; cbn [negb].
        - now apply IHl.
        - rewrite IH.
          + cbn [bind]. rewrite (IHl Hrest). reflexivity.
          + specialize (Hd (calls_needed (object_of x))). apply Hd.
            cbn [map fst snd skipped_key]. rewrite Hk. now left. }
      now rewrite Hl.
Qed.

Lemma nested_lists_raise (limit : nat) :
  container_to_dict_call limit (nested_lists limit) = Raise RecursionError.
Proof.
  induction limit as [|n IH]; [reflexivity|].
  change (nested_lists (S n)) with (OList [nested_lists n]).
  cbn [container_to_dict_call list_items]. now rewrite IH.
Qed.


(** ** Dictionaries *)

Lemma dict_get_None_iff {V : Type} (k : string) (d : list (string * V)) :
  dict_get k d = None <-> ~ In k (map fst d).
Proof.
  induction d as [|[k' v] d IH]; cbn [dict_get map fst In]; [tauto|].
  destruct (String.eqb_spec k k') as [->|Hne].
  - split; [discriminate|intros H; exfalso; apply H; now left].
  - rewrite IH. split; [intros H [He|Hin]; [congruence|tauto]|tauto].
Qed.

Lemma dict_set_keys {V : Type} (k : string) (v : V) (d : list (string * V)) (k' : string) :
  In k' (map fst (dict_set k v d)) <-> k' = k \/ In k' (map fst d).
Proof.
  induction d as [|[k0 v0] d IH]; cbn [dict_set map fst In].
  - intuition.
  - destruct (String.eqb_spec k k0) as [->|Hne]; cbn [map fst In].
    + intuition.
    + rewrite IH. intuition.
Qed.

Lemma dict_get_set_same {V : Type} (k : string) (v : V) (d : list (string * V)) :
  dict_get k (dict_set k v d) = Some v.
Proof.
  induction d as [|[k0 v0] d IH]; cbn [dict_set dict_get].
  - now rewrite String.eqb_refl.
  - destruct (String.eqb_spec k k0) as [->|Hne]; cbn [dict_get].
    + now rewrite String.eqb_refl.
    + destruct (String.eqb_spec k k0); [congruence|exact IH].
Qed.

Lemma dict_get_set_other {V : Type} (k k' : string) (v : V) (d : list (string * V)) :
  k' <> k -> dict_get k' (dict_set k v d) = dict_get k' d.
Proof.
  intros Hne.
  induction d as [|[k0 v0] d IH]; cbn [dict_set dict_get].
  - destruct (String.eqb_spec k' k); [congruence|reflexivity].
  - destruct (String.eqb_spec k k0) as [->|Hne0]; cbn [dict_get].
    + destruct (String.eqb_spec k' k0); [congruence|reflexivity].
    + destruct (String.eqb_spec k' k0); [reflexivity|exact IH].
Qed.

(** ** The count of an array *)

Lemma count_of_node_ok (n : node) (z : Z) :
  count_of_node n = Ok z ->
  (n = NVal (VInt z) /\ 0 <= z) \/ (exists b, n = NVal (VBool b) /\ z = Z.b2z b).
Proof.
  destruct n as [c|[ | b | z0 | f | | | | | | ]]; cbn; try discriminate.
  - intros Heq. inversion Heq. right. eauto.
  - destruct (Z.ltb_spec z0 0) as [Hlt|Hge]; intros Heq; inversion Heq; subst.
    left. split; [reflexivity|lia].
  - destruct (PrimFloat.leb 0 f); discriminate.
Qed.

Lemma parse_array_done (p : list byte -> context -> parsed) :
  forall n i acc input ctx ctx' v rest,
    parse_array p n i acc input ctx = (ctx', Done (v, rest)) ->
    exists items, v = VList (rev acc ++ items) /\ List.length items = n.
Proof.
  induction n as [|n IH]; intros i acc input ctx ctx' v rest; cbn [parse_array].
  - intros H. inversion H; subst. exists []. now rewrite app_nil_r.
  - destruct (p input _) as [ctx1 [[e input']| |]]; try discriminate.
    intros H. apply IH in H as (items & -> & Hlen).
    exists (e :: items). cbn [rev List.length]. rewrite <- app_assoc. cbn [app].
    split; [reflexivity|now rewrite Hlen].
Qed.

(** Parsing writes to the innermost frame at ["_index"] only; a struct
    leaves the context as it found it. *)
Lemma parse_head_keys (keys : list string) :
  In "_index" keys ->
  forall con fuel input ctx,
    head_keys_in keys ctx -> head_keys_in keys (fst (parse fuel con input ctx)).
Proof.
  intros Hidx.
  assert (Hset : forall i ctx, head_keys_in keys ctx ->
                   head_keys_in keys (ctx_set "_index" (CVal (VInt i)) ctx)).
  { intros i [|fr ctx]; cbn; [trivial|]. intros H k Hk.
    apply dict_set_keys in Hk as [->|Hk]; auto. }
  induction con; intros fuel input ctx Hk; cbn [parse].
  - destruct (new_frame subcons ctx); exact Hk.
  - destruct (parse_count count ctx); [|exact Hk].
    generalize 0 at 1. generalize (@nil pyvalue). revert input ctx Hk.
    induction (Z.to_nat a) as [|n IHn]; intros input ctx Hk acc i; cbn [parse_array].
    + exact Hk.
    + specialize (IHcon fuel input _ (Hset i ctx Hk)).
      destruct (parse fuel con input _) as [ctx1 [[e input']| |]]; cbn [fst] in *;
        auto.
  - generalize 0 at 1. generalize (@nil pyvalue). revert input ctx Hk.
    generalize fuel at 2.
    induction fuel0 as [|n IHn]; intros input ctx Hk acc i; cbn [parse_greedy].
    + exact Hk.
    + specialize (IHcon fuel input _ (Hset i ctx Hk)).
      destruct (parse fuel con input _) as [ctx1 [[e input']| |]]; cbn [fst] in *;
        auto.
  - destruct (stream_read _ input) as [[d r]|]; exact Hk.
  - destruct (stream_read _ input) as [[d r]|]; exact Hk.
  - destruct (length <? 0); [exact Hk|].
    destruct (stream_read _ input) as [[d r]|]; cbn [bind]; [|exact Hk].
    destruct (encodingunit encoding); cbn [bind]; [|exact Hk].
    destruct (null_strip _ d); cbn [bind]; [|exact Hk].
    destruct (StringEncoded_decode encoding _); exact Hk.
  - destruct (length <=? 0); [exact Hk|].
    destruct (stream_read _ input) as [[d r]|]; exact Hk.
  - specialize (IHcon fuel input ctx Hk).
    destruct (parse fuel con input ctx) as [ctx1 [[e input']| |]]; cbn [fst adapt] in *;
      auto.
    destruct (BitFieldAdapter_decode _ _ e); exact IHcon.
  - specialize (IHcon fuel input ctx Hk).
    destruct (parse fuel con input ctx) as [ctx1 [[e input']| |]]; cbn [fst adapt] in *;
      auto.
    destruct (ScaleAdapter_decode _ e); exact IHcon.
  - specialize (IHcon fuel input ctx Hk).
    destruct (parse fuel con input ctx) as [ctx1 [[e input']| |]]; cbn [fst adapt] in *;
      auto.
    destruct (BoolBitAdapter_decode _ e); exact IHcon.
Qed.

Lemma new_frame_keys (subcons : list (string * Construct)) (ctx : context) (fr : frame) :
  new_frame subcons ctx = Ok fr -> map fst fr = reserved_keys.
Proof.
  unfold new_frame.
  destruct (ctx_attr "_params" ctx); cbn [bind]; [|discriminate].
  destruct (ctx_attr "_parsing" ctx); cbn [bind]; [|discriminate].
  destruct (ctx_attr "_building" ctx); cbn [bind]; [|discriminate].
  destruct (ctx_attr "_sizing" ctx); cbn [bind]; [|discriminate].
  intros H. inversion H. reflexivity.
Qed.

Lemma resolver_missing_key (key : string) (parts : list string) (ctx : context)
  (keys : list string) :
  head_keys_in keys ctx -> ~ In key keys ->
  resolver (key :: parts) (NCtx ctx) = Raise (KeyError key).
Proof.
  intros Hk Hnot.
  destruct ctx as [|fr parents]; cbn [resolver node_getitem ctx_getitem bind];
    [reflexivity|].
  assert (Hnone : dict_get key fr = None).
  { apply dict_get_None_iff. intros Hin. apply Hnot, Hk, Hin. }
  now rewrite Hnone.
Qed.

Lemma parse_fields_app (p : Construct -> list byte -> context -> parsed) :
  forall pre rest obj input ctx,
    parse_fields p (pre ++ rest) obj input ctx
    = match parse_fields p pre obj input ctx with
      | (ctx1, Done (VContainer obj1, input1)) => parse_fields p rest obj1 input1 ctx1
      | other => other
      end.
Proof.
  induction pre as [|[n sc] pre IH]; intros rest obj input ctx;
    cbn [app parse_fields].
  - reflexivity.
  - destruct (p sc input ctx) as [ctx1 [[subobj input']| |]]; try reflexivity.
    destruct (String.eqb n ""); apply IH.
Qed.

Lemma head_keys_in_weaken (keys keys' : list string) (ctx : context) :
  (forall k, In k keys -> In k keys') ->
  head_keys_in keys ctx -> head_keys_in keys' ctx.
Proof.
  intros Hsub. destruct ctx as [|fr c]; cbn; [trivial|].
  intros H k Hin. apply Hsub, H, Hin.
Qed.

Lemma parse_fields_head_keys (fuel : nat) :
  forall scs keys obj input ctx,
    In "_index" keys ->
    head_keys_in keys ctx ->
    head_keys_in (map fst scs ++ keys)
      (fst (parse_fields (parse fuel) scs obj input ctx)).
Proof.
  induction scs as [|[n sc] scs IH]; intros keys obj input ctx Hidx Hk;
    cbn [parse_fields map fst app].
  - exact Hk.
  - pose proof (parse_head_keys keys Hidx sc fuel input ctx Hk) as Hk1.
    destruct (parse fuel sc input ctx) as [ctx1 [[subobj input']| |]];
      cbn [fst] in *;
      try (apply (head_keys_in_weaken keys); [|exact Hk1];
           intros k Hin; right; apply in_or_app; now right).
    destruct (String.eqb n "").
    + apply (head_keys_in_weaken (map fst scs ++ keys));
        [intros k Hin; now right|].
      now apply IH.
    + apply (head_keys_in_weaken (map fst scs ++ n :: keys)).
      { intros k Hin. apply in_app_or in Hin as [Hin|[Hin|Hin]].
        - right. apply in_or_app. now left.
        - now left.
        - right. apply in_or_app. now right. }
      apply IH; [now right|].
      destruct ctx1 as [|fr c]; cbn in *; [trivial|].
      intros k Hin. apply dict_set_keys in Hin as [->|Hin]; [now left|].
      right. now apply Hk1.
Qed.

Lemma parse_fields_done (p : Construct -> list byte -> context -> parsed) :
  forall scs obj input ctx ctx' v rest,
    parse_fields p scs obj input ctx = (ctx', Done (v, rest)) ->
    exists obj', v = VContainer obj'.
Proof.
  induction scs as [|[n sc] scs IH]; intros obj input ctx ctx' v rest;
    cbn [parse_fields].
  - intros H. inversion H. eauto.
  - destruct (p sc input ctx) as [ctx1 [[subobj input']| |]]; try discriminate.
    destruct (String.eqb n ""); apply IH.
Qed.

(** In a struct, an array whose count names a key that is neither one of
    construct's own nor the name of an earlier field: the struct's fields
    up to the array parse, and the array raises [KeyError]; in no case is
    there a value. *)
Lemma forward_reference_fails (fuel : nat)
  (pre post : list (string * Construct)) (name key : string)
  (parts : list string) (elem : Construct) :
  ~ In key reserved_keys -> ~ In key (map fst pre) ->
  forall obj input fr ctx,
    map fst fr = reserved_keys ->
    match parse_fields (parse fuel) pre obj input (fr :: ctx) with
    | (_, Done _) =>
        snd (parse_fields (parse fuel)
               (pre ++ (name, Array (CountPath (key :: parts)) elem) :: post)
               obj input (fr :: ctx))
        = Fail (KeyError key)
    | (_, other) =>
        snd (parse_fields (parse fuel)
               (pre ++ (name, Array (CountPath (key :: parts)) elem) :: post)
               obj input (fr :: ctx))
        = other
    end.
Proof.
  intros Hres Hpre obj input fr ctx Hfr.
  rewrite parse_fields_app.
  assert (Hkeys : head_keys_in reserved_keys (fr :: ctx)).
  { unfold head_keys_in. intros k Hk. rewrite <- Hfr. exact Hk. }
  pose proof (parse_fields_head_keys fuel pre reserved_keys obj input (fr :: ctx)
                ltac:(cbn; tauto) Hkeys) as Hk1.
  destruct (parse_fields (parse fuel) pre obj input (fr :: ctx))
    as [ctx1 [[v input1]| |]] eqn:Hp; try reflexivity.
  destruct (parse_fields_done _ _ _ _ _ _ _ _ Hp) as [obj1 ->].
  cbn [fst] in Hk1. cbn [parse_fields parse].
  unfold parse_count, evaluate.
  rewrite (resolver_missing_key key parts ctx1 _ Hk1).
  - reflexivity.
  - intros Hin. apply in_app_or in Hin as [Hin|Hin]; tauto.
Qed.

(** C6, as the code has it: an array counted by a path fails when the
    path does not resolve in the context (a missing key, an index into
    something that is not a mapping, a field that is not decoded yet) or
    resolves to anything but a non-negative integer or a boolean; a
    boolean counts as 1 or 0; when the array decodes, the number of its
    elements is the resolved value. *)
Theorem array_count_is_resolved_or_fails :
  (forall parts elem fuel input ctx e,
     resolver parts (NCtx ctx) = Raise e ->
     parse fuel (Array (CountPath parts) elem) input ctx = (ctx, Fail e))
  /\ (forall parts elem fuel input ctx n,
        resolver parts (NCtx ctx) = Ok n ->
        (forall z, n = NVal (VInt z) -> z < 0) ->
        (forall b, n <> NVal (VBool b)) ->
        exists e, parse fuel (Array (CountPath parts) elem) input ctx = (ctx, Fail e))
  /\ (forall parts elem fuel input ctx ctx' v rest,
        parse fuel (Array (CountPath parts) elem) input ctx = (ctx', Done (v, rest)) ->
        exists count items,
          v = VList items
          /\ Z.of_nat (List.length items) = count
          /\ (resolver parts (NCtx ctx) = Ok (NVal (VInt count))
              \/ exists b, resolver parts (NCtx ctx) = Ok (NVal (VBool b))
                           /\ count = Z.b2z b))
  /\ (forall pre name key parts elem post fuel input ctx,
        ~ In key reserved_keys -> ~ In key (map fst pre) ->
        let con := Struct (pre ++ (name, Array (CountPath (key :: parts)) elem) :: post) in
        (forall v rest, snd (parse fuel con input ctx) <> Done (v, rest))
        /\ (forall fr ctx1 o input1,
              new_frame (pre ++ (name, Array (CountPath (key :: parts)) elem) :: post) ctx
              = Ok fr ->
              parse_fields (parse fuel) pre [("_io", stream_object)] input (fr :: ctx)
              = (ctx1, Done (o, input1)) ->
              snd (parse fuel con input ctx) = Fail (KeyError key))).
Proof.
  split; [|split; [|split]].
  - intros parts elem fuel input ctx e He.
    cbn [parse]. unfold parse_count, evaluate. now rewrite He.
  - intros parts elem fuel input ctx n Hn Hneg Hbool.
    cbn [parse]. unfold parse_count, evaluate. rewrite Hn. cbn [bind].
    destruct (count_of_node n) as [z|e] eqn:Hc; [|eauto].
    apply count_of_node_ok in Hc as [[-> Hz]|[b [-> _]]].
    + specialize (Hneg z eq_refl). lia.
    + now destruct (Hbool b).
  - intros parts elem fuel input ctx ctx' v rest.
    cbn [parse]. unfold parse_count, evaluate.
    destruct (resolver parts (NCtx ctx)) as [n|e]; cbn [bind]; [|discriminate].
    destruct (count_of_node n) as [z|e] eqn:Hc; [|discriminate].
    intros H. apply parse_array_done in H as (items & -> & Hlen).
    exists z, items. split; [reflexivity|].
    apply count_of_node_ok in Hc as [[-> Hz]|[b [-> ->]]].
    + split; [lia|now left].
    + split; [rewrite Hlen; destruct b; reflexivity|].
      right. eauto.
  - intros pre name key parts elem post fuel input ctx Hres Hpre con.
    subst con. cbn [parse].
    destruct (new_frame _ ctx) as [fr|e] eqn:Hfr.
    2:{ split; [intros v rest; cbn; discriminate|]. intros fr ? ? ? Heq. discriminate Heq. }
    pose proof (forward_reference_fails fuel pre post name key parts elem Hres Hpre
                  [("_io", stream_object)] input fr ctx (new_frame_keys _ _ _ Hfr)) as H.
    cbn [snd]. split.
    + intros v rest.
      lazymatch type of H with
      | (let (_, _) := ?X in _) => destruct X as [c1 [[o i1]| |]]
      end; rewrite H; discriminate.
    + intros fr' ctx1 o input1 Heq Hp. inversion Heq; subst fr'.
      rewrite Hp in H. exact H.
Qed.

(** ** Round trip: contexts *)

Section ConstructInduction.
Variable P : Construct -> Prop.
Hypothesis HStruct :
  forall subcons, Forall (fun sc => P (snd sc)) subcons -> P (Struct subcons).
Hypothesis HArray : forall count subcon, P subcon -> P (Array count subcon).
Hypothesis HGreedy : forall subcon, P subcon -> P (GreedyRange subcon).
Hypothesis HFormat : forall e c, P (FormatField e c).
Hypothesis HBytes : forall length, P (Bytes length).
Hypothesis HString : forall length encoding, P (PaddedString length encoding).
Hypothesis HInteger :
  forall length signed swapped, P (BytesInteger length signed swapped).
Hypothesis HBitField :
  forall size_bits bit_flags subcon,
    P subcon -> P (BitFieldAdapter size_bits bit_flags subcon).
Hypothesis HScale : forall subcon scale, P subcon -> P (ScaleAdapter subcon scale).
Hypothesis HBool :
  forall subcon bit_position, P subcon -> P (BoolBitAdapter subcon bit_position).

Lemma Construct_nested_ind : forall con, P con.
Proof.
  fix IH 1. intros [subcons| | | | | | | | | ].
  - apply HStruct. induction subcons as [|[n sc] scs IHscs]; constructor;
      [apply IH|exact IHscs].
  - apply HArray, IH.
  - apply HGreedy, IH.
  - apply HFormat.
  - apply HBytes.
  - apply HString.
  - apply HInteger.
  - apply HBitField, IH.
  - apply HScale, IH.
  - apply HBool, IH.
Qed.
End ConstructInduction.

Lemma index_only_refl (c : context) : index_only c c.
Proof. destruct c; cbn; auto. Qed.

Lemma index_only_sym (c c' : context) : index_only c c' -> index_only c' c.
Proof.
  destruct c, c'; cbn; auto. intros [-> H]. split; [reflexivity|].
  intros k Hk. symmetry. now apply H.
Qed.

Lemma index_only_trans (c1 c2 c3 : context) :
  index_only c1 c2 -> index_only c2 c3 -> index_only c1 c3.
Proof.
  destruct c1, c2, c3; cbn; try tauto.
  intros [-> H1] [-> H2]. split; [reflexivity|].
  intros k Hk. rewrite H1, H2 by exact Hk. reflexivity.
Qed.

Lemma index_only_set (i : cell) (c : context) :
  index_only c (ctx_set "_index" i c).
Proof.
  destruct c as [|fr parents]; cbn; [trivial|]. split; [reflexivity|].
  intros k Hk. now rewrite dict_get_set_other.
Qed.

Lemma stable_not_index (k : string) : is_stable k = true -> k <> "_index".
Proof. intros H ->. discriminate H. Qed.

Lemma ctx_at_cons_below (d : nat) (fr : frame) (parents : context) :
  (d <= List.length parents)%nat ->
  ctx_at d (fr :: parents) = ctx_at d parents.
Proof.
  intros Hd. unfold ctx_at. cbn [List.length].
  replace (S (List.length parents) - d)%nat
    with (S (List.length parents - d)) by lia.
  reflexivity.
Qed.

Lemma ctx_at_cons_whole (d : nat) (fr : frame) (parents : context) :
  (List.length parents < d)%nat ->
  ctx_at d (fr :: parents) = fr :: parents.
Proof.
  intros Hd. unfold ctx_at. cbn [List.length].
  replace (S (List.length parents) - d)%nat with 0%nat by lia.
  reflexivity.
Qed.

(** Contexts that differ in ["_index"] only resolve stable paths alike. *)
Lemma index_only_resolver (c c' : context) :
  index_only c c' ->
  forall parts v,
    forallb is_stable parts = true ->
    resolver parts (NCtx c) = Ok (NVal v) ->
    resolver parts (NCtx c') = Ok (NVal v).
Proof.
  intros Hio parts. induction parts as [|k ps IH]; intros v Hst; cbn [resolver].
  - discriminate.
  - cbn [forallb] in Hst. apply andb_true_iff in Hst as [Hk Hps].
    destruct c as [|fr parents], c' as [|fr' parents']; cbn in Hio; try tauto;
      cbn [node_getitem ctx_getitem].
    destruct Hio as [<- Hsame].
    rewrite <- (Hsame k (stable_not_index k Hk)).
    destruct (dict_get k fr) as [[w|d]|]; cbn [bind]; try (intros H; exact H).
    destruct (Nat.le_gt_cases d (List.length parents)) as [Hle|Hgt].
    + rewrite !ctx_at_cons_below by exact Hle. intros H; exact H.
    + rewrite !ctx_at_cons_whole by exact Hgt. now apply IH.
Qed.

Lemma node_sim_refl (n : node) : node_sim n n.
Proof. intros parts s _ _ H. exact H. Qed.

Lemma node_sim_trans (n1 n2 n3 : node) :
  node_sim n1 n2 -> node_sim n2 n3 -> node_sim n1 n3.
Proof. intros H12 H23 parts s Hp Hs H. apply H23, H12; assumption. Qed.

Lemma index_only_sim (c c' : context) :
  index_only c c' -> node_sim (NCtx c) (NCtx c').
Proof. intros Hio parts s Hp _. now apply index_only_resolver. Qed.

Lemma index_only_links (c c' : context) :
  index_only c c' -> links_ok c -> links_ok c'.
Proof.
  destruct c as [|fr parents], c' as [|fr' parents']; cbn; try tauto.
  intros [<- Hsame] Hl k d Hk Hget.
  apply (Hl k d Hk). now rewrite (Hsame k (stable_not_index k Hk)).
Qed.

Lemma index_only_attrs (c c' : context) :
  index_only c c' -> attrs_ok c -> attrs_ok c'.
Proof.
  destruct c as [|fr parents], c' as [|fr' parents']; cbn; try tauto.
  intros [<- Hsame] [g Hg]. unfold attrs_ok, new_frame, ctx_attr in *.
  rewrite <- !Hsame by discriminate.
  destruct (dict_get "_params" fr); cbn [bind] in *; [|discriminate].
  destruct (dict_get "_parsing" fr); cbn [bind] in *; [|discriminate].
  destruct (dict_get "_building" fr); cbn [bind] in *; [|discriminate].
  destruct (dict_get "_sizing" fr); cbn [bind] in *; [|discriminate].
  eauto.
Qed.

Lemma ctx_rel_index_only (p p' b b' : context) :
  ctx_rel p b -> index_only p p' -> index_only b b' -> ctx_rel p' b'.
Proof.
  intros (Hlp & Hlb & Hab & Hsim) Hp Hb.
  split; [now apply (index_only_links p)|].
  split; [now apply (index_only_links b)|].
  split; [now apply (index_only_attrs b)|].
  apply node_sim_trans with (NCtx p);
    [apply index_only_sim, index_only_sym, Hp|].
  apply node_sim_trans with (NCtx b); [exact Hsim|].
  now apply index_only_sim.
Qed.

(** Parsing and building write to the innermost frame at ["_index"] only. *)
Lemma parse_index_only :
  forall con fuel input ctx, index_only ctx (fst (parse fuel con input ctx)).
Proof.
  induction con; intros fuel input ctx; cbn [parse].
  - destruct (new_frame subcons ctx); apply index_only_refl.
  - destruct (parse_count count ctx); [|apply index_only_refl].
    generalize 0 at 1. generalize (@nil pyvalue). revert input ctx.
    induction (Z.to_nat a) as [|n IHn]; intros input ctx acc i; cbn [parse_array].
    + apply index_only_refl.
    + pose proof (IHcon fuel input (ctx_set "_index" (CVal (VInt i)) ctx)) as H1.
      pose proof (index_only_set (CVal (VInt i)) ctx) as H0.
      destruct (parse fuel con input _) as [ctx1 [[e input']| |]]; cbn [fst] in *;
        try (eapply index_only_trans; eassumption).
      eapply index_only_trans; [eapply index_only_trans; eassumption|apply IHn].
  - generalize 0 at 1. generalize (@nil pyvalue). revert input ctx.
    generalize fuel at 2.
    induction fuel0 as [|n IHn]; intros input ctx acc i; cbn [parse_greedy].
    + apply index_only_refl.
    + pose proof (IHcon fuel input (ctx_set "_index" (CVal (VInt i)) ctx)) as H1.
      pose proof (index_only_set (CVal (VInt i)) ctx) as H0.
      destruct (parse fuel con input _) as [ctx1 [[e input']| |]]; cbn [fst] in *;
        try (eapply index_only_trans; eassumption).
      eapply index_only_trans; [eapply index_only_trans; eassumption|apply IHn].
  - destruct (stream_read _ input) as [[d r]|]; apply index_only_refl.
  - destruct (stream_read _ input) as [[d r]|]; apply index_only_refl.
  - destruct (length <? 0); [apply index_only_refl|].
    destruct (stream_read _ input) as [[d r]|]; cbn [bind]; [|apply index_only_refl].
    destruct (encodingunit encoding); cbn [bind]; [|apply index_only_refl].
    destruct (null_strip _ d); cbn [bind]; [|apply index_only_refl].
    destruct (StringEncoded_decode encoding _); apply index_only_refl.
  - destruct (length <=? 0); [apply index_only_refl|].
    destruct (stream_read _ input) as [[d r]|]; apply index_only_refl.
  - specialize (IHcon fuel input ctx).
    destruct (parse fuel con input ctx) as [ctx1 [[e input']| |]]; cbn [fst adapt] in *;
      auto.
    destruct (BitFieldAdapter_decode _ _ e); exact IHcon.
  - specialize (IHcon fuel input ctx).
    destruct (parse fuel con input ctx) as [ctx1 [[e input']| |]]; cbn [fst adapt] in *;
      auto.
    destruct (ScaleAdapter_decode _ e); exact IHcon.
  - specialize (IHcon fuel input ctx).
    destruct (parse fuel con input ctx) as [ctx1 [[e input']| |]]; cbn [fst adapt] in *;
      auto.
    destruct (BoolBitAdapter_decode _ e); exact IHcon.
Qed.

Lemma build_items_index_only (b : pyvalue -> context -> built) :
  (forall e ctx ret data ctx',
     b e ctx = Ok (ret, data, ctx') -> index_only ctx ctx') ->
  forall items i rets out ctx ret data ctx',
    build_items b items i rets out ctx = Ok (ret, data, ctx') ->
    index_only ctx ctx'.
Proof.
  intros Hb. induction items as [|e items IH]; intros i rets out ctx ret data ctx';
    cbn [build_items].
  - intros H. inversion H. apply index_only_refl.
  - destruct (b e _) as [[[r d] c1]|] eqn:He; cbn [bind]; [|discriminate].
    intros H. apply IH in H. apply Hb in He.
    eapply index_only_trans; [apply index_only_set|].
    eapply index_only_trans; eassumption.
Qed.

Lemma build_index_only :
  forall con obj ctx ret data ctx',
    build con obj ctx = Ok (ret, data, ctx') -> index_only ctx ctx'.
Proof.
  induction con; intros obj ctx ret data ctx'; cbn [build].
  - destruct (new_frame subcons ctx); cbn [bind]; [|discriminate].
    destruct (mapping_of obj); cbn [bind]; [|discriminate].
    destruct (build_fields _ _ _ _ _) as [[o c]|]; cbn [bind]; [|discriminate].
    intros H. inversion H. apply index_only_refl.
  - destruct (evaluate count ctx); cbn [bind]; [|discriminate].
    destruct (match a with NVal (VInt _) => _ | _ => _ end); cbn [bind];
      [|discriminate].
    destruct (items_of obj); cbn [bind]; [|discriminate].
    destruct (build_count _ _); cbn [bind]; [|discriminate].
    apply build_items_index_only. intros e c r d c'. apply IHcon.
  - destruct (items_of obj); cbn [bind]; [|discriminate].
    apply build_items_index_only. intros e c r d c'. apply IHcon.
  - destruct (pack e c obj); cbn [bind]; [|discriminate].
    intros H. inversion H. apply index_only_refl.
  - destruct obj; try discriminate; cbn [as_int bind].
    + destruct (_ && _); [|discriminate].
      intros H. inversion H. apply index_only_refl.
    + destruct (_ && _); [|discriminate].
      intros H. inversion H. apply index_only_refl.
    + destruct (_ =? _); [|discriminate].
      intros H. inversion H. apply index_only_refl.
  - destruct (StringEncoded_encode encoding obj); cbn [bind]; [|discriminate].
    destruct (length <? 0); [discriminate|].
    destruct (_ <? 0); [discriminate|].
    intros H. inversion H. apply index_only_refl.
  - destruct (as_int obj); [|discriminate].
    destruct (length <=? 0); [discriminate|].
    destruct (_ && _); [|discriminate].
    intros H. inversion H. apply index_only_refl.
  - destruct (BitFieldAdapter_encode _ _ obj); cbn [bind]; [|discriminate].
    destruct (build con a ctx) as [[[r d] c1]|] eqn:Hb; cbn [bind]; [|discriminate].
    intros H. inversion H; subst. eapply IHcon, Hb.
  - destruct (ScaleAdapter_encode _ obj); cbn [bind]; [|discriminate].
    destruct (build con a ctx) as [[[r d] c1]|] eqn:Hb; cbn [bind]; [|discriminate].
    intros H. inversion H; subst. eapply IHcon, Hb.
  - destruct (BoolBitAdapter_encode _ obj); cbn [bind]; [|discriminate].
    destruct (build con a ctx) as [[[r d] c1]|] eqn:Hb; cbn [bind]; [|discriminate].
    intros H. inversion H; subst. eapply IHcon, Hb.
Qed.

(** ** Round trip: the leaves *)

Lemma stream_read_ok (n : Z) (input data rest : list byte) :
  stream_read n input = Ok (data, rest) ->
  input = (data ++ rest)%list /\ Z.of_nat (List.length data) = n.
Proof.
  unfold stream_read.
  destruct ((0 <=? n) && (n <=? Z.of_nat (List.length input))) eqn:Hn;
    intros H; [|discriminate].
  apply andb_true_iff in Hn as [H0 H1].
  apply Z.leb_le in H0, H1. inversion H; subst.
  split; [symmetry; apply firstn_skipn|].
  rewrite firstn_length_le by lia. lia.
Qed.

Lemma pow_256 (n : Z) : 0 <= n -> 256 ^ n = 2 ^ (8 * n).
Proof. intros Hn. rewrite (Z.pow_mul_r 2 8 n) by lia. reflexivity. Qed.

Lemma ordered_involutive (e : endianness) (bs : list byte) :
  ordered e (ordered e bs) = bs.
Proof. destruct e; cbn; [reflexivity|apply rev_involutive]. Qed.

Lemma ordered_length (e : endianness) (bs : list byte) :
  List.length (ordered e bs) = List.length bs.
Proof. destruct e; cbn; [reflexivity|apply length_rev]. Qed.

Lemma of_to_signed (size : nat) (z : Z) :
  (0 < size)%nat -> 0 <= z < 2 ^ (8 * Z.of_nat size) ->
  of_signed size (to_signed size z) = z
  /\ - 2 ^ (8 * Z.of_nat size - 1) <= to_signed size z < 2 ^ (8 * Z.of_nat size - 1).
Proof.
  intros Hs Hz. unfold of_signed, to_signed.
  assert (Hpow : 2 ^ (8 * Z.of_nat size) = 2 * 2 ^ (8 * Z.of_nat size - 1)).
  { rewrite <- Z.pow_succ_r by lia. f_equal. lia. }
  destruct (Z.ltb_spec z (2 ^ (8 * Z.of_nat size - 1))) as [Hlt|Hge].
  - destruct (Z.ltb_spec z 0); lia.
  - destruct (Z.ltb_spec (z - 2 ^ (8 * Z.of_nat size)) 0); lia.
Qed.

Lemma format_size_pos (c : format_char) : (0 < format_size c)%nat.
Proof. destruct c; cbn; lia. Qed.

(** An integer primitive packs what it unpacked to the bytes it read. *)
Lemma pack_unpack (e : endianness) (c : format_char) (data : list byte) :
  format_is_float c = false ->
  List.length data = format_size c ->
  pack e c (unpack e c data) = Ok data.
Proof.
  intros Hf Hlen. unfold pack, unpack. rewrite Hf.
  pose proof (int_from_bytes_little_range (ordered e data)) as Hr.
  rewrite ordered_length, Hlen, pow_256 in Hr by lia.
  pose proof (format_size_pos c) as Hpos.
  assert (Hback : ordered e (int_to_bytes_little (format_size c)
                              (int_from_bytes_little (ordered e data))) = data).
  { rewrite <- Hlen, <- (ordered_length e data), int_to_bytes_little_from.
    apply ordered_involutive. }
  destruct (format_signed c); cbn [as_int].
  - destruct (of_to_signed (format_size c) _ Hpos Hr) as [Hos Hrange].
    rewrite Hos, Hback.
    replace (_ && _) with true; [reflexivity|].
    symmetry. apply andb_true_iff. split; [apply Z.leb_le|apply Z.ltb_lt]; lia.
  - rewrite Hback.
    replace (_ && _) with true; [reflexivity|].
    symmetry. apply andb_true_iff. split; [apply Z.leb_le|apply Z.ltb_lt]; lia.
Qed.

Lemma is_zero_byte_eq (b : byte) : is_zero_byte b = true -> b = x00.
Proof. apply Byte.byte_dec_bl. Qed.

Lemma drop_zero_units_one (fuel : nat) (r : list byte) :
  exists j, r = (repeat x00 j ++ drop_zero_units fuel 1 r)%list.
Proof.
  revert r. induction fuel as [|fuel IH]; intros r; cbn [drop_zero_units].
  - exists 0%nat. reflexivity.
  - destruct r as [|b r]; cbn.
    + exists 0%nat. reflexivity.
    + destruct (is_zero_byte b) eqn:Hb; cbn.
      * apply is_zero_byte_eq in Hb as ->.
        destruct (IH r) as [j Hj]. exists (S j). cbn. now rewrite <- Hj.
      * exists 0%nat. reflexivity.
Qed.

Lemma null_strip_one (data stripped : list byte) :
  null_strip 1 data = Ok stripped ->
  exists j, data = (stripped ++ repeat x00 j)%list.
Proof.
  unfold null_strip. cbn. intros H. inversion H; subst; clear H.
  destruct (drop_zero_units_one (List.length (rev data)) (rev data)) as [j Hj].
  exists j. apply (f_equal (@rev byte)) in Hj.
  rewrite rev_involutive, rev_app_distr, rev_repeat in Hj. exact Hj.
Qed.

Lemma encodingunit_ascii (encoding : string) :
  String.eqb (normalize_encoding encoding) "ascii" = true ->
  encodingunit encoding = Ok 1.
Proof.
  intros H. apply String.eqb_eq in H. unfold encodingunit. now rewrite H.
Qed.

(** ASCII text of a fixed length builds to the bytes it was parsed from. *)
Lemma padded_string_round_trip (length : Z) (encoding : string)
  (input data rest stripped : list byte) (text : pyvalue) :
  String.eqb (normalize_encoding encoding) "ascii" = true ->
  stream_read length input = Ok (data, rest) ->
  null_strip 1 data = Ok stripped ->
  StringEncoded_decode encoding stripped = Ok text ->
  exists enc,
    StringEncoded_encode encoding text = Ok enc
    /\ (length - Z.of_nat (List.length enc) <? 0) = false
    /\ (enc ++ zeros (Z.to_nat (length - Z.of_nat (List.length enc))))%list = data.
Proof.
  intros Hasc Hread Hstrip Hdec.
  apply stream_read_ok in Hread as [_ Hlen].
  destruct (null_strip_one _ _ Hstrip) as [j Hj].
  unfold StringEncoded_decode in Hdec. rewrite Hasc in Hdec.
  destruct (forallb is_ascii_byte stripped) eqn:Hall; [|discriminate].
  inversion Hdec; subst text; clear Hdec.
  assert (Hdata : Z.of_nat (List.length stripped) + Z.of_nat j = length).
  { rewrite <- Hlen, Hj, length_app, repeat_length. lia. }
  exists stripped. unfold StringEncoded_encode. rewrite Hasc.
  rewrite list_byte_of_string_of_list_byte, Hall.
  split; [|split].
  - destruct (String.eqb_spec (string_of_list_byte stripped) "") as [He|_];
      [|reflexivity].
    apply (f_equal list_byte_of_string) in He.
    rewrite list_byte_of_string_of_list_byte in He. cbn in He. now subst.
  - apply Z.ltb_ge. lia.
  - rewrite Hj. f_equal. unfold zeros. f_equal. lia.
Qed.

(** ** Round trip: the bitfield *)

Lemma low_bit_is_testbit (value start : Z) :
  0 <= start ->
  negb (Z.land (Z.shiftr value start) 1 =? 0) = Z.testbit value start.
Proof.
  intros Hs. change 1 with (Z.ones 1). rewrite Z.land_ones by lia.
  rewrite <- (Z.add_0_l start) at 2. rewrite <- Z.shiftr_spec by lia.
  change (2 ^ 1) with 2. rewrite <- Z.bit0_mod.
  now destruct (Z.testbit (Z.shiftr value start) 0).
Qed.

Lemma mod_pow2_add_bit (value start : Z) :
  0 <= start ->
  (if Z.testbit value start
   then Z.lor (value mod 2 ^ start) (Z.shiftl 1 start)
   else value mod 2 ^ start)
  = value mod 2 ^ (start + 1).
Proof.
  intros Hs. apply Z.bits_inj'. intros n Hn.
  destruct (Z.testbit value start) eqn:Hb.
  - rewrite Z.lor_spec, Z.shiftl_1_l.
    destruct (Z.lt_trichotomy n start) as [Hlt|[->|Hgt]].
    + rewrite !Z.mod_pow2_bits_low by lia.
      rewrite Z.pow2_bits_false by lia. apply orb_false_r.
    + rewrite Z.pow2_bits_true by lia.
      rewrite (Z.mod_pow2_bits_low value (start + 1) start) by lia.
      rewrite orb_true_r. now symmetry.
    + rewrite !Z.mod_pow2_bits_high by lia.
      rewrite Z.pow2_bits_false by lia. reflexivity.
  - destruct (Z.lt_trichotomy n start) as [Hlt|[->|Hgt]].
    + now rewrite !Z.mod_pow2_bits_low by lia.
    + rewrite (Z.mod_pow2_bits_high value start start) by lia.
      rewrite (Z.mod_pow2_bits_low value (start + 1) start) by lia. now symmetry.
    + now rewrite !Z.mod_pow2_bits_high by lia.
Qed.

Lemma mod_pow2_add_field (value start width : Z) :
  0 <= start -> 0 <= width ->
  Z.lor (value mod 2 ^ start)
    (Z.shiftl (Z.land (Z.land (Z.shiftr value start) (Z.ones width)) (Z.ones width))
       start)
  = value mod 2 ^ (start + width).
Proof.
  intros Hs Hw. apply Z.bits_inj'. intros n Hn.
  rewrite Z.lor_spec, Z.shiftl_spec by lia.
  destruct (Z.lt_ge_cases n start) as [Hlt|Hge].
  - rewrite !Z.mod_pow2_bits_low by lia.
    rewrite (Z.testbit_neg_r _ (n - start)) by lia. apply orb_false_r.
  - rewrite (Z.mod_pow2_bits_high value start n) by lia. cbn [orb].
    rewrite !Z.land_spec, Z.shiftr_spec by lia.
    replace (n - start + start) with n by lia.
    destruct (Z.lt_ge_cases n (start + width)) as [Hin|Hout].
    + rewrite Z.ones_spec_low by lia. rewrite !andb_true_r.
      now rewrite Z.mod_pow2_bits_low by lia.
    + rewrite Z.ones_spec_high by lia. rewrite !andb_false_r.
      now rewrite Z.mod_pow2_bits_high by lia.
Qed.

Lemma flags_cover_inv (start size_bits : Z) (f : bit_flag) (rest : list bit_flag) :
  flags_cover start size_bits (f :: rest) = true ->
  bf_bit f = start
  /\ start < flag_end size_bits rest
  /\ match rest with
     | [] => True
     | g :: _ => flags_cover (bf_bit g) size_bits rest = true
     end.
Proof.
  cbn [flags_cover]. intros H. apply andb_true_iff in H as [Hb H].
  apply Z.eqb_eq in Hb.
  destruct rest as [|g rest']; cbn [flag_end].
  - apply Z.ltb_lt in H. auto.
  - apply andb_true_iff in H as [Hlt H]. apply Z.ltb_lt in Hlt. auto.
Qed.

Lemma distinct_inv (x : string) (l : list string) :
  distinct (x :: l) = true -> ~ In x l /\ distinct l = true.
Proof.
  cbn [distinct]. intros H. apply andb_true_iff in H as [Hx Hl].
  split; [|exact Hl]. intros Hin.
  apply negb_true_iff in Hx.
  assert (Ht : existsb (String.eqb x) l = true).
  { apply existsb_exists. exists x. split; [exact Hin|apply String.eqb_refl]. }
  congruence.
Qed.

Lemma flag_name_of_named (f : bit_flag) :
  match bf_name f with Some _ => true | None => false end = true ->
  flag_name_of f = Ok (flag_key f).
Proof. unfold flag_name_of, flag_key. destruct (bf_name f); [reflexivity|discriminate]. Qed.

(** Decoding fills the mapping with each flag's value. *)
Lemma decode_flags_entries (size_bits value : Z) :
  forall flags start res,
    flags_cover start size_bits flags = true ->
    0 <= start ->
    flags_named flags = true ->
    distinct (map flag_key flags) = true ->
    exists res',
      decode_flags size_bits value flags res = Ok res'
      /\ entries_ok size_bits value res' flags
      /\ forall k, ~ In k (map flag_key flags) -> dict_get k res' = dict_get k res.
Proof.
  induction flags as [|f rest IH]; intros start res Hcov Hs Hnamed Hdist.
  - discriminate Hcov.
  - apply flags_cover_inv in Hcov as (Hbit & Hend & Hrest).
    cbn [flags_named forallb] in Hnamed. apply andb_true_iff in Hnamed as [Hf Hnamed].
    cbn [map] in Hdist. apply distinct_inv in Hdist as [Hnot Hdist].
    cbn [decode_flags]. rewrite (flag_name_of_named f Hf). cbn [bind].
    unfold py_rshift, py_lshift.
    replace (bf_bit f <? 0) with false by (symmetry; apply Z.ltb_ge; lia).
    replace (flag_end size_bits rest - bf_bit f <? 0) with false
      by (symmetry; apply Z.ltb_ge; lia).
    cbn [bind].
    set (res1 := dict_set (flag_key f) (flag_value size_bits value f rest) res).
    assert (Hstep :
              (if flag_end size_bits rest - bf_bit f =? 1
               then decode_flags size_bits value rest
                      (dict_set (flag_key f)
                         (VBool (negb (Z.land (Z.shiftr value (bf_bit f)) 1 =? 0))) res)
               else decode_flags size_bits value rest
                      (dict_set (flag_key f)
                         (VInt (Z.land (Z.shiftr value (bf_bit f))
                                  (Z.shiftl 1 (flag_end size_bits rest - bf_bit f) - 1)))
                         res))
              = decode_flags size_bits value rest res1).
    { subst res1. unfold flag_value. cbv zeta.
      destruct (flag_end size_bits rest - bf_bit f =? 1); reflexivity. }
    rewrite Hstep. clear Hstep.
    destruct rest as [|g rest'].
    + cbn [decode_flags]. exists res1. split; [reflexivity|].
      split.
      * cbn [entries_ok]. split; [|exact I]. apply dict_get_set_same.
      * intros k Hk. cbn [map In] in Hk. subst res1.
        apply dict_get_set_other. intros ->. apply Hk. now left.
    + destruct (IH (bf_bit g) res1 Hrest ltac:(cbn [flag_end] in Hend; lia)
                  Hnamed Hdist) as (res' & Hdec & Hent & Hout).
      exists res'. split; [exact Hdec|]. split.
      * cbn [entries_ok]. split; [|exact Hent].
        rewrite (Hout _ Hnot). apply dict_get_set_same.
      * intros k Hk. rewrite Hout.
        -- subst res1. apply dict_get_set_other. intros ->. apply Hk. now left.
        -- intros Hin. apply Hk. now right.
Qed.

(** Encoding the mapping that has each flag's value gives the integer
    back, flag by flag from the low bits. *)
Lemma encode_flags_entries (size_bits value : Z) (obj : list (string * pyvalue)) :
  forall flags start,
    flags_cover start size_bits flags = true ->
    0 <= start ->
    flags_named flags = true ->
    entries_ok size_bits value obj flags ->
    encode_flags size_bits (VDict obj) flags (value mod 2 ^ start)
    = Ok (value mod 2 ^ size_bits).
Proof.
  induction flags as [|f rest IH]; intros start Hcov Hs Hnamed Hent.
  - discriminate Hcov.
  - apply flags_cover_inv in Hcov as (Hbit & Hend & Hrest).
    cbn [flags_named forallb] in Hnamed. apply andb_true_iff in Hnamed as [Hf Hnamed].
    destruct Hent as [Hget Hent].
    cbn [encode_flags]. rewrite (flag_name_of_named f Hf). cbn [bind py_contains].
    unfold dict_mem, py_getitem. rewrite Hget. cbn [negb bind].
    unfold py_lshift.
    replace (bf_bit f <? 0) with false by (symmetry; apply Z.ltb_ge; lia).
    replace (flag_end size_bits rest - bf_bit f <? 0) with false
      by (symmetry; apply Z.ltb_ge; lia).
    cbn [bind].
    assert (Hnext : forall acc,
               acc = value mod 2 ^ flag_end size_bits rest ->
               encode_flags size_bits (VDict obj) rest acc
               = Ok (value mod 2 ^ size_bits)).
    { intros acc ->. destruct rest as [|g rest']; [reflexivity|].
      cbn [flag_end] in *. apply IH; auto. lia. }
    unfold flag_value. cbv zeta. subst start.
    destruct (Z.eqb_spec (flag_end size_bits rest - bf_bit f) 1) as [Hw|Hw].
    + cbn [truthy]. rewrite low_bit_is_testbit by lia.
      pose proof (mod_pow2_add_bit value (bf_bit f) Hs) as Hbitadd.
      replace (bf_bit f + 1) with (flag_end size_bits rest) in Hbitadd by lia.
      destruct (Z.testbit value (bf_bit f)); now apply Hnext.
    + cbn [as_int bind]. apply Hnext.
      rewrite !mask_is_ones.
      rewrite mod_pow2_add_field by lia. f_equal. f_equal. lia.
Qed.

(** The bitfield over its base integer *)
Lemma bitfield_round_trip (size_bits : Z) (bit_flags : list bit_flag) (length : Z) :
  lossless (BitFieldAdapter size_bits bit_flags (BytesInteger length false false)) = true ->
  forall fuel input p p' v rest b,
    parse fuel (BitFieldAdapter size_bits bit_flags (BytesInteger length false false))
      input p = (p', Done (v, rest)) ->
    exists data,
      build (BitFieldAdapter size_bits bit_flags (BytesInteger length false false)) v b
      = Ok (v, data, b)
      /\ input = (data ++ rest)%list.
Proof.
  cbn [lossless]. intros Hl.
  apply andb_true_iff in Hl as [Hl Hcov].
  apply andb_true_iff in Hl as [Hl Hdist].
  apply andb_true_iff in Hl as [Hsize Hnamed].
  apply Z.eqb_eq in Hsize.
  intros fuel input p p' v rest b. cbn [parse of_result].
  destruct (Z.leb_spec length 0) as [Hle|Hpos]; [cbn; discriminate|].
  destruct (stream_read length input) as [[data rest']|e] eqn:Hread;
    cbn [bind of_result adapt]; [|discriminate].
  destruct (stream_read_ok _ _ _ _ Hread) as [Hinput Hlen].
  unfold BytesInteger_decode, BitFieldAdapter_decode. cbn [py_int bind].
  set (value := int_from_bytes_big data).
  destruct (decode_flags_entries size_bits value bit_flags 0 [] Hcov ltac:(lia)
              Hnamed Hdist) as (res & Hdec & Hent & _).
  rewrite Hdec. cbn [bind]. intros H. inversion H; subst p' v rest'; clear H.
  assert (Hrange : 0 <= value < 2 ^ size_bits).
  { subst value. unfold int_from_bytes_big.
    pose proof (int_from_bytes_little_range (rev data)) as Hr.
    rewrite length_rev, pow_256 in Hr by lia.
    rewrite Hsize, <- Hlen. exact Hr. }
  pose proof (encode_flags_entries size_bits value res bit_flags 0 Hcov ltac:(lia)
                Hnamed Hent) as Henc.
  rewrite Z.pow_0_r, Z.mod_1_r, Z.mod_small in Henc by exact Hrange.
  exists data. split; [|exact Hinput].
  cbn [build]. unfold BitFieldAdapter_encode. rewrite Henc. cbn [bind as_int].
  destruct (Z.leb_spec length 0) as [Hle|_]; [lia|].
  replace ((0 <=? value) && (value <? 2 ^ (8 * length))) with true.
  - cbn [bind]. do 3 f_equal.
    subst value. unfold int_to_bytes_big, int_from_bytes_big.
    replace (Z.to_nat length) with (List.length (rev data))
      by (rewrite length_rev; lia).
    rewrite int_to_bytes_little_from. apply rev_involutive.
  - symmetry. apply andb_true_iff. rewrite <- Hsize.
    split; [apply Z.leb_le|apply Z.ltb_lt]; lia.
Qed.

(** ** Round trip: structs, arrays and ranges *)

Lemma resolver_head_change (fr fr' : frame) (parents : context)
  (k : string) (ps : list string) :
  dict_get k fr = dict_get k fr' ->
  (forall d, dict_get k fr = Some (CLink d) -> (d <= List.length parents)%nat) ->
  resolver (k :: ps) (NCtx (fr :: parents))
  = resolver (k :: ps) (NCtx (fr' :: parents)).
Proof.
  intros Hsame Hlink. cbn [resolver node_getitem ctx_getitem].
  rewrite <- Hsame.
  destruct (dict_get k fr) as [[w|d]|]; try reflexivity.
  rewrite !ctx_at_cons_below by (apply Hlink; reflexivity). reflexivity.
Qed.

Lemma links_ok_set (n : string) (v : pyvalue) (c : context) :
  links_ok c -> links_ok (ctx_set n (CVal v) c).
Proof.
  destruct c as [|fr parents]; cbn; [trivial|].
  intros Hl k d Hk Hget.
  destruct (String.eqb_spec k n) as [->|Hne].
  - rewrite dict_get_set_same in Hget. discriminate.
  - rewrite dict_get_set_other in Hget by exact Hne. now apply Hl.
Qed.

Lemma dict_get_set_is_some {V : Type} (n k : string) (v : V) (d : list (string * V)) :
  dict_get k d <> None -> dict_get k (dict_set n v d) <> None.
Proof.
  destruct (String.eqb_spec k n) as [->|Hne].
  - rewrite dict_get_set_same. discriminate.
  - now rewrite dict_get_set_other.
Qed.

Lemma attrs_ok_iff (c : context) :
  attrs_ok c <->
  exists fr parents,
    c = fr :: parents
    /\ dict_get "_params" fr <> None /\ dict_get "_parsing" fr <> None
    /\ dict_get "_building" fr <> None /\ dict_get "_sizing" fr <> None.
Proof.
  unfold attrs_ok, new_frame, ctx_attr. split.
  - intros [g Hg]. destruct c as [|fr parents]; [discriminate|].
    exists fr, parents. split; [reflexivity|].
    destruct (dict_get "_params" fr); cbn [bind] in Hg; [|discriminate].
    destruct (dict_get "_parsing" fr); cbn [bind] in Hg; [|discriminate].
    destruct (dict_get "_building" fr); cbn [bind] in Hg; [|discriminate].
    destruct (dict_get "_sizing" fr); cbn [bind] in Hg; [|discriminate].
    repeat split; discriminate.
  - intros (fr & parents & -> & H1 & H2 & H3 & H4).
    destruct (dict_get "_params" fr); [|congruence].
    destruct (dict_get "_parsing" fr); [|congruence].
    destruct (dict_get "_building" fr); [|congruence].
    destruct (dict_get "_sizing" fr); [|congruence].
    cbn [bind]. eauto.
Qed.

Lemma attrs_ok_set (n : string) (c0 : cell) (c : context) :
  attrs_ok c -> attrs_ok (ctx_set n c0 c).
Proof.
  rewrite !attrs_ok_iff. intros (fr & parents & -> & H1 & H2 & H3 & H4).
  exists (dict_set n c0 fr), parents. cbn [ctx_set].
  split; [reflexivity|].
  repeat split; now apply dict_get_set_is_some.
Qed.

Lemma new_frame_of_attrs (subcons : list (string * Construct)) (c : context) :
  attrs_ok c -> exists fr, new_frame subcons c = Ok fr.
Proof.
  intros [g Hg]. unfold new_frame in *.
  destruct (ctx_attr "_params" c); cbn [bind] in *; [|discriminate].
  destruct (ctx_attr "_parsing" c); cbn [bind] in *; [|discriminate].
  destruct (ctx_attr "_building" c); cbn [bind] in *; [|discriminate].
  destruct (ctx_attr "_sizing" c); cbn [bind] in *; [|discriminate].
  eauto.
Qed.

(** A key set in the build context that no stable path reads in the parse
    context *)
Lemma ctx_rel_set_fresh (p b : context) (n : string) (v : pyvalue) :
  ctx_rel p b ->
  (is_stable n = true -> dict_get n (hd [] p) = None) ->
  ctx_rel p (ctx_set n (CVal v) b).
Proof.
  intros (Hlp & Hlb & Hab & Hsim) Hfresh.
  split; [exact Hlp|]. split; [now apply links_ok_set|].
  split; [now apply attrs_ok_set|].
  intros parts s Hst Hs Hres.
  pose proof (Hsim parts s Hst Hs Hres) as Hb.
  destruct parts as [|k ps]; [discriminate Hres|].
  cbn [forallb] in Hst. apply andb_true_iff in Hst as [Hk Hps].
  destruct b as [|gr parents]; [exact Hb|]. cbn [ctx_set].
  assert (Hne : k <> n).
  { intros ->. specialize (Hfresh Hk).
    destruct p as [|fr pp]; cbn in Hres; [discriminate|].
    cbn [hd] in Hfresh. rewrite Hfresh in Hres. discriminate. }
  rewrite <- Hb. symmetry. apply resolver_head_change.
  - now rewrite dict_get_set_other.
  - intros d Hd. now apply (Hlb k d Hk).
Qed.

(** The same key set on both sides, to a parsed value and to what stands
    for it *)
Lemma ctx_rel_set_both (p b : context) (n : string) (v w : pyvalue) :
  ctx_rel p b ->
  node_sim (NVal v) (NVal w) ->
  ctx_rel (ctx_set n (CVal v) p) (ctx_set n (CVal w) b).
Proof.
  intros (Hlp & Hlb & Hab & Hsim) Hvw.
  split; [now apply links_ok_set|]. split; [now apply links_ok_set|].
  split; [now apply attrs_ok_set|].
  intros parts s Hst Hs Hres.
  destruct parts as [|k ps]; [discriminate|].
  cbn [forallb] in Hst. pose proof Hst as Hst'.
  apply andb_true_iff in Hst as [Hk Hps].
  destruct p as [|fr pp]; [discriminate|]. cbn [ctx_set] in Hres.
  destruct (String.eqb_spec k n) as [->|Hne].
  - cbn [resolver node_getitem ctx_getitem] in Hres.
    rewrite dict_get_set_same in Hres. cbn [bind] in Hres.
    apply Hvw in Hres; [|exact Hps|exact Hs].
    assert (Hold : resolver (n :: ps) (NCtx (fr :: pp)) = Ok (NVal s)
                   -> True) by trivial.
    destruct b as [|gr parents].
    + (* the build context cannot be empty: it has the copied entries *)
      apply attrs_ok_iff in Hab as (g & t & Hg & _). discriminate.
    + cbn [ctx_set resolver node_getitem ctx_getitem].
      rewrite dict_get_set_same. cbn [bind]. exact Hres.
  - rewrite <- (resolver_head_change fr (dict_set n (CVal v) fr) pp k ps) in Hres.
    + pose proof (Hsim (k :: ps) s Hst' Hs Hres) as Hb.
      destruct b as [|gr parents]; [exact Hb|]. cbn [ctx_set].
      rewrite <- Hb. symmetry. apply resolver_head_change.
      * now rewrite dict_get_set_other.
      * intros d Hd. now apply (Hlb k d Hk).
    + now rewrite dict_get_set_other.
    + intros d Hd. now apply (Hlp k d Hk).
Qed.

Lemma ctx_rel_step (p b p1 b1 : context) (i : cell) :
  ctx_rel p b ->
  index_only (ctx_set "_index" i p) p1 ->
  index_only (ctx_set "_index" i b) b1 ->
  ctx_rel p1 b1.
Proof.
  intros Hrel Hp Hb.
  apply (ctx_rel_index_only p p1 b b1 Hrel).
  - eapply index_only_trans; [apply index_only_set|exact Hp].
  - eapply index_only_trans; [apply index_only_set|exact Hb].
Qed.

(** The loop of an array, element by element *)
Lemma array_loop (con : Construct) (fuel : nat) :
  round_trips con ->
  forall n i acc input p p' l rest b rets out,
    parse_array (parse fuel con) n i acc input p = (p', Done (VList l, rest)) ->
    ctx_rel p b ->
    exists items data b' rets',
      l = (rev acc ++ items)%list
      /\ List.length items = n
      /\ build_items (build con) items i rets out b
         = Ok (VList rets', (out ++ data)%list, b')
      /\ input = (data ++ rest)%list.
Proof.
  intros IHcon. induction n as [|n IHn];
    intros i acc input p p' l rest b rets out; cbn [parse_array].
  - intros H Hrel. inversion H; subst.
    exists [], [], b, (rev rets). rewrite !app_nil_r. cbn. auto.
  - destruct (parse fuel con input (ctx_set "_index" (CVal (VInt i)) p))
      as [p1 [[e input']| |]] eqn:Hpe; try discriminate.
    intros H Hrel.
    assert (Hrel0 : ctx_rel (ctx_set "_index" (CVal (VInt i)) p)
                      (ctx_set "_index" (CVal (VInt i)) b)).
    { eapply ctx_rel_step; [exact Hrel|apply index_only_refl..]. }
    destruct (IHcon _ _ _ _ _ _ _ Hpe Hrel0) as (ret & d & b1 & Hbuild & Hin & _).
    assert (Hrel1 : ctx_rel p1 b1).
    { eapply ctx_rel_step; [exact Hrel| |eapply build_index_only, Hbuild].
      pose proof (parse_index_only con fuel input
                    (ctx_set "_index" (CVal (VInt i)) p)) as Hio.
      now rewrite Hpe in Hio. }
    destruct (IHn _ _ _ _ _ _ _ _ (ret :: rets) (out ++ d)%list H Hrel1)
      as (items & data & b' & rets' & Hl & Hlen & Hb & Hin').
    exists (e :: items), (d ++ data)%list, b', rets'.
    split; [rewrite Hl; cbn [rev]; now rewrite <- app_assoc|].
    split; [cbn; now rewrite Hlen|].
    split.
    + cbn [build_items]. rewrite Hbuild. cbn [bind].
      rewrite Hb. now rewrite app_assoc.
    + rewrite Hin, Hin'. now rewrite app_assoc.
Qed.

(** The loop of a greedy range: the elements that parsed, up to the first
    that did not *)
Lemma greedy_loop (con : Construct) (fuel : nat) :
  round_trips con ->
  forall n i acc input p p' l rest b rets out,
    parse_greedy (parse fuel con) n i acc input p = (p', Done (VList l, rest)) ->
    ctx_rel p b ->
    exists items data b' rets',
      l = (rev acc ++ items)%list
      /\ build_items (build con) items i rets out b
         = Ok (VList rets', (out ++ data)%list, b')
      /\ input = (data ++ rest)%list.
Proof.
  intros IHcon. induction n as [|n IHn];
    intros i acc input p p' l rest b rets out; cbn [parse_greedy].
  - discriminate.
  - destruct (parse fuel con input (ctx_set "_index" (CVal (VInt i)) p))
      as [p1 [[e input']| |]] eqn:Hpe; try discriminate.
    + intros H Hrel.
      assert (Hrel0 : ctx_rel (ctx_set "_index" (CVal (VInt i)) p)
                        (ctx_set "_index" (CVal (VInt i)) b)).
      { eapply ctx_rel_step; [exact Hrel|apply index_only_refl..]. }
      destruct (IHcon _ _ _ _ _ _ _ Hpe Hrel0) as (ret & d & b1 & Hbuild & Hin & _).
      assert (Hrel1 : ctx_rel p1 b1).
      { eapply ctx_rel_step; [exact Hrel| |eapply build_index_only, Hbuild].
        pose proof (parse_index_only con fuel input
                      (ctx_set "_index" (CVal (VInt i)) p)) as Hio.
        now rewrite Hpe in Hio. }
      destruct (IHn _ _ _ _ _ _ _ _ (ret :: rets) (out ++ d)%list H Hrel1)
        as (items & data & b' & rets' & Hl & Hb & Hin').
      exists (e :: items), (d ++ data)%list, b', rets'.
      split; [rewrite Hl; cbn [rev]; now rewrite <- app_assoc|].
      split.
      * cbn [build_items]. rewrite Hbuild. cbn [bind].
        rewrite Hb. now rewrite app_assoc.
      * rewrite Hin, Hin'. now rewrite app_assoc.
    + intros H Hrel. inversion H; subst.
      exists [], [], b, (rev rets). rewrite !app_nil_r. cbn. auto.
Qed.

Lemma list_values_sim (l l' : list pyvalue) : node_sim (NVal (VList l)) (NVal (VList l')).
Proof.
  intros parts s _ Hs. destruct parts as [|k ps]; cbn.
  - intros H. inversion H; subst. discriminate Hs.
  - discriminate.
Qed.

(** *** The fields of a struct *)

Lemma parse_fields_get (p : Construct -> list byte -> context -> parsed) :
  forall scs obj input ctx ctx' objf rest k,
    parse_fields p scs obj input ctx = (ctx', Done (VContainer objf, rest)) ->
    ~ In k (map fst scs) ->
    dict_get k objf = dict_get k obj.
Proof.
  induction scs as [|[n sc] scs IH]; intros obj input ctx ctx' objf rest k;
    cbn [parse_fields map fst In].
  - intros H _. now inversion H.
  - destruct (p sc input ctx) as [ctx1 [[subobj input']| |]]; try discriminate.
    intros H Hk. destruct (String.eqb n "").
    + eapply IH; [exact H|tauto].
    + erewrite IH; [|exact H|tauto].
      apply dict_get_set_other. intros ->. tauto.
Qed.

Lemma parse_fields_keys (p : Construct -> list byte -> context -> parsed) :
  forall scs obj input ctx ctx' objf rest k,
    parse_fields p scs obj input ctx = (ctx', Done (VContainer objf, rest)) ->
    dict_get k objf <> None ->
    dict_get k obj <> None \/ In k (map fst scs).
Proof.
  intros scs obj input ctx ctx' objf rest k H Hk.
  destruct (in_dec string_dec k (map fst scs)) as [Hin|Hnot]; [now right|].
  left. now rewrite <- (parse_fields_get p _ _ _ _ _ _ _ _ H Hnot).
Qed.

Lemma name_ok_inv (n : string) : name_ok n = true -> n <> "" /\ n <> "_".
Proof.
  unfold name_ok. intros H. apply andb_true_iff in H as [H1 H2].
  apply negb_true_iff in H1, H2.
  split; intros ->; discriminate.
Qed.

Lemma index_only_hd (c c' : context) (k : string) :
  index_only c c' -> k <> "_index" ->
  dict_get k (hd [] c) = dict_get k (hd [] c').
Proof.
  destruct c, c'; cbn; try tauto. intros [_ H] Hk. now apply H.
Qed.

Lemma index_only_nonempty (c c' : context) :
  index_only c c' -> c <> [] -> c' <> [].
Proof. destruct c, c'; cbn; try tauto; congruence. Qed.

(** The parsed object and the parse context hold the same values under
    the stable keys. *)
Lemma parse_fields_obj_ctx (fuel : nat) :
  forall scs obj input p pf objf rest,
    parse_fields (parse fuel) scs obj input p = (pf, Done (VContainer objf, rest)) ->
    p <> [] ->
    (forall k v, is_stable k = true -> dict_get k obj = Some v ->
                 dict_get k (hd [] p) = Some (CVal v)) ->
    pf <> []
    /\ forall k v, is_stable k = true -> dict_get k objf = Some v ->
                   dict_get k (hd [] pf) = Some (CVal v).
Proof.
  induction scs as [|[n sc] scs IH]; intros obj input p pf objf rest;
    cbn [parse_fields].
  - intros H Hne Hinv. inversion H; subst. auto.
  - pose proof (parse_index_only sc fuel input p) as Hio.
    destruct (parse fuel sc input p) as [p1 [[subobj input']| |]]; try discriminate.
    cbn [fst] in Hio. intros H Hne Hinv.
    pose proof (index_only_nonempty _ _ Hio Hne) as Hne1.
    assert (Hinv1 : forall k v, is_stable k = true -> dict_get k obj = Some v ->
                                dict_get k (hd [] p1) = Some (CVal v)).
    { intros k v Hk Hget.
      rewrite <- (index_only_hd _ _ k Hio (stable_not_index k Hk)). now apply Hinv. }
    destruct (String.eqb n ""); [now apply (IH _ _ _ _ _ _ H)|].
    apply (IH _ _ _ _ _ _ H).
    + destruct p1 as [|fr pp]; [now elim Hne1|discriminate].
    + intros k v Hk Hget. destruct p1 as [|fr pp]; [now elim Hne1|].
      cbn [ctx_set hd].
      destruct (String.eqb_spec k n) as [->|Hkn].
      * rewrite dict_get_set_same in Hget. rewrite dict_get_set_same. congruence.
      * rewrite dict_get_set_other in Hget by exact Hkn.
        rewrite dict_get_set_other by exact Hkn. now apply Hinv1.
Qed.

Lemma fields_loop (fuel : nat) :
  forall scs,
    Forall (fun sc => round_trips (snd sc)) scs ->
    forallb name_ok (map fst scs) = true ->
    distinct (map fst scs) = true ->
    forall obj input p pf objf rest b out,
      parse_fields (parse fuel) scs obj input p = (pf, Done (VContainer objf, rest)) ->
      ctx_rel p b ->
      (forall n, In n (map fst scs) -> is_stable n = true ->
                 dict_get n (hd [] p) = None) ->
      exists data bf,
        build_fields build scs objf out b = Ok ((out ++ data)%list, bf)
        /\ input = (data ++ rest)%list
        /\ ctx_rel pf bf.
Proof.
  induction scs as [|[n sc] scs IH]; intros Hall Hnames Hdist
    obj input p pf objf rest b out; cbn [parse_fields build_fields].
  - intros H Hrel _. inversion H; subst.
    exists [], b. rewrite app_nil_r. auto.
  - apply Forall_cons_iff in Hall as [Hsc Hall]. cbn [snd] in Hsc.
    cbn [map fst forallb] in Hnames. apply andb_true_iff in Hnames as [Hn Hnames].
    cbn [map fst] in Hdist. apply distinct_inv in Hdist as [Hnot Hdist].
    destruct (name_ok_inv n Hn) as [Hne _].
    pose proof (parse_index_only sc fuel input p) as Hio.
    destruct (parse fuel sc input p) as [p1 [[subobj input']| |]] eqn:Hp;
      try discriminate.
    cbn [fst] in Hio.
    destruct (String.eqb_spec n "") as [|_]; [contradiction|].
    intros H Hrel Hfresh.
    assert (Hget : dict_get n objf = Some subobj).
    { rewrite (parse_fields_get _ _ _ _ _ _ _ _ n H Hnot).
      apply dict_get_set_same. }
    rewrite Hget.
    replace (if flagbuildnone sc then Ok subobj else Ok subobj)
      with (@Ok pyvalue subobj) by (now destruct (flagbuildnone sc)).
    cbn [bind].
    assert (Hrel1 : ctx_rel p (ctx_set n (CVal subobj) b)).
    { apply ctx_rel_set_fresh; [exact Hrel|].
      intros Hst. apply Hfresh; [now left|exact Hst]. }
    destruct (Hsc _ _ _ _ _ _ _ Hp Hrel1) as (ret & d & b2 & Hbuild & Hin & Hsim).
    rewrite Hbuild. cbn [bind].
    assert (Hrel2 : ctx_rel p1 b2).
    { apply (ctx_rel_index_only p p1 _ b2 Hrel1 Hio).
      eapply build_index_only, Hbuild. }
    pose proof (ctx_rel_set_both p1 b2 n subobj ret Hrel2 Hsim) as Hrel3.
    destruct (IH Hall Hnames Hdist _ _ _ _ _ _ _ (out ++ d)%list H Hrel3)
      as (data & bf & Hb & Hin' & Hrelf).
    { intros m Hm Hst.
      destruct p1 as [|fr1 pp]; [reflexivity|]. cbn [ctx_set hd].
      rewrite dict_get_set_other by (intros ->; contradiction).
      change fr1 with (hd [] (fr1 :: pp)).
      rewrite <- (index_only_hd _ _ m Hio (stable_not_index m Hst)).
      apply Hfresh; [now right|exact Hst]. }
    exists (d ++ data)%list, bf.
    split; [rewrite Hb; now rewrite app_assoc|].
    split; [rewrite Hin, Hin'; now rewrite app_assoc|exact Hrelf].
Qed.

(** *** Opening a struct *)

Lemma is_stable_inv (k : string) :
  is_stable k = true -> ~ In k volatile_keys.
Proof.
  unfold is_stable. intros H Hin. apply negb_true_iff in H.
  assert (Ht : existsb (String.eqb k) volatile_keys = true).
  { apply existsb_exists. exists k. split; [exact Hin|apply String.eqb_refl]. }
  congruence.
Qed.

Lemma new_frame_stable (subcons : list (string * Construct)) (ctx : context)
  (fr : frame) (k : string) :
  new_frame subcons ctx = Ok fr ->
  is_stable k = true ->
  (k = "_" /\ dict_get k fr = Some (CLink (List.length ctx)))
  \/ dict_get k fr = None.
Proof.
  intros Hfr Hk. pose proof (new_frame_keys _ _ _ Hfr) as Hkeys.
  destruct (String.eqb_spec k "_") as [->|Hne].
  - left. split; [reflexivity|].
    unfold new_frame in Hfr.
    destruct (ctx_attr "_params" ctx); cbn [bind] in Hfr; [|discriminate].
    destruct (ctx_attr "_parsing" ctx); cbn [bind] in Hfr; [|discriminate].
    destruct (ctx_attr "_building" ctx); cbn [bind] in Hfr; [|discriminate].
    destruct (ctx_attr "_sizing" ctx); cbn [bind] in Hfr; [|discriminate].
    inversion Hfr. reflexivity.
  - right. apply dict_get_None_iff. rewrite Hkeys.
    apply is_stable_inv in Hk. intros Hin. apply Hk.
    cbn in Hin. cbn. intuition congruence.
Qed.

Lemma dict_update_other (kv : list (string * pyvalue)) :
  forall (d : frame) k,
    dict_get k kv = None ->
    dict_get k (dict_update d (map (fun p => (fst p, CVal (snd p))) kv))
    = dict_get k d.
Proof.
  unfold dict_update.
  induction kv as [|[k0 v0] kv IH]; intros d k; cbn [map fold_left fst snd dict_get].
  - reflexivity.
  - destruct (String.eqb_spec k k0) as [|Hne]; [discriminate|].
    intros Hk. rewrite IH by exact Hk. now apply dict_get_set_other.
Qed.

Lemma dict_update_cases (kv : list (string * pyvalue)) :
  forall (d : frame) k,
    (exists v, dict_get k (dict_update d (map (fun p => (fst p, CVal (snd p))) kv))
               = Some (CVal v))
    \/ dict_get k (dict_update d (map (fun p => (fst p, CVal (snd p))) kv))
       = dict_get k d.
Proof.
  unfold dict_update.
  induction kv as [|[k0 v0] kv IH]; intros d k; cbn [map fold_left fst snd].
  - now right.
  - destruct (IH (dict_set k0 (CVal v0) d) k) as [Hv|Hsame]; [now left|].
    rewrite Hsame.
    destruct (String.eqb_spec k k0) as [->|Hne].
    + left. exists v0. apply dict_get_set_same.
    + right. now apply dict_get_set_other.
Qed.

(** The context that a struct opens for building, with the object's
    fields in it, stands for the one it opens for parsing. *)
Lemma ctx_rel_new_frame (subcons : list (string * Construct)) (p b : context)
  (fr gr : frame) (objf : list (string * pyvalue)) :
  ctx_rel p b ->
  new_frame subcons p = Ok fr ->
  new_frame subcons b = Ok gr ->
  dict_get "_" objf = None ->
  ctx_rel (fr :: p)
    (dict_update gr (map (fun q => (fst q, CVal (snd q))) objf) :: b).
Proof.
  intros (Hlp & Hlb & Hab & Hsim) Hfr Hgr Hobj.
  set (gr' := dict_update gr _).
  assert (Hgr' : forall k, (exists v, dict_get k gr' = Some (CVal v))
                           \/ dict_get k gr' = dict_get k gr)
    by (intros k; apply dict_update_cases).
  split; [|split; [|split]].
  - cbn. intros k d Hk Hget.
    destruct (new_frame_stable _ _ _ k Hfr Hk) as [[-> Hl]|Hn]; [|congruence].
    rewrite Hl in Hget. inversion Hget. auto.
  - cbn. intros k d Hk Hget.
    destruct (Hgr' k) as [[v Hv]|Hsame]; [congruence|].
    rewrite Hsame in Hget.
    destruct (new_frame_stable _ _ _ k Hgr Hk) as [[-> Hl]|Hn]; [|congruence].
    rewrite Hl in Hget. inversion Hget. auto.
  - apply attrs_ok_iff. exists gr', b. split; [reflexivity|].
    pose proof (new_frame_keys _ _ _ Hgr) as Hkeys.
    assert (Hin : forall k, In k reserved_keys -> dict_get k gr' <> None).
    { intros k Hk. destruct (Hgr' k) as [[v Hv]|Hsame]; [congruence|].
      rewrite Hsame. intros Hnone. apply dict_get_None_iff in Hnone.
      apply Hnone. now rewrite Hkeys. }
    repeat split; apply Hin; cbn; tauto.
  - intros parts s Hst Hs Hres.
    destruct parts as [|k ps]; [discriminate|].
    cbn [forallb] in Hst. apply andb_true_iff in Hst as [Hk Hps].
    cbn [resolver node_getitem ctx_getitem] in Hres |- *.
    destruct (new_frame_stable _ _ _ k Hfr Hk) as [[-> Hl]|Hn];
      [|rewrite Hn in Hres; discriminate].
    rewrite Hl in Hres. cbn [bind] in Hres.
    unfold ctx_at in Hres. cbn [List.length] in Hres.
    replace (S (List.length p) - List.length p)%nat with 1%nat in Hres by lia.
    cbn [skipn] in Hres.
    assert (Hl' : dict_get "_" gr' = Some (CLink (List.length b))).
    { subst gr'. rewrite dict_update_other by exact Hobj.
      destruct (new_frame_stable _ _ _ "_" Hgr Hk) as [[_ Hg]|Hg]; [exact Hg|].
      apply dict_get_None_iff in Hg. rewrite (new_frame_keys _ _ _ Hgr) in Hg.
      exfalso. apply Hg. now left. }
    rewrite Hl'. cbn [bind]. unfold ctx_at. cbn [List.length].
    replace (S (List.length b) - List.length b)%nat with 1%nat by lia.
    cbn [skipn]. now apply Hsim.
Qed.

Lemma dict_get_frame_object (fr : frame) (k : string) :
  dict_get k (match frame_object fr with VContainer kv => kv | _ => [] end)
  = match dict_get k fr with
    | Some (CVal v) => Some v
    | Some (CLink _) => Some (VOther "<Container>")
    | None => None
    end.
Proof.
  cbn [frame_object].
  induction fr as [|[k0 c] fr IH]; cbn [map dict_get fst snd]; [reflexivity|].
  destruct (String.eqb k k0); [destruct c; reflexivity|exact IH].
Qed.

(** *** Structs *)

Lemma struct_round_trip (subcons : list (string * Construct)) :
  Forall (fun sc => round_trips (snd sc)) subcons ->
  forallb name_ok (map fst subcons) = true ->
  distinct (map fst subcons) = true ->
  round_trips (Struct subcons).
Proof.
  intros Hall Hn Hd fuel input p p' v rest b Hp Hrel.
  cbn [parse] in Hp.
  destruct (new_frame subcons p) as [fr|e] eqn:Hfr; [|discriminate].
  destruct (parse_fields (parse fuel) subcons [("_io", stream_object)] input
              (fr :: p)) as [pf r] eqn:Hpf.
  cbn [snd] in Hp. inversion Hp; subst p' r. clear Hp.
  destruct (parse_fields_done _ _ _ _ _ _ _ _ Hpf) as [objf ->].
  assert (Hnot : ~ In "_" (map fst subcons)).
  { intros Hin. rewrite forallb_forall in Hn. apply Hn in Hin. discriminate Hin. }
  assert (Hunder : dict_get "_" objf = None).
  { destruct (dict_get "_" objf) eqn:E; [|reflexivity].
    destruct (parse_fields_keys _ _ _ _ _ _ _ _ "_" Hpf) as [H|H].
    - rewrite E. discriminate.
    - now elim H.
    - contradiction. }
  pose proof Hrel as (_ & _ & Hab & _).
  destruct (new_frame_of_attrs subcons b Hab) as [gr Hgr].
  pose proof (ctx_rel_new_frame subcons p b fr gr objf Hrel Hfr Hgr Hunder) as Hrel'.
  destruct (fields_loop fuel subcons Hall Hn Hd _ _ _ _ _ _ _ [] Hpf Hrel')
    as (data & bf & Hb & Hin & Hrelf).
  { intros n Hin Hst. cbn [hd].
    destruct (new_frame_stable _ _ _ n Hfr Hst) as [[-> _]|H]; [contradiction|exact H]. }
  exists (frame_object (hd [] bf)), data, b. split; [|split; [exact Hin|]].
  - cbn [build]. rewrite Hgr. cbn [bind mapping_of]. rewrite Hb. reflexivity.
  - intros parts s Hst Hs Hres. destruct parts as [|k ps].
    + cbn in Hres. inversion Hres; subst s. discriminate Hs.
    + cbn [forallb] in Hst. apply andb_true_iff in Hst as [Hk Hps].
      cbn [resolver node_getitem py_getitem] in Hres |- *.
      destruct (dict_get k objf) as [w|] eqn:Hget; cbn [bind] in Hres; [|discriminate].
      destruct (parse_fields_obj_ctx fuel _ _ _ _ _ _ _ Hpf) as [Hne Hobj];
        [discriminate| |].
      { intros k0 v0 Hk0 Hg0. cbn [dict_get fst snd] in Hg0.
        destruct (String.eqb_spec k0 "_io") as [->|_]; discriminate. }
      pose proof (Hobj k w Hk Hget) as Hpfk.
      assert (Hp1 : resolver (k :: ps) (NCtx pf) = Ok (NVal s)).
      { cbn [resolver node_getitem]. unfold ctx_getitem.
        destruct pf as [|fp pp]; [contradiction|].
        cbn [hd] in Hpfk. rewrite Hpfk. exact Hres. }
      destruct Hrelf as (_ & Hlbf & _ & Hsimf).
      assert (Hst' : forallb is_stable (k :: ps) = true)
        by (cbn [forallb]; now rewrite Hk, Hps).
      pose proof (Hsimf (k :: ps) s Hst' Hs Hp1) as Hb1.
      cbn [resolver node_getitem] in Hb1. unfold ctx_getitem in Hb1.
      destruct bf as [|fb bb]; [discriminate|].
      pose proof (dict_get_frame_object fb k) as Hfo.
      cbn [frame_object] in Hfo. cbn [hd frame_object py_getitem]. rewrite Hfo.
      destruct (dict_get k fb) as [[u|d]|] eqn:Hgb; [exact Hb1| |discriminate].
      destruct (Hlbf k d Hk Hgb) as [-> _]. congruence.
Qed.

Lemma parse_greedy_done (p : list byte -> context -> parsed) :
  forall n i acc input ctx ctx' v rest,
    parse_greedy p n i acc input ctx = (ctx', Done (v, rest)) ->
    exists l, v = VList l.
Proof.
  induction n as [|n IH]; intros i acc input ctx ctx' v rest; cbn [parse_greedy].
  - discriminate.
  - destruct (p input _) as [ctx1 [[e input']| |]]; try discriminate.
    + apply IH.
    + intros H. inversion H. eauto.
Qed.

Lemma lossless_fields (subcons : list (string * Construct)) :
  Forall (fun sc => lossless (snd sc) = true -> round_trips (snd sc)) subcons ->
  (fix all (scs : list (string * Construct)) : bool :=
     match scs with
     | [] => true
     | (_, sc) :: scs' => lossless sc && all scs'
     end) subcons = true ->
  Forall (fun sc => round_trips (snd sc)) subcons.
Proof.
  induction 1 as [|[n sc] scs Hsc _ IH]; intros Hall; constructor.
  - apply andb_true_iff in Hall as [H _]. now apply Hsc.
  - apply andb_true_iff in Hall as [_ H]. now apply IH.
Qed.

Lemma array_round_trip (count : count_expr) (subcon : Construct) :
  match count with
  | CountLit _ => true
  | CountPath parts => forallb is_stable parts
  end = true ->
  round_trips subcon ->
  round_trips (Array count subcon).
Proof.
  intros Hc IH fuel input p p' v rest b Hp Hrel.
  cbn [parse] in Hp. unfold parse_count in Hp.
  destruct (evaluate count p) as [n|e] eqn:Hev; cbn [bind] in Hp; [|discriminate].
  destruct (count_of_node n) as [z|e] eqn:Hcn; [|discriminate].
  pose proof Hp as Hp0.
  apply parse_array_done in Hp0 as (items0 & -> & Hlen0). cbn [rev app] in Hp.
  destruct (array_loop subcon fuel IH _ _ _ _ _ _ _ _ b [] [] Hp Hrel)
    as (items & data & b' & rets' & Hl & Hlen & Hb & Hin).
  cbn [rev app] in Hl, Hb. subst items0.
  assert (Hcount : exists s, n = NVal s /\ is_count_value s = true).
  { apply count_of_node_ok in Hcn as [[-> _]|[bo [-> _]]]; eauto. }
  destruct Hcount as (s & -> & Hs).
  assert (Hevb : evaluate count b = Ok (NVal s)).
  { destruct count as [lit|parts]; [exact Hev|].
    cbn [evaluate] in Hev |- *.
    destruct Hrel as (_ & _ & _ & Hsim). now apply Hsim. }
  exists (VList rets'), data, b'.
  split; [|split; [exact Hin|apply list_values_sim]].
  cbn [build rev app]. rewrite Hevb. cbn [bind items_of].
  apply count_of_node_ok in Hcn as [[Heq Hz]|[bo [Heq ->]]];
    inversion Heq; subst s; cbn [build_count].
  - destruct (Z.ltb_spec z 0) as [|_]; [lia|]. cbn [bind].
    replace (Z.of_nat (List.length items) =? z) with true
      by (symmetry; apply Z.eqb_eq; lia).
    cbn [bind]. exact Hb.
  - cbn [bind].
    replace (Z.of_nat (List.length items) =? Z.b2z bo) with true
      by (symmetry; apply Z.eqb_eq; destruct bo; cbn in *; lia).
    cbn [bind]. exact Hb.
Qed.

(** ** Round trip: every lossless codec *)

Lemma lossless_round_trips : forall con, lossless con = true -> round_trips con.
Proof.
  intros con. pattern con. apply Construct_nested_ind; clear con.
  - intros subcons IH Hl. cbn [lossless] in Hl.
    apply andb_true_iff in Hl as [Hl Hall].
    apply andb_true_iff in Hl as [Hn Hd].
    apply struct_round_trip; [|exact Hn|exact Hd].
    now apply lossless_fields.
  - intros count subcon IH Hl. cbn [lossless] in Hl.
    apply andb_true_iff in Hl as [Hc Hsub].
    apply array_round_trip; auto.
  - intros subcon IH Hl. cbn [lossless] in Hl. specialize (IH Hl).
    intros fuel input p p' v rest b Hp Hrel. cbn [parse] in Hp.
    destruct (parse_greedy_done _ _ _ _ _ _ _ _ _ Hp) as [l ->].
    destruct (greedy_loop subcon fuel IH _ _ _ _ _ _ _ _ b [] [] Hp Hrel)
      as (items & data & b' & rets' & Hl' & Hb & Hin).
    cbn [rev app] in Hl', Hb. subst l.
    exists (VList rets'), data, b'.
    split; [exact Hb|]. split; [exact Hin|apply list_values_sim].
  - intros e c Hl. cbn [lossless] in Hl. apply negb_true_iff in Hl.
    intros fuel input p p' v rest b Hp Hrel. cbn [parse] in Hp.
    destruct (stream_read _ input) as [[data rest']|ex] eqn:Hread;
      cbn [bind of_result] in Hp; [|discriminate].
    inversion Hp; subst p' v rest'. clear Hp.
    apply stream_read_ok in Hread as [Hin Hlen].
    exists (unpack e c data), data, b.
    split; [|split; [exact Hin|apply node_sim_refl]].
    cbn [build]. rewrite pack_unpack by (exact Hl || lia). reflexivity.
  - intros length _ fuel input p p' v rest b Hp Hrel. cbn [parse] in Hp.
    destruct (stream_read _ input) as [[data rest']|ex] eqn:Hread;
      cbn [bind of_result] in Hp; [|discriminate].
    inversion Hp; subst p' v rest'. clear Hp.
    apply stream_read_ok in Hread as [Hin Hlen].
    exists (VBytes data), data, b.
    split; [|split; [exact Hin|apply node_sim_refl]].
    cbn [build]. rewrite Hlen, Z.eqb_refl. reflexivity.
  - intros length encoding Hl. cbn [lossless] in Hl.
    intros fuel input p p' v rest b Hp Hrel. cbn [parse] in Hp.
    destruct (length <? 0) eqn:Hneg; [discriminate|].
    destruct (stream_read _ input) as [[data rest']|ex] eqn:Hread;
      cbn [bind of_result] in Hp; [|discriminate].
    rewrite (encodingunit_ascii _ Hl) in Hp. cbn [bind] in Hp.
    destruct (null_strip 1 data) as [stripped|ex] eqn:Hstrip;
      cbn [bind] in Hp; [|discriminate].
    destruct (StringEncoded_decode encoding stripped) as [text|ex] eqn:Hdec;
      cbn [bind of_result] in Hp; [|discriminate].
    inversion Hp; subst p' v rest'. clear Hp.
    destruct (padded_string_round_trip _ _ _ _ _ _ _ Hl Hread Hstrip Hdec)
      as (enc & Henc & Hpad & Hdata).
    apply stream_read_ok in Hread as [Hin _].
    exists text, data, b.
    split; [|split; [exact Hin|apply node_sim_refl]].
    cbn [build]. rewrite Henc. cbn [bind]. rewrite Hneg, Hpad, Hdata. reflexivity.
  - intros length signed swapped Hl. discriminate Hl.
  - intros size_bits bit_flags subcon _ Hl.
    destruct subcon as [| | | | | |length signed swapped| | |]; try discriminate Hl.
    destruct signed; [discriminate Hl|]. destruct swapped; [discriminate Hl|].
    intros fuel input p p' v rest b Hp Hrel.
    destruct (bitfield_round_trip _ _ _ Hl fuel input p p' v rest b Hp)
      as (data & Hb & Hin).
    exists v, data, b. split; [exact Hb|]. split; [exact Hin|apply node_sim_refl].
  - intros subcon scale _ Hl. discriminate Hl.
  - intros subcon bit_position _ Hl. discriminate Hl.
Qed.

(** ** Round trip: from the top *)

Lemma top_context_stable (parsing : bool) (k : string) :
  is_stable k = true -> dict_get k (hd [] (top_context parsing)) = None.
Proof.
  intros Hk. apply is_stable_inv in Hk. apply dict_get_None_iff.
  intros Hin. apply Hk. cbn in Hin. cbn. intuition congruence.
Qed.

Lemma top_contexts_rel : ctx_rel (top_context true) (top_context false).
Proof.
  split; [|split; [|split]].
  - intros k d Hk Hget.
    change (dict_get k (hd [] (top_context true)) = Some (CLink d)) in Hget.
    rewrite (top_context_stable true k Hk) in Hget. discriminate.
  - intros k d Hk Hget.
    change (dict_get k (hd [] (top_context false)) = Some (CLink d)) in Hget.
    rewrite (top_context_stable false k Hk) in Hget. discriminate.
  - eexists. reflexivity.
  - intros parts s Hst Hs Hres. destruct parts as [|k ps]; [discriminate|].
    cbn [forallb] in Hst. apply andb_true_iff in Hst as [Hk _].
    cbn [resolver node_getitem] in Hres. unfold ctx_getitem in Hres.
    change (top_context true) with (hd [] (top_context true) :: []) in Hres.
    cbv iota in Hres.
    rewrite (top_context_stable true k Hk) in Hres. discriminate.
Qed.

(** C1.  Byte-exact round trip.  Let a schema compile to a codec that
    is lossless: structs whose fields have distinct names, none empty or
    ["_"]; arrays counted by a literal or by a path of field names and
    ["_"], and arrays to the end of the file; the integer primitives; byte
    strings; ASCII text; bitfields whose named flags tile a whole number of
    bytes from bit 0 -- so no scaled primitive, no [char], no float.  If
    the codec decodes an input to a value and leaves [rest] unread, then it
    encodes that value, and to exactly the bytes that it read; when
    nothing is left unread, these are the input. *)
Theorem lossless_schema_round_trip (s : schema) (con : Construct) (fuel : nat)
  (input rest : list byte) (v : pyvalue) :
  build_struct_from_schema s = Ok con ->
  lossless con = true ->
  parse_stream fuel con input = Done (v, rest) ->
  (exists data, build_bytes con v = Ok data /\ input = (data ++ rest)%list)
  /\ (rest = [] -> build_bytes con v = Ok input).
Proof.
  intros _ Hl Hp. unfold parse_stream in Hp.
  destruct (parse fuel con input (top_context true)) as [p' r] eqn:Hparse.
  cbn [snd] in Hp. subst r.
  destruct (lossless_round_trips con Hl _ _ _ _ _ _ _ Hparse top_contexts_rel)
    as (ret & data & b' & Hb & Hin & _).
  assert (Hbytes : build_bytes con v = Ok data).
  { unfold build_bytes. rewrite Hb. reflexivity. }
  split; [now exists data|].
  intros ->. rewrite app_nil_r in Hin. now subst data.
Qed.

End Results.

(** * Further properties

    What the code does beyond the statements above: the bitfield adapter
    in both directions, the scale adapter at its edges, the compiler's
    invariants, path resolution among the fields of a struct, the
    normalizer, the loader and the choice of a parser for a file. *)

Section Behaviour.
Context {host : HostCodecs} {text : HostText}.

(** ** Bitfields: bits and fields *)

Lemma lor_shifted_field (value field s w : Z) :
  0 <= s -> 0 <= w -> 0 <= value < 2 ^ s -> 0 <= field < 2 ^ w ->
  Z.lor value (Z.shiftl field s) = value + field * 2 ^ s
  /\ 0 <= value + field * 2 ^ s < 2 ^ (s + w).
Proof.
  intros Hs Hw Hv Hf. split.
  - rewrite Z.shiftl_mul_pow2 by lia.
    assert (Hland : Z.land value (field * 2 ^ s) = 0).
    { apply Z.bits_inj'. intros p Hp. rewrite Z.land_spec, Z.bits_0.
      destruct (Z.lt_ge_cases p s) as [Hlt|Hge].
      - rewrite Z.mul_pow2_bits_low by lia. apply andb_false_r.
      - destruct (Z.eq_dec value 0) as [->|Hne]; [now rewrite Z.bits_0|].
        rewrite (Z.bits_above_log2 value p); [reflexivity|lia|].
        apply Z.log2_lt_pow2; [lia|].
        apply Z.lt_le_trans with (2 ^ s); [lia|].
        apply Z.pow_le_mono_r; lia. }
    rewrite <- Z.lxor_lor by exact Hland.
    symmetry. apply Z.add_nocarry_lxor. exact Hland.
  - rewrite Z.pow_add_r by lia. nia.
Qed.

Lemma field_of_mod (v value field s w : Z) :
  0 <= s -> 0 <= w -> 0 <= value < 2 ^ s -> 0 <= field < 2 ^ w ->
  v mod 2 ^ (s + w) = value + field * 2 ^ s ->
  Z.land (Z.shiftr v s) (Z.ones w) = field /\ v mod 2 ^ s = value.
Proof.
  intros Hs Hw Hv Hf Hmod.
  pose proof (Z.pow_pos_nonneg 2 s ltac:(lia) Hs) as Hps.
  pose proof (Z.pow_pos_nonneg 2 w ltac:(lia) Hw) as Hpw.
  pose proof (Z.div_mod v (2 ^ (s + w)) ltac:(rewrite Z.pow_add_r by lia; nia)) as Hdm.
  rewrite Hmod in Hdm. rewrite Z.pow_add_r in Hdm by lia.
  set (q := v / (2 ^ s * 2 ^ w)) in *.
  assert (Hdiv : v / 2 ^ s = q * 2 ^ w + field).
  { symmetry. apply (Z.div_unique v (2 ^ s) _ value); [lia|]. rewrite Hdm. ring. }
  split.
  - rewrite Z.land_ones by lia. rewrite Z.shiftr_div_pow2 by lia. rewrite Hdiv.
    symmetry. apply (Z.mod_unique _ _ q); [lia|ring].
  - symmetry. apply (Z.mod_unique _ _ (q * 2 ^ w + field)); [lia|]. rewrite Hdm. ring.
Qed.

Lemma flag_field_range (w : Z) (entry : option pyvalue) :
  0 <= w -> 0 <= flag_field w entry < 2 ^ w.
Proof.
  intros Hw. pose proof (Z.pow_pos_nonneg 2 w ltac:(lia) Hw) as Hp.
  unfold flag_field. destruct entry as [val|]; [|lia].
  destruct (Z.eqb_spec w 1) as [->|_].
  - destruct (truthy val); cbn; lia.
  - destruct (as_int val) as [z|e]; [|lia]. apply Z.mod_pos_bound. lia.
Qed.

Lemma encode_flags_step (size_bits : Z) (kv : list (string * pyvalue))
  (f : bit_flag) (rest : list bit_flag) (value : Z) (name : string) :
  bf_name f = Some name ->
  0 <= bf_bit f <= flag_end size_bits rest ->
  (forall val, dict_get name kv = Some val -> exists z, as_int val = Ok z) ->
  0 <= value < 2 ^ bf_bit f ->
  encode_flags size_bits (VDict kv) (f :: rest) value
  = encode_flags size_bits (VDict kv) rest
      (value + flag_field (flag_end size_bits rest - bf_bit f) (dict_get name kv)
               * 2 ^ bf_bit f).
Proof.
  intros Hname Hbit Hint Hvalue.
  cbn [encode_flags]. unfold flag_name_of. rewrite Hname.
  cbn [bind py_contains]. unfold dict_mem, py_getitem, py_lshift, flag_field.
  set (w := flag_end size_bits rest - bf_bit f).
  destruct (dict_get name kv) as [val|] eqn:Hget; cbn [negb bind].
  2:{ f_equal. lia. }
  replace (bf_bit f <? 0) with false by (symmetry; apply Z.ltb_ge; lia).
  replace (w <? 0) with false by (symmetry; apply Z.ltb_ge; lia).
  cbn [bind].
  destruct (Z.eqb_spec w 1) as [Hw|Hw].
  - destruct (truthy val); cbn [Z.b2z].
    + f_equal.
      apply (lor_shifted_field value 1 (bf_bit f) 1); lia.
    + f_equal. lia.
  - destruct (Hint val eq_refl) as [z Hz]. rewrite Hz. cbn [bind].
    f_equal. rewrite mask_is_ones. rewrite Z.land_ones by lia.
    assert (Hz' : 0 <= z mod 2 ^ w < 2 ^ w)
      by (apply Z.mod_pos_bound, Z.pow_pos_nonneg; lia).
    apply (lor_shifted_field value (z mod 2 ^ w) (bf_bit f) w); lia.
Qed.

Lemma flag_key_named (f : bit_flag) (name : string) :
  bf_name f = Some name -> flag_key f = name.
Proof. unfold flag_key. now intros ->. Qed.

Lemma encode_flags_fields (size_bits : Z) (kv : list (string * pyvalue)) :
  forall flags value,
    StronglySorted by_bit flags ->
    layout_ok size_bits flags ->
    flag_values_int flags kv ->
    0 <= value < 2 ^ flag_end size_bits flags ->
    exists v,
      encode_flags size_bits (VDict kv) flags value = Ok v
      /\ 0 <= v < 2 ^ size_bits
      /\ v mod 2 ^ flag_end size_bits flags = value
      /\ fields_ok size_bits v kv flags.
Proof.
  induction flags as [|f rest IH]; intros value Hsort Hlay Hint Hvalue.
  - exists value. cbn [flag_end] in *. repeat split; try lia.
    apply Z.mod_small. lia.
  - apply StronglySorted_inv in Hsort as [Hsort Hle].
    apply Forall_cons_iff in Hlay as [[Hnamed Hbit] Hlay].
    destruct (bf_name f) as [name|] eqn:Hname; [|now elim Hnamed].
    cbn [flag_end] in Hvalue.
    assert (Hend : bf_bit f <= flag_end size_bits rest).
    { destruct rest as [|g rest']; cbn [flag_end]; [lia|].
      apply Forall_cons_iff in Hle as [Hfg _]. exact Hfg. }
    set (w := flag_end size_bits rest - bf_bit f).
    set (field := flag_field w (dict_get name kv)).
    pose proof (flag_field_range w (dict_get name kv) ltac:(subst w; lia)) as Hfield.
    fold field in Hfield.
    rewrite (encode_flags_step size_bits kv f rest value name Hname); try lia.
    2:{ intros val Hget. apply (Hint f name val); [now left|exact Hname|exact Hget]. }
    fold w. fold field.
    destruct (lor_shifted_field value field (bf_bit f) w) as [_ Hbound]; try lia.
    replace (bf_bit f + w) with (flag_end size_bits rest) in Hbound by (subst w; lia).
    destruct (IH (value + field * 2 ^ bf_bit f) Hsort Hlay) as (v & Henc & Hv & Hmod & Hrest).
    { intros g n val Hg. apply (Hint g n val). now right. }
    { exact Hbound. }
    exists v. split; [exact Henc|]. split; [exact Hv|].
    destruct (field_of_mod v value field (bf_bit f) w) as [Hland Hlow]; try lia.
    { replace (bf_bit f + w) with (flag_end size_bits rest) by (subst w; lia).
      exact Hmod. }
    cbn [flag_end fields_ok]. split; [exact Hlow|]. split; [|exact Hrest].
    rewrite (flag_key_named f name Hname). exact Hland.
Qed.

Lemma decode_flags_step (size_bits v : Z) (f : bit_flag) (rest : list bit_flag)
  (res : list (string * pyvalue)) :
  bf_name f <> None ->
  0 <= bf_bit f <= flag_end size_bits rest ->
  decode_flags size_bits v (f :: rest) res
  = decode_flags size_bits v rest
      (dict_set (flag_key f) (flag_value size_bits v f rest) res).
Proof.
  intros Hnamed Hbit. cbn [decode_flags]. unfold flag_name_of, flag_key, flag_value.
  destruct (bf_name f) as [name|]; [|now elim Hnamed].
  cbn [bind]. unfold py_rshift, py_lshift. cbv zeta.
  replace (bf_bit f <? 0) with false by (symmetry; apply Z.ltb_ge; lia).
  replace (flag_end size_bits rest - bf_bit f <? 0) with false
    by (symmetry; apply Z.ltb_ge; lia).
  cbn [bind].
  destruct (flag_end size_bits rest - bf_bit f =? 1); reflexivity.
Qed.

Lemma sorted_head_end (size_bits : Z) (f : bit_flag) (rest : list bit_flag) :
  StronglySorted by_bit (f :: rest) ->
  layout_ok size_bits (f :: rest) ->
  0 <= bf_bit f <= flag_end size_bits rest.
Proof.
  intros Hsort Hlay.
  apply StronglySorted_inv in Hsort as [_ Hle].
  apply Forall_cons_iff in Hlay as [[_ Hbit] _].
  destruct rest as [|g rest']; cbn [flag_end]; [lia|].
  apply Forall_cons_iff in Hle as [Hfg _]. unfold by_bit in Hfg. lia.
Qed.

Lemma decode_flags_all (size_bits v : Z) :
  forall flags res,
    StronglySorted by_bit flags ->
    layout_ok size_bits flags ->
    decode_flags size_bits v flags res
    = Ok (dict_update res (decoded_entries size_bits v flags)).
Proof.
  induction flags as [|f rest IH]; intros res Hsort Hlay.
  - reflexivity.
  - pose proof (sorted_head_end size_bits f rest Hsort Hlay) as Hbit.
    rewrite decode_flags_step; [|apply Forall_cons_iff in Hlay; tauto|exact Hbit].
    apply StronglySorted_inv in Hsort as [Hsort _].
    apply Forall_cons_iff in Hlay as [_ Hlay].
    rewrite IH by assumption. reflexivity.
Qed.

Lemma decode_flags_layout (size_bits v : Z) :
  forall flags res res',
    decode_flags size_bits v flags res = Ok res' -> layout_ok size_bits flags.
Proof.
  induction flags as [|f rest IH]; intros res res' H; [constructor|].
  cbn [decode_flags] in H. unfold flag_name_of in H.
  destruct (bf_name f) as [name|] eqn:Hname; [|discriminate H].
  cbn [bind] in H. unfold py_rshift, py_lshift in H.
  assert (Hrest : layout_ok size_bits rest
                  /\ 0 <= bf_bit f <= flag_end size_bits rest).
  { destruct (Z.eqb_spec (flag_end size_bits rest - bf_bit f) 1) as [Hw|Hw].
    - destruct (Z.ltb_spec (bf_bit f) 0); [discriminate H|]. cbn [bind] in H.
      split; [eapply IH, H|lia].
    - destruct (Z.ltb_spec (flag_end size_bits rest - bf_bit f) 0);
        [discriminate H|]. cbn [bind] in H.
      destruct (Z.ltb_spec (bf_bit f) 0); [discriminate H|]. cbn [bind] in H.
      split; [eapply IH, H|lia]. }
  destruct Hrest as [Hlay Hbit]. constructor; [|exact Hlay].
  split; [congruence|].
  destruct rest as [|g rest']; cbn [flag_end] in Hbit; [lia|].
  apply Forall_cons_iff in Hlay as [[_ Hg] _]. lia.
Qed.

Lemma flag_value_field (size_bits v : Z) (f : bit_flag) (rest : list bit_flag) :
  flag_value size_bits v f rest
  = flag_decoded (flag_end size_bits rest - bf_bit f)
      (Z.land (Z.shiftr v (bf_bit f)) (Z.ones (flag_end size_bits rest - bf_bit f))).
Proof.
  unfold flag_value, flag_decoded. cbv zeta.
  destruct (Z.eqb_spec (flag_end size_bits rest - bf_bit f) 1) as [->|_].
  - reflexivity.
  - now rewrite mask_is_ones.
Qed.

Lemma distinct_NoDup (l : list string) : distinct l = true <-> NoDup l.
Proof.
  induction l as [|x l IH]; cbn [distinct].
  - split; [constructor|reflexivity].
  - rewrite andb_true_iff, negb_true_iff, IH. split.
    + intros [Hx Hl]. constructor; [|exact Hl].
      intros Hin. assert (Ht : existsb (String.eqb x) l = true).
      { apply existsb_exists. exists x. split; [exact Hin|apply String.eqb_refl]. }
      congruence.
    + intros Hnd. inversion Hnd as [|? ? Hx Hl]; subst. split; [|exact Hl].
      destruct (existsb (String.eqb x) l) eqn:E; [|reflexivity].
      apply existsb_exists in E as (y & Hy & Hxy).
      apply String.eqb_eq in Hxy. subst y. contradiction.
Qed.

Lemma dict_set_fresh {V : Type} (k : string) (v : V) (d : list (string * V)) :
  ~ In k (map fst d) -> dict_set k v d = (d ++ [(k, v)])%list.
Proof.
  induction d as [|[k' v'] d IH]; cbn [dict_set map fst In app]; intros Hk.
  - reflexivity.
  - destruct (String.eqb_spec k k') as [->|_]; [tauto|].
    rewrite IH by tauto. reflexivity.
Qed.

Lemma dict_update_distinct {V : Type} (e : list (string * V)) :
  forall d, NoDup (map fst (d ++ e)) -> dict_update d e = (d ++ e)%list.
Proof.
  unfold dict_update.
  induction e as [|[k v] e IH]; intros d Hnd; cbn [fold_left fst snd].
  - now rewrite app_nil_r.
  - assert (Hk : ~ In k (map fst d)).
    { rewrite map_app in Hnd. cbn [map fst] in Hnd.
      apply NoDup_remove_2 in Hnd. intros Hin. apply Hnd.
      apply in_or_app. now left. }
    rewrite (dict_set_fresh k v d Hk).
    rewrite IH; rewrite <- app_assoc; [reflexivity|exact Hnd].
Qed.

Lemma dict_get_In {V : Type} (d : list (string * V)) (k : string) (v : V) :
  NoDup (map fst d) -> In (k, v) d -> dict_get k d = Some v.
Proof.
  induction d as [|[k' v'] d IH]; cbn [map fst In dict_get]; intros Hnd Hin;
    [contradiction|].
  inversion Hnd as [|? ? Hk' Hd]; subst.
  destruct Hin as [Heq|Hin].
  - inversion Heq; subst. now rewrite String.eqb_refl.
  - destruct (String.eqb_spec k k') as [->|_]; [|now apply IH].
    elim Hk'. change k' with (fst (k', v)). now apply in_map.
Qed.

Lemma dict_get_Some_In {V : Type} (d : list (string * V)) (k : string) (v : V) :
  dict_get k d = Some v -> In (k, v) d.
Proof.
  induction d as [|[k' v'] d IH]; cbn [dict_get In]; [discriminate|].
  destruct (String.eqb_spec k k') as [->|_].
  - intros H. inversion H. now left.
  - intros H. right. now apply IH.
Qed.

Lemma canonical_decoded (w : Z) (val : pyvalue) :
  0 <= w -> canonical_value w val = true ->
  flag_decoded w (flag_field w (Some val)) = val.
Proof.
  intros Hw Hc. unfold flag_decoded, flag_field.
  destruct val; try discriminate Hc; cbn [canonical_value] in Hc.
  - rewrite Hc. cbn [truthy]. now destruct b.
  - apply andb_true_iff in Hc as [Hc Hhi]. apply andb_true_iff in Hc as [Hw1 Hlo].
    apply negb_true_iff in Hw1. rewrite Hw1. cbn [as_int].
    rewrite Z.mod_small by lia. reflexivity.
Qed.

Lemma canonical_keys (size_bits : Z) :
  forall flags kv,
    canonical_flags size_bits flags kv = true -> map fst kv = map flag_key flags.
Proof.
  induction flags as [|f rest IH]; intros [|[k val] kv] H; try discriminate H.
  - reflexivity.
  - cbn [canonical_flags] in H. apply andb_true_iff in H as [H Hrest].
    apply andb_true_iff in H as [Hk _]. apply String.eqb_eq in Hk.
    cbn [map fst]. now rewrite Hk, (IH kv Hrest).
Qed.

Lemma canonical_as_int (size_bits : Z) :
  forall flags kv k val,
    canonical_flags size_bits flags kv = true -> In (k, val) kv ->
    exists z, as_int val = Ok z.
Proof.
  induction flags as [|f rest IH]; intros [|[k0 val0] kv] k val H Hin;
    try discriminate H; try contradiction.
  cbn [canonical_flags] in H. apply andb_true_iff in H as [H Hrest].
  apply andb_true_iff in H as [_ Hc].
  destruct Hin as [Heq|Hin]; [|now apply (IH kv k val)].
  inversion Heq; subst. destruct val; try discriminate Hc; cbn; eauto.
Qed.

Lemma canonical_entries (size_bits v : Z) (whole : list (string * pyvalue)) :
  forall flags kv,
    canonical_flags size_bits flags kv = true ->
    (forall k val, In (k, val) kv -> dict_get k whole = Some val) ->
    StronglySorted by_bit flags ->
    layout_ok size_bits flags ->
    fields_ok size_bits v whole flags ->
    decoded_entries size_bits v flags = kv.
Proof.
  induction flags as [|f rest IH]; intros [|[k val] kv] H Hget Hsort Hlay Hf;
    try discriminate H; [reflexivity|].
  pose proof (sorted_head_end size_bits f rest Hsort Hlay) as Hbit.
  cbn [canonical_flags] in H. apply andb_true_iff in H as [H Hrest].
  apply andb_true_iff in H as [Hk Hc]. apply String.eqb_eq in Hk. subst k.
  destruct Hf as [Hhead Hf].
  apply StronglySorted_inv in Hsort as [Hsort _].
  apply Forall_cons_iff in Hlay as [_ Hlay].
  cbn [decoded_entries]. f_equal.
  - f_equal. rewrite flag_value_field, Hhead.
    rewrite (Hget (flag_key f) val) by now left.
    apply canonical_decoded; [lia|exact Hc].
  - apply IH; auto. intros k0 val0 Hin. apply Hget. now right.
Qed.

Lemma byte_of_Z_value (z : Z) : Z.of_N (Byte.to_N (byte_of_Z z)) = z mod 256.
Proof.
  unfold byte_of_Z.
  pose proof (Z.mod_pos_bound z 256 ltac:(lia)) as Hm.
  destruct (Byte.of_N (Z.to_N (z mod 256))) as [b|] eqn:E.
  - apply Byte.to_of_N in E. rewrite E. lia.
  - apply Byte.of_N_None_iff in E. lia.
Qed.

Lemma int_from_to_bytes_little (n : nat) :
  forall z, int_from_bytes_little (int_to_bytes_little n z) = z mod 256 ^ Z.of_nat n.
Proof.
  induction n as [|n IH]; intros z;
    cbn [int_to_bytes_little int_from_bytes_little].
  - cbn. now rewrite Z.mod_1_r.
  - rewrite byte_of_Z_value, IH.
    rewrite Nat2Z.inj_succ, Z.pow_succ_r by lia.
    rewrite Z.rem_mul_r by (try apply Z.pow_nonzero; lia).
    reflexivity.
Qed.

Lemma int_from_to_bytes_big (n : nat) (z : Z) :
  0 <= z < 256 ^ Z.of_nat n ->
  int_from_bytes_big (int_to_bytes_big n z) = z.
Proof.
  intros Hz. unfold int_from_bytes_big, int_to_bytes_big.
  rewrite rev_involutive, int_from_to_bytes_little. now apply Z.mod_small.
Qed.

Lemma stream_read_app (n : Z) (data rest : list byte) :
  Z.of_nat (List.length data) = n ->
  stream_read n (data ++ rest) = Ok (data, rest).
Proof.
  intros <-. unfold stream_read. rewrite length_app, Nat2Z.id.
  replace ((0 <=? Z.of_nat (List.length data))
           && (Z.of_nat (List.length data)
               <=? Z.of_nat (List.length data + List.length rest))) with true
    by (symmetry; apply andb_true_iff; split; apply Z.leb_le; lia).
  rewrite firstn_app, Nat.sub_diag, firstn_all, firstn_O, app_nil_r.
  rewrite skipn_app, Nat.sub_diag, skipn_all, skipn_O. reflexivity.
Qed.

Lemma flags_with_bit_In (fl : list flag) (g : bit_flag) :
  In g (flags_with_bit fl)
  <-> exists f, In f fl /\ flag_bit f = Some (bf_bit g) /\ flag_name f = bf_name g.
Proof.
  induction fl as [|f fl IH]; cbn [flags_with_bit In].
  - split; [contradiction|]. intros (f & [] & _).
  - destruct (flag_bit f) as [b|] eqn:Hb.
    + cbn [In]. rewrite IH. split.
      * intros [<-|(f' & Hin & H)]; [exists f; cbn; auto|exists f'; auto].
      * intros (f' & [<-|Hin] & Hbit & Hname).
        -- left. destruct g as [n b']. cbn in *. congruence.
        -- right. exists f'. auto.
    + rewrite IH. split.
      * intros (f' & Hin & H). exists f'. auto.
      * intros (f' & [<-|Hin] & Hbit & Hname); [congruence|exists f'; auto].
Qed.

Lemma layout_of_flags (size_bits : Z) (fl : list flag) :
  layout_ok size_bits (sorted_by_bit (flags_with_bit fl))
  <-> Forall (flag_fits size_bits) fl.
Proof.
  unfold layout_ok. rewrite !Forall_forall. split.
  - intros H f Hin. unfold flag_fits.
    destruct (flag_bit f) as [b|] eqn:Hb; [|exact I].
    destruct (H (BitFlag (flag_name f) b)) as [Hn Hbit].
    { apply sorted_by_bit_In, flags_with_bit_In. exists f. cbn. auto. }
    cbn in *. auto.
  - intros H g Hin.
    apply sorted_by_bit_In, flags_with_bit_In in Hin as (f & Hin & Hbit & Hname).
    specialize (H f Hin). unfold flag_fits in H. rewrite Hbit in H.
    rewrite <- Hname. exact H.
Qed.

Lemma decoded_entries_keys (size_bits v : Z) (flags : list bit_flag) :
  map fst (decoded_entries size_bits v flags) = map flag_key flags.
Proof.
  induction flags as [|f rest IH]; cbn [decoded_entries map fst]; [reflexivity|].
  now rewrite IH.
Qed.

Lemma byte_count (size_bits : Z) :
  0 < size_bits ->
  0 < (size_bits + 7) / 8 /\ size_bits <= 8 * ((size_bits + 7) / 8).
Proof.
  intros Hs. pose proof (Z.div_mod (size_bits + 7) 8 ltac:(lia)) as Hdm.
  pose proof (Z.mod_pos_bound (size_bits + 7) 8 ltac:(lia)) as Hm. lia.
Qed.

Lemma bitfield_parse_bytes (size_bits : Z) (flags : list bit_flag)
  (fuel : nat) (v : Z) (rest : list byte) (ctx : context) :
  0 < size_bits -> 0 <= v < 2 ^ size_bits ->
  parse fuel (BitFieldAdapter size_bits flags
                (BytesInteger ((size_bits + 7) / 8) false false))
    (int_to_bytes_big (Z.to_nat ((size_bits + 7) / 8)) v ++ rest) ctx
  = (ctx, match BitFieldAdapter_decode size_bits flags (VInt v) with
          | Ok obj => Done (obj, rest)
          | Raise e => Fail e
          end).
Proof.
  intros Hs Hv. destruct (byte_count size_bits Hs) as [Hlen Hle].
  cbn [parse].
  replace ((size_bits + 7) / 8 <=? 0) with false by (symmetry; apply Z.leb_gt; lia).
  rewrite stream_read_app.
  2:{ unfold int_to_bytes_big. rewrite length_rev, int_to_bytes_little_length. lia. }
  cbn [bind of_result adapt]. unfold BytesInteger_decode.
  rewrite int_from_to_bytes_big;
    [now destruct (BitFieldAdapter_decode size_bits flags (VInt v))|].
  rewrite Z2Nat.id by lia. rewrite pow_256 by lia.
  split; [lia|]. apply Z.lt_le_trans with (2 ^ size_bits); [lia|].
  apply Z.pow_le_mono_r; lia.
Qed.

Lemma bitfield_build_bytes (size_bits : Z) (flags : list bit_flag)
  (obj : pyvalue) (v : Z) :
  0 < size_bits -> 0 <= v < 2 ^ size_bits ->
  BitFieldAdapter_encode size_bits flags obj = Ok (VInt v) ->
  build_bytes (BitFieldAdapter size_bits flags
                 (BytesInteger ((size_bits + 7) / 8) false false)) obj
  = Ok (int_to_bytes_big (Z.to_nat ((size_bits + 7) / 8)) v).
Proof.
  intros Hs Hv Henc. destruct (byte_count size_bits Hs) as [Hlen Hle].
  unfold build_bytes. cbn [build]. rewrite Henc. cbn [bind as_int].
  replace ((size_bits + 7) / 8 <=? 0) with false by (symmetry; apply Z.leb_gt; lia).
  replace ((0 <=? v) && (v <? 2 ^ (8 * ((size_bits + 7) / 8)))) with true.
  - reflexivity.
  - symmetry. apply andb_true_iff. split; [apply Z.leb_le; lia|].
    apply Z.ltb_lt. apply Z.lt_le_trans with (2 ^ size_bits); [lia|].
    apply Z.pow_le_mono_r; lia.
Qed.

Lemma fields_ok_at (size_bits v : Z) (kv : list (string * pyvalue)) :
  forall pre f post,
    fields_ok size_bits v kv (pre ++ f :: post) ->
    Z.land (Z.shiftr v (bf_bit f)) (Z.ones (flag_end size_bits post - bf_bit f))
    = flag_field (flag_end size_bits post - bf_bit f) (dict_get (flag_key f) kv).
Proof.
  induction pre as [|g pre IH]; intros f post; cbn [app fields_ok].
  - tauto.
  - intros [_ H]. now apply IH.
Qed.

Lemma decoded_entries_at (size_bits v : Z) :
  forall pre f post,
    In (flag_key f, flag_value size_bits v f post)
       (decoded_entries size_bits v (pre ++ f :: post)).
Proof.
  induction pre as [|g pre IH]; intros f post; cbn [app decoded_entries In].
  - now left.
  - right. apply IH.
Qed.

Lemma land_shiftr_mod (v s w size_bits : Z) :
  0 <= s -> 0 <= w -> s + w <= size_bits ->
  Z.land (Z.shiftr (v mod 2 ^ size_bits) s) (Z.ones w)
  = Z.land (Z.shiftr v s) (Z.ones w).
Proof.
  intros Hs Hw Hle. apply Z.bits_inj'. intros p Hp.
  rewrite !Z.land_spec, !Z.shiftr_spec by lia.
  destruct (Z.lt_ge_cases p w) as [Hlt|Hge].
  - rewrite Z.mod_pow2_bits_low by lia. reflexivity.
  - rewrite Z.ones_spec_high by lia. now rewrite !andb_false_r.
Qed.

Lemma flag_end_le (size_bits : Z) (flags : list bit_flag) :
  layout_ok size_bits flags -> flags <> [] \/ 0 <= size_bits ->
  0 <= flag_end size_bits flags <= size_bits.
Proof.
  intros Hlay Hne. destruct flags as [|g rest]; cbn [flag_end].
  - destruct Hne as [Hne|Hs]; [now elim Hne|lia].
  - apply Forall_cons_iff in Hlay as [[_ Hg] _]. exact Hg.
Qed.

Lemma decoded_entries_mod (size_bits v : Z) :
  forall flags,
    StronglySorted by_bit flags ->
    layout_ok size_bits flags ->
    decoded_entries size_bits (v mod 2 ^ size_bits) flags
    = decoded_entries size_bits v flags.
Proof.
  induction flags as [|f rest IH]; intros Hsort Hlay; [reflexivity|].
  pose proof (sorted_head_end size_bits f rest Hsort Hlay) as Hbit.
  apply StronglySorted_inv in Hsort as [Hsort _].
  pose proof Hlay as Hlay0.
  apply Forall_cons_iff in Hlay as [[_ Hf] Hlay].
  cbn [decoded_entries]. rewrite IH by assumption. f_equal. f_equal.
  rewrite !flag_value_field. f_equal.
  apply land_shiftr_mod; try lia.
  destruct (flag_end_le size_bits rest Hlay ltac:(right; lia)). lia.
Qed.

Lemma decode_flags_raise (size_bits : Z) :
  forall flags v v' res res' e,
    decode_flags size_bits v flags res = Raise e ->
    decode_flags size_bits v' flags res' = Raise e.
Proof.
  induction flags as [|f rest IH]; intros v v' res res' e; cbn [decode_flags].
  - discriminate.
  - destruct (flag_name_of f) as [name|e0]; cbn [bind]; [|exact (fun H => H)].
    unfold py_rshift, py_lshift.
    destruct (flag_end size_bits rest - bf_bit f =? 1).
    + destruct (bf_bit f <? 0); cbn [bind]; [exact (fun H => H)|]. apply IH.
    + destruct (flag_end size_bits rest - bf_bit f <? 0); cbn [bind];
        [exact (fun H => H)|].
      destruct (bf_bit f <? 0); cbn [bind]; [exact (fun H => H)|]. apply IH.
Qed.

Lemma encode_flags_ext (size_bits : Z) (kv kv' : list (string * pyvalue)) :
  forall flags value,
    (forall f, In f flags -> dict_get (flag_key f) kv = dict_get (flag_key f) kv') ->
    encode_flags size_bits (VDict kv) flags value
    = encode_flags size_bits (VDict kv') flags value.
Proof.
  induction flags as [|f rest IH]; intros value Hsame; [reflexivity|].
  cbn [encode_flags]. unfold flag_name_of.
  pose proof (Hsame f ltac:(now left)) as Hf. unfold flag_key in Hf.
  assert (Hrest : forall value',
             encode_flags size_bits (VDict kv) rest value'
             = encode_flags size_bits (VDict kv') rest value').
  { intros value'. apply IH. intros g Hg. apply Hsame. now right. }
  destruct (bf_name f) as [name|]; [|reflexivity].
  cbn [bind py_contains]. unfold dict_mem, py_getitem. rewrite Hf.
  destruct (dict_get name kv') as [val|]; cbn [negb bind]; [|apply Hrest].
  destruct (flag_end size_bits rest - bf_bit f =? 1).
  - destruct (truthy val); [|apply Hrest].
    destruct (py_lshift 1 (bf_bit f)); cbn [bind]; [apply Hrest|reflexivity].
  - destruct (py_lshift 1 (flag_end size_bits rest - bf_bit f)); cbn [bind];
      [|reflexivity].
    destruct (as_int val); cbn [bind]; [|reflexivity].
    destruct (py_lshift _ (bf_bit f)); cbn [bind]; [apply Hrest|reflexivity].
Qed.

(** ** Bitfields: when decoding succeeds

    Whether the adapter decodes an integer depends on the layout only,
    never on the integer: it does exactly when every flag of the schema
    that has a bit also has a name and a bit between 0 and the width.
    Nothing of this is checked when the schema is compiled. *)
Theorem bitfield_decodes_iff_flags_fit (size_bits v : Z) (fl : list flag) :
  (exists res,
     BitFieldAdapter_decode size_bits (sorted_by_bit (flags_with_bit fl)) (VInt v)
     = Ok (VDict res))
  <-> Forall (flag_fits size_bits) fl.
Proof.
  rewrite <- layout_of_flags. unfold BitFieldAdapter_decode. cbn [py_int bind].
  split.
  - intros [res H].
    destruct (decode_flags size_bits v _ []) as [res'|e] eqn:Hdec; [|discriminate H].
    eapply decode_flags_layout, Hdec.
  - intros Hlay. eexists.
    rewrite decode_flags_all; [reflexivity|apply sorted_by_bit_sorted|exact Hlay].
Qed.

(** ** Bitfields: encoding, then decoding *)
Lemma bitfield_encode_decode (size_bits : Z) (fl : list flag)
  (kv : list (string * pyvalue)) :
  0 < size_bits ->
  Forall (flag_fits size_bits) fl ->
  flag_values_int (sorted_by_bit (flags_with_bit fl)) kv ->
  exists v,
    0 <= v < 2 ^ size_bits
    /\ fields_ok size_bits v kv (sorted_by_bit (flags_with_bit fl))
    /\ build_bytes (build_bitfield_struct (Some size_bits) (Some fl)) (VDict kv)
       = Ok (int_to_bytes_big (Z.to_nat ((size_bits + 7) / 8)) v)
    /\ forall fuel rest,
         parse_stream fuel (build_bitfield_struct (Some size_bits) (Some fl))
           (int_to_bytes_big (Z.to_nat ((size_bits + 7) / 8)) v ++ rest)
         = Done (VDict (dict_update []
                          (decoded_entries size_bits v
                             (sorted_by_bit (flags_with_bit fl)))), rest).
Proof.
  intros Hs Hfit Hint. apply layout_of_flags in Hfit.
  pose proof (sorted_by_bit_sorted (flags_with_bit fl)) as Hsort.
  set (flags := sorted_by_bit (flags_with_bit fl)) in *.
  destruct (encode_flags_fields size_bits kv flags 0 Hsort Hfit Hint)
    as (v & Henc & Hv & _ & Hfields).
  { split; [lia|]. apply Z.pow_pos_nonneg; [lia|].
    apply (flag_end_le size_bits flags Hfit). right. lia. }
  exists v. split; [exact Hv|]. split; [exact Hfields|].
  unfold build_bitfield_struct. fold flags. split.
  - apply bitfield_build_bytes; [exact Hs|exact Hv|].
    unfold BitFieldAdapter_encode. rewrite Henc. reflexivity.
  - intros fuel rest. unfold parse_stream.
    rewrite bitfield_parse_bytes by assumption. cbn [snd].
    unfold BitFieldAdapter_decode. cbn [py_int bind].
    rewrite decode_flags_all by assumption. reflexivity.
Qed.

Lemma bytes_big_length (n : nat) (v : Z) :
  List.length (int_to_bytes_big n v) = n.
Proof. unfold int_to_bytes_big. now rewrite length_rev, int_to_bytes_little_length. Qed.

(** A mapping that has the flags' names in bit order, a boolean for each
    flag of width 1 and an integer of the flag's width for each other
    flag, encodes to [ceil(size_bits/8)] bytes, and these bytes decode to
    the same mapping. *)
Theorem bitfield_decode_of_encode_is_identity (size_bits : Z) (fl : list flag)
  (kv : list (string * pyvalue)) (fuel : nat) (rest : list byte) :
  0 < size_bits ->
  Forall (flag_fits size_bits) fl ->
  distinct (map fst kv) = true ->
  canonical_flags size_bits (sorted_by_bit (flags_with_bit fl)) kv = true ->
  exists data,
    build_bytes (build_bitfield_struct (Some size_bits) (Some fl)) (VDict kv) = Ok data
    /\ Z.of_nat (List.length data) = (size_bits + 7) / 8
    /\ parse_stream fuel (build_bitfield_struct (Some size_bits) (Some fl))
         (data ++ rest)
       = Done (VDict kv, rest).
Proof.
  intros Hs Hfit Hdist Hcan. apply distinct_NoDup in Hdist.
  destruct (bitfield_encode_decode size_bits fl kv Hs Hfit)
    as (v & Hv & Hfields & Hbuild & Hparse).
  { intros f name val _ _ Hget.
    eapply canonical_as_int; [exact Hcan|eapply dict_get_Some_In, Hget]. }
  eexists. split; [exact Hbuild|]. split.
  { rewrite bytes_big_length. destruct (byte_count size_bits Hs). lia. }
  rewrite Hparse. do 3 f_equal.
  assert (Hent : decoded_entries size_bits v (sorted_by_bit (flags_with_bit fl)) = kv).
  { apply (canonical_entries size_bits v kv); auto.
    - intros k val Hin. now apply dict_get_In.
    - apply sorted_by_bit_sorted.
    - now apply layout_of_flags. }
  rewrite Hent. now apply dict_update_distinct.
Qed.

(** Encoding never rejects a value for its size.  A mapping whose
    values under the flags' names are integers or booleans encodes to
    [ceil(size_bits/8)] bytes; decoding them gives, for each flag, the
    truth value of the entry when the width is 1 and the entry modulo
    [2^width] otherwise, and false or 0 for an absent key. *)
Theorem bitfield_encode_reduces_values (size_bits : Z) (fl : list flag)
  (kv : list (string * pyvalue)) (fuel : nat) (rest : list byte) :
  0 < size_bits ->
  Forall (flag_fits size_bits) fl ->
  flag_values_int (sorted_by_bit (flags_with_bit fl)) kv ->
  distinct (map flag_key (sorted_by_bit (flags_with_bit fl))) = true ->
  exists data res,
    build_bytes (build_bitfield_struct (Some size_bits) (Some fl)) (VDict kv) = Ok data
    /\ Z.of_nat (List.length data) = (size_bits + 7) / 8
    /\ parse_stream fuel (build_bitfield_struct (Some size_bits) (Some fl))
         (data ++ rest)
       = Done (VDict res, rest)
    /\ map fst res = map flag_key (sorted_by_bit (flags_with_bit fl))
    /\ forall pre f post,
         sorted_by_bit (flags_with_bit fl) = (pre ++ f :: post)%list ->
         dict_get (flag_key f) res
         = Some (flag_decoded (flag_end size_bits post - bf_bit f)
                   (flag_field (flag_end size_bits post - bf_bit f)
                      (dict_get (flag_key f) kv))).
Proof.
  intros Hs Hfit Hint Hdist. apply distinct_NoDup in Hdist.
  destruct (bitfield_encode_decode size_bits fl kv Hs Hfit Hint)
    as (v & Hv & Hfields & Hbuild & Hparse).
  set (flags := sorted_by_bit (flags_with_bit fl)) in *.
  assert (Hres : dict_update [] (decoded_entries size_bits v flags)
                 = decoded_entries size_bits v flags).
  { apply (dict_update_distinct _ []). cbn [app].
    now rewrite decoded_entries_keys. }
  exists (int_to_bytes_big (Z.to_nat ((size_bits + 7) / 8)) v),
    (decoded_entries size_bits v flags).
  split; [exact Hbuild|]. split.
  { rewrite bytes_big_length. destruct (byte_count size_bits Hs). lia. }
  split; [now rewrite Hparse, Hres|].
  split; [apply decoded_entries_keys|].
  intros pre f post Heq.
  rewrite <- (fields_ok_at size_bits v kv pre f post) by (now rewrite <- Heq).
  rewrite <- flag_value_field.
  apply dict_get_In; [now rewrite decoded_entries_keys|].
  rewrite Heq. apply decoded_entries_at.
Qed.

(** ** Bitfields: the bits that are not read

    The bits of the integer at and above the declared width never reach
    the decoded mapping: with a width that is no multiple of 8, the high
    bits of the bytes read are dropped. *)
Theorem bitfield_ignores_bits_above_width (size_bits v : Z) (fl : list flag) :
  BitFieldAdapter_decode size_bits (sorted_by_bit (flags_with_bit fl))
    (VInt (v mod 2 ^ size_bits))
  = BitFieldAdapter_decode size_bits (sorted_by_bit (flags_with_bit fl)) (VInt v).
Proof.
  unfold BitFieldAdapter_decode. cbn [py_int bind].
  pose proof (sorted_by_bit_sorted (flags_with_bit fl)) as Hsort.
  set (flags := sorted_by_bit (flags_with_bit fl)) in *.
  destruct (decode_flags size_bits v flags []) as [res|e] eqn:Hdec.
  - pose proof (decode_flags_layout _ _ _ _ _ Hdec) as Hlay.
    rewrite decode_flags_all in Hdec by assumption.
    rewrite decode_flags_all by assumption.
    rewrite decoded_entries_mod by assumption.
    inversion Hdec. reflexivity.
  - now rewrite (decode_flags_raise size_bits flags v (v mod 2 ^ size_bits) [] [] e Hdec).
Qed.

(** Encoding reads the mapping under the flags' names only: two mappings
    that agree there encode alike, whatever other keys they hold. *)
Theorem bitfield_encode_reads_flag_keys_only (size_bits : Z)
  (flags : list bit_flag) (kv kv' : list (string * pyvalue)) :
  (forall f, In f flags -> dict_get (flag_key f) kv = dict_get (flag_key f) kv') ->
  BitFieldAdapter_encode size_bits flags (VDict kv)
  = BitFieldAdapter_encode size_bits flags (VDict kv').
Proof.
  intros Hsame. unfold BitFieldAdapter_encode.
  now rewrite (encode_flags_ext size_bits kv kv' flags 0 Hsame).
Qed.

(** ** Scaled primitives at the edges *)

Lemma primitive_compiles (t : string) :
  In t primitive_types ->
  exists base,
    dict_get t TYPE_MAPPING = Some base
    /\ forall name fields elements count until_eof size length encoding scale flags,
         build_struct_from_schema
           (Schema (Some t) name fields elements count until_eof size length
              encoding scale flags)
         = Ok (match scale with
               | Some sc => ScaleAdapter base sc
               | None => base
               end).
Proof.
  intros Hin. cbv in Hin.
  repeat (destruct Hin as [<-|Hin];
          [eexists; split; [reflexivity|intros; destruct scale; reflexivity]|]).
  contradiction.
Qed.

Lemma scale_zero_decode (scale : number) (obj : pyvalue) :
  truthy (value_of_number scale) = false ->
  exists e, ScaleAdapter_decode scale obj = Raise e.
Proof.
  intros Hz. unfold ScaleAdapter_decode, py_truediv.
  destruct scale as [z|f]; cbn [value_of_number truthy as_number] in *.
  - apply negb_false_iff, Z.eqb_eq in Hz. subst z.
    destruct (as_number obj) as [[a|fa]|].
    + exists ZeroDivisionError. reflexivity.
    + exists ZeroDivisionError. reflexivity.
    + exists TypeError. reflexivity.
  - apply negb_false_iff in Hz.
    destruct (as_number obj) as [[a|fa]|].
    + cbn [to_float bind]. destruct (float_of_Z a) as [fa|e]; cbn [bind].
      * rewrite Hz. now exists ZeroDivisionError.
      * now exists e.
    + cbn [to_float bind]. rewrite Hz. now exists ZeroDivisionError.
    + now exists TypeError.
Qed.

(** A scale of zero (the integer 0, or the float 0.0 of either sign) is
    accepted by the compiler for every primitive type, and the codec it
    gives never decodes anything; with the integer 0 the stored integer
    that was read is divided by zero. *)
Theorem zero_scale_compiles_and_never_decodes (t : string) (scale : number) :
  In t primitive_types ->
  truthy (value_of_number scale) = false ->
  exists base,
    build_struct_from_schema (with_scale scale (schema_node (Some t)))
    = Ok (ScaleAdapter base scale)
    /\ (forall fuel input ctx ctx' v rest,
          parse fuel (ScaleAdapter base scale) input ctx <> (ctx', Done (v, rest)))
    /\ (forall fuel input ctx raw rest,
          parse fuel base input ctx = (ctx, Done (VInt raw, rest)) ->
          parse fuel (ScaleAdapter base (NInt 0)) input ctx
          = (ctx, Fail ZeroDivisionError)).
Proof.
  intros Hin Hz. destruct (primitive_compiles t Hin) as (base & _ & Hc).
  exists base. split; [apply Hc|]. split.
  - intros fuel input ctx ctx' v rest. cbn [parse]. unfold adapt.
    destruct (parse fuel base input ctx) as [c [[obj r]| |]]; try discriminate.
    destruct (scale_zero_decode scale obj Hz) as [e ->]. discriminate.
  - intros fuel input ctx raw rest Hp. cbn [parse]. rewrite Hp. reflexivity.
Qed.

(** A scaled primitive does not give back every stored integer: with the
    scale 100 on a 16-bit field, the stored 29 decodes to 0.29, and 0.29
    encodes to 28, since [0.29 * 100] is just below 29 in binary64. *)
Theorem scaled_round_trip_is_not_exact (fuel : nat) :
  exists input v data,
    parse_stream fuel (ScaleAdapter (FormatField LittleEndian Fmt_H) (NInt 100)) input
    = Done (v, [])
    /\ build_bytes (ScaleAdapter (FormatField LittleEndian Fmt_H) (NInt 100)) v
       = Ok data
    /\ input = [x1d; x00] /\ data = [x1c; x00].
Proof.
  exists [x1d; x00]. eexists. eexists.
  split; [vm_compute; reflexivity|].
  split; [vm_compute; reflexivity|]. split; reflexivity.
Qed.

(** ** The compiler's invariants *)

Section SchemaInduction.
Variable P : schema -> Prop.
Hypothesis HSchema :
  forall ty name fields elements count until_eof size length encoding scale flags,
    match fields with Some fs => Forall P fs | None => True end ->
    match elements with Some el => P el | None => True end ->
    P (Schema ty name fields elements count until_eof size length encoding
         scale flags).

Lemma schema_nested_ind : forall s, P s.
Proof.
  fix IH 1. intros [ty name fields elements count until_eof size length encoding
                      scale flags].
  apply HSchema.
  - destruct fields as [fs|]; [|exact I].
    induction fs as [|f fs IHfs]; constructor; [apply IH|exact IHfs].
  - destruct elements as [el|]; [apply IH|exact I].
Qed.

End SchemaInduction.

Lemma names_distinct_struct (subcons : list (string * Construct)) :
  names_distinct (Struct subcons)
  = distinct (map fst subcons) && forallb (fun sc => names_distinct (snd sc)) subcons.
Proof.
  cbn [names_distinct]. f_equal.
  induction subcons as [|[n sc] scs IH]; [reflexivity|].
  cbn [forallb snd]. now rewrite <- IH.
Qed.

Lemma dict_set_NoDup {V : Type} (k : string) (v : V) (d : list (string * V)) :
  NoDup (map fst d) -> NoDup (map fst (dict_set k v d)).
Proof.
  induction d as [|[k' v'] d IH]; cbn [dict_set map fst]; intros Hnd.
  - constructor; [tauto|constructor].
  - inversion Hnd as [|? ? Hk' Hd]; subst.
    destruct (String.eqb_spec k k') as [->|Hne]; cbn [map fst].
    + now constructor.
    + constructor; [|now apply IH].
      intros Hin. apply dict_set_keys in Hin as [Heq|Hin]; [congruence|tauto].
Qed.

Lemma dict_set_forallb {V : Type} (q : string * V -> bool) (k : string) (v : V)
  (d : list (string * V)) :
  (forall k1 k2, q (k1, v) = q (k2, v)) ->
  q (k, v) = true -> forallb q d = true -> forallb q (dict_set k v d) = true.
Proof.
  intros Hq Hv. induction d as [|[k' v'] d IH]; cbn [dict_set forallb]; intros Hd.
  - now rewrite Hv.
  - apply andb_true_iff in Hd as [H1 H2].
    destruct (String.eqb k k'); cbn [forallb].
    + now rewrite Hv, H2.
    + now rewrite H1, IH.
Qed.

Lemma build_fields_invariant (build_field : schema -> result Construct)
  (q : Construct -> bool) :
  forall fs fields res,
    Forall (fun f => forall c, build_field f = Ok c -> q c = true) fs ->
    build_fields_from_schema build_field fs fields = Ok res ->
    NoDup (map fst fields) ->
    forallb (fun sc => q (snd sc)) fields = true ->
    NoDup (map fst res) /\ forallb (fun sc => q (snd sc)) res = true.
Proof.
  induction fs as [|f fs IH]; intros fields res Hall H Hnd Hq;
    cbn [build_fields_from_schema] in H.
  - inversion H; subst. auto.
  - apply Forall_cons_iff in Hall as [Hf Hall].
    destruct (s_name_of f) as [name|]; [|discriminate H].
    destruct (build_field f) as [c|e] eqn:Hc; cbn [bind] in H; [|discriminate H].
    apply (IH _ _ Hall H).
    + now apply dict_set_NoDup.
    + apply dict_set_forallb; auto.
Qed.

(** In every codec that the compiler returns, the fields of each struct,
    nested ones included, have pairwise distinct names: the compiler
    collects the fields in a [dict]. *)
Theorem compiled_field_names_are_distinct :
  forall s con, build_struct_from_schema s = Ok con -> names_distinct con = true.
Proof.
  intros s. pattern s. apply schema_nested_ind. clear s.
  intros ty name fields elements count until_eof size length encoding scale flags
    Hfields Helements con.
  cbn [build_struct_from_schema].
  set (schema_type := match ty with Some t => t | None => "struct" end).
  destruct (String.eqb schema_type "struct").
  { destruct fields as [fs|]; cbn [bind].
    - destruct (build_fields_from_schema build_struct_from_schema fs [])
        as [res|e] eqn:Hres; cbn [bind]; [|discriminate].
      unfold make_Struct. destruct (dict_mem "self" res); [discriminate|].
      intros H. inversion H; subst con.
      destruct (build_fields_invariant build_struct_from_schema names_distinct
                  fs [] res Hfields Hres) as [Hnd Hq]; [constructor|reflexivity|].
      rewrite names_distinct_struct. apply andb_true_iff.
      split; [now apply distinct_NoDup|exact Hq].
    - unfold make_Struct. cbn. intros H. inversion H. reflexivity. }
  destruct (String.eqb schema_type "array").
  { destruct elements as [el|]; [|discriminate].
    destruct (build_struct_from_schema el) as [c|e] eqn:Hc; cbn [bind];
      [|discriminate].
    specialize (Helements c eq_refl).
    destruct count as [[n|path|repr]|].
    - intros H. inversion H. exact Helements.
    - intros H. inversion H. exact Helements.
    - discriminate.
    - destruct (match until_eof with Some b => b | None => false end);
        [|discriminate].
      intros H. inversion H. exact Helements. }
  destruct (String.eqb schema_type "char").
  { intros H. inversion H. reflexivity. }
  destruct (String.eqb schema_type "bytes").
  { destruct (_ <=? 0); [discriminate|]. intros H. inversion H. reflexivity. }
  destruct (String.eqb schema_type "string").
  { destruct length as [n|]; [|discriminate].
    destruct (encodingunit _); cbn [bind]; [|discriminate].
    intros H. inversion H. reflexivity. }
  destruct (String.eqb schema_type "bitfield").
  { intros H. inversion H. reflexivity. }
  destruct (dict_get schema_type TYPE_MAPPING) as [base|] eqn:Hbase; [|discriminate].
  assert (Hb : names_distinct base = true).
  { cbn in Hbase.
    repeat match type of Hbase with
           | (if ?b then _ else _) = _ =>
               destruct b; [inversion Hbase; reflexivity|]
           end.
    discriminate Hbase. }
  destruct scale; intros H; inversion H; subst con; exact Hb.
Qed.

Lemma field_for_acc (n : string) :
  forall fs acc,
    field_for n fs acc
    = match field_for n fs None with Some g => Some g | None => acc end.
Proof.
  induction fs as [|f fs IH]; intros acc; cbn [field_for]; [reflexivity|].
  rewrite IH. rewrite (IH (match s_name_of f with
                           | Some m => if String.eqb m n then Some f else None
                           | None => None
                           end)).
  destruct (field_for n fs None); [reflexivity|].
  destruct (s_name_of f) as [m|]; [|reflexivity].
  destruct (String.eqb m n); reflexivity.
Qed.

Lemma build_fields_lookup (build_field : schema -> result Construct) (n : string) :
  forall fs fields res,
    build_fields_from_schema build_field fs fields = Ok res ->
    match field_for n fs None with
    | Some f => build_field f = match dict_get n res with
                                | Some c => Ok c
                                | None => Raise TypeError
                                end
                /\ dict_get n res <> None
    | None => dict_get n res = dict_get n fields
    end.
Proof.
  induction fs as [|f fs IH]; intros fields res H; cbn [build_fields_from_schema] in H.
  - inversion H. reflexivity.
  - cbn [field_for].
    destruct (s_name_of f) as [m|]; [|discriminate H].
    destruct (build_field f) as [c|e] eqn:Hc; cbn [bind] in H; [|discriminate H].
    specialize (IH _ _ H). rewrite field_for_acc.
    destruct (field_for n fs None) as [g|]; [exact IH|].
    destruct (String.eqb_spec m n) as [->|Hne].
    + rewrite IH, dict_get_set_same. split; [exact Hc|discriminate].
    + rewrite IH. apply dict_get_set_other. congruence.
Qed.

Lemma existsb_eqb_In (x : string) (l : list string) :
  existsb (String.eqb x) l = true <-> In x l.
Proof.
  rewrite existsb_exists. split.
  - intros (y & Hy & Hxy). apply String.eqb_eq in Hxy. now subst.
  - intros Hin. exists x. split; [exact Hin|apply String.eqb_refl].
Qed.

Lemma first_occurrences_ext (l : list string) :
  forall s s', (forall x, In x s <-> In x s') ->
               first_occurrences s l = first_occurrences s' l.
Proof.
  induction l as [|x l IH]; intros s s' Hss; cbn [first_occurrences]; [reflexivity|].
  assert (He : existsb (String.eqb x) s = existsb (String.eqb x) s').
  { apply eq_true_iff_eq. rewrite !existsb_eqb_In. apply Hss. }
  rewrite He. destruct (existsb (String.eqb x) s').
  - now apply IH.
  - f_equal. apply IH. intros y. cbn [In]. now rewrite Hss.
Qed.

Lemma dict_set_present_keys {V : Type} (k : string) (v : V) (d : list (string * V)) :
  In k (map fst d) -> map fst (dict_set k v d) = map fst d.
Proof.
  induction d as [|[k' v'] d IH]; cbn [dict_set map fst In]; [contradiction|].
  destruct (String.eqb_spec k k') as [->|Hne]; [reflexivity|].
  intros [Heq|Hin]; [congruence|]. cbn [map fst]. now rewrite IH.
Qed.

Lemma build_fields_order (build_field : schema -> result Construct) :
  forall fs fields res,
    build_fields_from_schema build_field fs fields = Ok res ->
    map fst res
    = (map fst fields ++ first_occurrences (map fst fields) (field_names fs))%list.
Proof.
  induction fs as [|f fs IH]; intros fields res H; cbn [build_fields_from_schema] in H.
  - inversion H. cbn. now rewrite app_nil_r.
  - unfold field_names. cbn [flat_map]. fold (field_names fs).
    destruct (s_name_of f) as [m|]; [|discriminate H].
    destruct (build_field f) as [c|e]; cbn [bind] in H; [|discriminate H].
    rewrite (IH _ _ H). cbn [app first_occurrences].
    destruct (existsb (String.eqb m) (map fst fields)) eqn:E.
    + apply existsb_eqb_In in E. now rewrite dict_set_present_keys.
    + assert (Hm : ~ In m (map fst fields)).
      { intros Hin. apply existsb_eqb_In in Hin. congruence. }
      rewrite (dict_set_fresh m c fields Hm), map_app. cbn [map fst].
      rewrite <- app_assoc. cbn [app]. do 2 f_equal.
      apply first_occurrences_ext. intros x. rewrite in_app_iff. cbn [In]. tauto.
Qed.

(** A struct schema that names a field twice compiles without an error.
    The compiled struct has each name once, in the order of the names'
    first occurrences, and under a name the codec of the last field of
    that name. *)
Theorem repeated_field_name_keeps_last (fs : list schema)
  (subcons : list (string * Construct)) :
  build_struct_from_schema (with_fields fs (schema_node None)) = Ok (Struct subcons) ->
  map fst subcons = first_occurrences [] (field_names fs)
  /\ distinct (map fst subcons) = true
  /\ forall n,
       match field_for n fs None, dict_get n subcons with
       | Some f, Some c => build_struct_from_schema f = Ok c
       | None, None => True
       | _, _ => False
       end.
Proof.
  cbn [with_fields schema_node build_struct_from_schema]. cbn [String.eqb Ascii.eqb Bool.eqb].
  destruct (build_fields_from_schema build_struct_from_schema fs []) as [res|e] eqn:Hres;
    cbn [bind]; [|discriminate].
  unfold make_Struct. destruct (dict_mem "self" res); [discriminate|].
  intros H. inversion H; subst subcons. split; [|split].
  - apply (build_fields_order build_struct_from_schema fs [] res Hres).
  - apply distinct_NoDup.
    apply (build_fields_invariant build_struct_from_schema (fun _ => true) fs [] res);
      auto.
    + apply Forall_forall. auto.
    + constructor.
  - intros n. pose proof (build_fields_lookup build_struct_from_schema n _ _ _ Hres) as Hn.
    destruct (field_for n fs None) as [f|].
    + destruct Hn as [Hf Hsome]. destruct (dict_get n res); [exact Hf|now elim Hsome].
    + rewrite Hn. exact I.
Qed.

Lemma insert_by_bit_perm (f : bit_flag) (l : list bit_flag) :
  Permutation (insert_by_bit f l) (f :: l).
Proof.
  induction l as [|g l IH]; cbn [insert_by_bit]; [reflexivity|].
  destruct (bf_bit f <=? bf_bit g); [reflexivity|].
  rewrite IH. apply perm_swap.
Qed.

Lemma sorted_by_bit_perm (l : list bit_flag) : Permutation (sorted_by_bit l) l.
Proof.
  induction l as [|f l IH]; cbn [sorted_by_bit]; [reflexivity|].
  rewrite insert_by_bit_perm. now constructor.
Qed.

Lemma flags_with_bit_perm (fl fl' : list flag) :
  Permutation fl fl' -> Permutation (flags_with_bit fl) (flags_with_bit fl').
Proof.
  induction 1 as [|f l l' _ IH|f g l|l1 l2 l3 _ IH1 _ IH2]; cbn [flags_with_bit].
  - reflexivity.
  - destruct (flag_bit f); [now constructor|exact IH].
  - destruct (flag_bit f), (flag_bit g); try reflexivity. apply perm_swap.
  - now transitivity (flags_with_bit l2).
Qed.

Lemma same_bit_same_flag (l : list bit_flag) (f g : bit_flag) :
  NoDup (map bf_bit l) -> In f l -> In g l -> bf_bit f = bf_bit g -> f = g.
Proof.
  induction l as [|h l IH]; cbn [map In]; intros Hnd Hf Hg Hbit; [contradiction|].
  inversion Hnd as [|? ? Hh Hl]; subst.
  destruct Hf as [<-|Hf], Hg as [<-|Hg]; auto.
  - elim Hh. rewrite Hbit. now apply in_map.
  - elim Hh. rewrite <- Hbit. now apply in_map.
Qed.

Lemma sorted_unique :
  forall a b,
    StronglySorted by_bit a -> StronglySorted by_bit b ->
    Permutation a b -> NoDup (map bf_bit a) -> a = b.
Proof.
  induction a as [|x a IH]; intros b Ha Hb Hperm Hnd.
  - apply Permutation_nil in Hperm. now subst.
  - destruct b as [|y b].
    { apply Permutation_sym, Permutation_nil in Hperm. discriminate. }
    apply StronglySorted_inv in Ha as [Ha Hxa].
    apply StronglySorted_inv in Hb as [Hb Hyb].
    rewrite Forall_forall in Hxa, Hyb.
    assert (Hxy : x = y).
    { assert (Hy : In y (x :: a))
        by (apply (Permutation_in _ (Permutation_sym Hperm)); now left).
      assert (Hx : In x (y :: b)) by (apply (Permutation_in _ Hperm); now left).
      apply (same_bit_same_flag (x :: a)); auto; [now left|].
      destruct Hy as [Hy|Hy]; [now subst|].
      destruct Hx as [Hx|Hx]; [now subst|].
      specialize (Hxa y Hy). specialize (Hyb x Hx). unfold by_bit in *. lia. }
    subst y. f_equal. apply Permutation_cons_inv in Hperm.
    apply IH; auto. now inversion Hnd.
Qed.

(** The order of the flags in a bitfield schema is irrelevant when no two
    flags share a bit: the compiler sorts them by bit, and two schemas
    whose flags are permutations of each other compile to the same
    codec. *)
Theorem bitfield_flag_order_is_irrelevant (size : option Z) (fl fl' : list flag) :
  Permutation fl fl' ->
  NoDup (map bf_bit (flags_with_bit fl)) ->
  build_bitfield_struct size (Some fl) = build_bitfield_struct size (Some fl').
Proof.
  intros Hperm Hnd. unfold build_bitfield_struct. f_equal.
  apply sorted_unique; try apply sorted_by_bit_sorted.
  - rewrite !sorted_by_bit_perm. now apply flags_with_bit_perm.
  - apply (Permutation_NoDup (l := map bf_bit (flags_with_bit fl))); [|exact Hnd].
    apply Permutation_map, Permutation_sym, sorted_by_bit_perm.
Qed.

(** ** Counts among the fields of a struct *)

Lemma parse_fields_at (p : Construct -> list byte -> context -> parsed)
  (pre post : list (string * Construct)) (name : string) (sc : Construct)
  (obj objf : list (string * pyvalue)) (input rest : list byte) (ctx cf : context) :
  parse_fields p (pre ++ (name, sc) :: post) obj input ctx
  = (cf, Done (VContainer objf, rest)) ->
  exists ctx1 obj1 input1 ctx2 subobj input2,
    parse_fields p pre obj input ctx = (ctx1, Done (VContainer obj1, input1))
    /\ p sc input1 ctx1 = (ctx2, Done (subobj, input2))
    /\ parse_fields p post
         (if String.eqb name "" then obj1 else dict_set name subobj obj1) input2
         (if String.eqb name "" then ctx2 else ctx_set name (CVal subobj) ctx2)
       = (cf, Done (VContainer objf, rest)).
Proof.
  rewrite parse_fields_app.
  destruct (parse_fields p pre obj input ctx) as [ctx1 [[v input1]| |]];
    try discriminate.
  destruct v; try discriminate. cbn [parse_fields].
  destruct (p sc input1 ctx1) as [ctx2 [[subobj input2]| |]] eqn:Hsc;
    try discriminate.
  intros H. exists ctx1, kv, input1, ctx2, subobj, input2.
  split; [reflexivity|]. split; [exact Hsc|].
  destruct (String.eqb name ""); exact H.
Qed.

Lemma parse_fields_present (p : Construct -> list byte -> context -> parsed) :
  forall scs obj input ctx ctx' objf rest k,
    parse_fields p scs obj input ctx = (ctx', Done (VContainer objf, rest)) ->
    k <> "" ->
    dict_get k obj <> None \/ In k (map fst scs) ->
    dict_get k objf <> None.
Proof.
  induction scs as [|[n sc] scs IH]; intros obj input ctx ctx' objf rest k;
    cbn [parse_fields map fst In].
  - intros H _ [Hk|[]]. now inversion H; subst.
  - destruct (p sc input ctx) as [ctx1 [[subobj input']| |]]; try discriminate.
    intros H Hne Hk.
    destruct (String.eqb_spec n "") as [->|Hn].
    + apply (IH _ _ _ _ _ _ _ H Hne). destruct Hk as [Hk|[Hk|Hk]].
      * now left.
      * now elim Hne.
      * now right.
    + apply (IH _ _ _ _ _ _ _ H Hne). destruct Hk as [Hk|[Hk|Hk]].
      * left. now apply dict_get_set_is_some.
      * left. subst n. rewrite dict_get_set_same. discriminate.
      * now right.
Qed.

(** The frames below the innermost one stay as they are while the fields
    of a struct are parsed, and so do the entries of the innermost frame
    that no field assigns. *)
Lemma parse_fields_parents (fuel : nat) :
  forall scs obj input fr parents cf o,
    parse_fields (parse fuel) scs obj input (fr :: parents) = (cf, o) ->
    exists fr', cf = fr' :: parents
                /\ forall k, k <> "_index" -> ~ In k (map fst scs) ->
                             dict_get k fr' = dict_get k fr.
Proof.
  induction scs as [|[n sc] scs IH]; intros obj input fr parents cf o;
    cbn [parse_fields map fst In].
  - intros H. inversion H; subst. exists fr. auto.
  - pose proof (parse_index_only sc fuel input (fr :: parents)) as Hio.
    destruct (parse fuel sc input (fr :: parents)) as [c1 o1] eqn:Hp.
    cbn [fst] in Hio. destruct c1 as [|fr1 ps1]; [contradiction|].
    destruct Hio as [<- Hsame].
    assert (Hstop : forall o', (fr1 :: parents, o') = (cf, o) ->
                               exists fr', cf = fr' :: parents
                                           /\ forall k, k <> "_index" ->
                                                        ~ (n = k \/ In k (map fst scs)) ->
                                                        dict_get k fr' = dict_get k fr).
    { intros o' H. inversion H; subst. exists fr1. split; [reflexivity|].
      intros k Hk _. symmetry. now apply Hsame. }
    destruct o1 as [[subobj input']| |]; try (apply Hstop).
    destruct (String.eqb n "").
    + intros H. destruct (IH _ _ _ _ _ _ H) as (fr' & -> & Hk).
      exists fr'. split; [reflexivity|]. intros k Hne Hnot.
      rewrite Hk by tauto. symmetry. now apply Hsame.
    + cbn [ctx_set]. intros H. destruct (IH _ _ _ _ _ _ H) as (fr' & -> & Hk).
      exists fr'. split; [reflexivity|]. intros k Hne Hnot.
      rewrite Hk by tauto. rewrite dict_get_set_other by (intros ->; tauto).
      symmetry. now apply Hsame.
Qed.

(** An array inside a struct: its count is what its path resolves to in
    the context that the fields before it have filled. *)
Lemma struct_array_count (fuel : nat) (pre post : list (string * Construct))
  (name : string) (path : list string) (elem : Construct)
  (input rest : list byte) (ctx ctx' : context) (v : pyvalue) :
  let subcons := (pre ++ (name, Array (CountPath path) elem) :: post)%list in
  forallb name_ok (map fst subcons) = true ->
  distinct (map fst subcons) = true ->
  parse fuel (Struct subcons) input ctx = (ctx', Done (v, rest)) ->
  exists obj fr ctx1 obj1 input1 n items,
    v = VContainer obj
    /\ new_frame subcons ctx = Ok fr
    /\ parse_fields (parse fuel) pre [("_io", stream_object)] input (fr :: ctx)
       = (ctx1, Done (VContainer obj1, input1))
    /\ resolver path (NCtx ctx1) = Ok n
    /\ count_of_node n = Ok (Z.of_nat (List.length items))
    /\ dict_get name obj = Some (VList items)
    /\ forall k, In k (map fst pre) -> dict_get k obj = dict_get k obj1.
Proof.
  intros subcons Hnames Hdist Hp. cbn [parse] in Hp.
  destruct (new_frame subcons ctx) as [fr|e] eqn:Hfr; [|discriminate].
  destruct (parse_fields (parse fuel) subcons [("_io", stream_object)] input
              (fr :: ctx)) as [cf r] eqn:Hpf.
  cbn [snd] in Hp. inversion Hp; subst ctx' r. clear Hp.
  destruct (parse_fields_done _ _ _ _ _ _ _ _ Hpf) as [obj ->].
  subst subcons.
  apply parse_fields_at in Hpf
    as (ctx1 & obj1 & input1 & ctx2 & subobj & input2 & Hpre & Harr & Hpost).
  apply distinct_NoDup in Hdist. rewrite map_app in Hdist. cbn [map fst] in Hdist.
  pose proof (NoDup_remove _ _ _ Hdist) as [Hnd Hname].
  rewrite map_app, forallb_app in Hnames. cbn [map fst forallb] in Hnames.
  apply andb_true_iff in Hnames as [_ Hnames].
  apply andb_true_iff in Hnames as [Hname_ok _].
  destruct (name_ok_inv name Hname_ok) as [Hne _].
  destruct (String.eqb_spec name "") as [|_]; [contradiction|].
  cbn [parse] in Harr. unfold parse_count, evaluate in Harr.
  destruct (resolver path (NCtx ctx1)) as [n|e] eqn:Hres; cbn [bind] in Harr;
    [|discriminate].
  destruct (count_of_node n) as [z|e] eqn:Hcount; [|discriminate].
  pose proof Harr as Hitems.
  apply parse_array_done in Hitems as (items & -> & Hlen). cbn [rev app] in *.
  exists obj, fr, ctx1, obj1, input1, n, items.
  split; [reflexivity|]. split; [reflexivity|]. split; [exact Hpre|].
  split; [exact Hres|]. split.
  { rewrite Hcount. f_equal.
    apply count_of_node_ok in Hcount as [[_ Hz]|[b [_ ->]]]; [lia|].
    rewrite Hlen. destruct b; reflexivity. }
  split.
  - rewrite (parse_fields_get _ _ _ _ _ _ _ _ name Hpost).
    + apply dict_get_set_same.
    + intros Hin. apply Hname. apply in_or_app. now right.
  - intros k Hk.
    rewrite (parse_fields_get _ _ _ _ _ _ _ _ k Hpost).
    + apply dict_get_set_other. intros ->. apply Hname. apply in_or_app. now left.
    + intros Hin. apply NoDup_remove_1 in Hdist.
      clear - Hnd Hk Hin. induction (map fst pre) as [|x l IH]; [contradiction|].
      cbn [app] in Hnd. inversion Hnd as [|? ? Hx Hl]; subst.
      destruct Hk as [->|Hk]; [|now apply IH].
      apply Hx. apply in_or_app. now right.
Qed.

(** An array that is counted by a path starting at an earlier field of
    the same struct has as many elements as the path gives inside the
    value decoded for that field: the field itself for a one-segment
    path, a member of it for a dotted path. *)
Theorem array_counts_by_decoded_sibling (fuel : nat)
  (pre post : list (string * Construct)) (name k : string) (parts : list string)
  (elem : Construct) (input rest : list byte) (ctx ctx' : context) (v : pyvalue) :
  let subcons := (pre ++ (name, Array (CountPath (k :: parts)) elem) :: post)%list in
  forallb name_ok (map fst subcons) = true ->
  distinct (map fst subcons) = true ->
  is_stable k = true ->
  In k (map fst pre) ->
  parse fuel (Struct subcons) input ctx = (ctx', Done (v, rest)) ->
  exists obj vk n items,
    v = VContainer obj
    /\ dict_get k obj = Some vk
    /\ dict_get name obj = Some (VList items)
    /\ resolver parts (NVal vk) = Ok n
    /\ count_of_node n = Ok (Z.of_nat (List.length items)).
Proof.
  intros subcons Hnames Hdist Hk Hin Hp.
  destruct (struct_array_count fuel pre post name (k :: parts) elem input rest
              ctx ctx' v Hnames Hdist Hp)
    as (obj & fr & ctx1 & obj1 & input1 & n & items
        & -> & Hfr & Hpre & Hres & Hcount & Hname & Hsame).
  assert (Hne : k <> "").
  { subst subcons. rewrite map_app, forallb_app in Hnames.
    apply andb_true_iff in Hnames as [Hnames _].
    rewrite forallb_forall in Hnames. now apply name_ok_inv, Hnames. }
  destruct (parse_fields_obj_ctx fuel _ _ _ _ _ _ _ Hpre) as [Hne1 Hobj];
    [discriminate| |].
  { intros k0 v0 Hk0 Hg0. cbn [dict_get fst snd] in Hg0.
    destruct (String.eqb_spec k0 "_io") as [->|_]; discriminate. }
  destruct (dict_get k obj1) as [vk|] eqn:Hget.
  2:{ elim (parse_fields_present _ _ _ _ _ _ _ _ k Hpre Hne); auto. }
  exists obj, vk, n, items.
  split; [reflexivity|]. split; [now rewrite Hsame|]. split; [exact Hname|].
  split; [|exact Hcount].
  specialize (Hobj k vk Hk Hget).
  destruct ctx1 as [|f1 p1]; [contradiction|].
  cbn [resolver node_getitem ctx_getitem hd] in Hres, Hobj.
  rewrite Hobj in Hres. exact Hres.
Qed.

(** An array that is counted by a path starting with ["_"] is counted in
    the context of the enclosing struct: the rest of the path is resolved
    there, among the fields that the enclosing struct has decoded. *)
Theorem array_counts_by_enclosing_context (fuel : nat)
  (pre post : list (string * Construct)) (name : string) (parts : list string)
  (elem : Construct) (input rest : list byte) (ctx ctx' : context) (v : pyvalue) :
  let subcons := (pre ++ (name, Array (CountPath ("_" :: parts)) elem) :: post)%list in
  forallb name_ok (map fst subcons) = true ->
  distinct (map fst subcons) = true ->
  parse fuel (Struct subcons) input ctx = (ctx', Done (v, rest)) ->
  exists obj n items,
    v = VContainer obj
    /\ dict_get name obj = Some (VList items)
    /\ resolver parts (NCtx ctx) = Ok n
    /\ count_of_node n = Ok (Z.of_nat (List.length items)).
Proof.
  intros subcons Hnames Hdist Hp.
  destruct (struct_array_count fuel pre post name ("_" :: parts) elem input rest
              ctx ctx' v Hnames Hdist Hp)
    as (obj & fr & ctx1 & obj1 & input1 & n & items
        & -> & Hfr & Hpre & Hres & Hcount & Hname & _).
  exists obj, n, items.
  split; [reflexivity|]. split; [exact Hname|]. split; [|exact Hcount].
  destruct (parse_fields_parents fuel _ _ _ _ _ _ _ Hpre) as (fr1 & -> & Hkeep).
  assert (Hlink : dict_get "_" fr1 = Some (CLink (List.length ctx))).
  { rewrite Hkeep; [|discriminate|].
    - destruct (new_frame_stable _ _ _ "_" Hfr eq_refl) as [[_ Hl]|Hn]; [exact Hl|].
      apply dict_get_None_iff in Hn. rewrite (new_frame_keys _ _ _ Hfr) in Hn.
      elim Hn. now left.
    - intros Hin. subst subcons. rewrite map_app, forallb_app in Hnames.
      apply andb_true_iff in Hnames as [Hnames _].
      rewrite forallb_forall in Hnames. specialize (Hnames "_" Hin).
      discriminate Hnames. }
  cbn [resolver node_getitem ctx_getitem] in Hres. rewrite Hlink in Hres.
  cbn [bind] in Hres. rewrite ctx_at_cons_below in Hres by lia.
  unfold ctx_at in Hres. rewrite Nat.sub_diag in Hres. exact Hres.
Qed.

(** ** The normalizer *)

(** Normalizing a value that is normalized already changes nothing. *)
Theorem normalizer_is_idempotent :
  forall v, container_to_dict (container_to_dict v) = container_to_dict v.
Proof.
  apply pyvalue_nested_ind; try reflexivity.
  - intros l IH. rewrite !container_to_dict_list. f_equal.
    rewrite map_map. apply map_ext_Forall. exact IH.
  - intros kv IH. rewrite !container_to_dict_dict. f_equal.
    rewrite map_map. apply map_ext_Forall.
    eapply Forall_impl; [|exact IH]. intros [k x] Hx. cbn [fst snd] in *.
    now rewrite Hx.
  - intros kv IH. rewrite container_to_dict_container, container_to_dict_dict.
    f_equal. rewrite map_map. apply map_ext_Forall.
    apply Forall_forall. intros [k x] Hin. apply filter_In in Hin as [Hin _].
    rewrite Forall_forall in IH. specialize (IH _ Hin). cbn [fst snd] in *.
    now rewrite IH.
Qed.

Lemma unhex_byte (b : byte) (s : string) :
  unhex (String (hex_digit (Byte.to_N b / 16))
           (String (hex_digit (Byte.to_N b mod 16)) s))
  = match unhex s with Some bs => Some (b :: bs) | None => None end.
Proof. destruct b; cbn; destruct (unhex s); reflexivity. Qed.

(** The text that the normalizer makes of a byte string keeps the bytes:
    two lower-case hexadecimal digits for each byte, from which the bytes
    can be read back, so that different byte strings give different
    texts. *)
Theorem hex_text_keeps_the_bytes (bs : list byte) :
  unhex (hex bs) = Some bs
  /\ String.length (hex bs) = (2 * List.length bs)%nat
  /\ forall bs', hex bs' = hex bs -> bs' = bs.
Proof.
  assert (Hun : forall l, unhex (hex l) = Some l).
  { induction l as [|b l IH]; [reflexivity|].
    cbn [hex]. now rewrite unhex_byte, IH. }
  split; [apply Hun|]. split.
  - induction bs as [|b bs IH]; [reflexivity|].
    cbn [hex String.length List.length]. rewrite IH. lia.
  - intros bs' Heq. apply (f_equal unhex) in Heq. rewrite !Hun in Heq.
    now inversion Heq.
Qed.

Lemma parse_fields_order (p : Construct -> list byte -> context -> parsed) :
  forall scs obj input ctx ctx' objf rest,
    parse_fields p scs obj input ctx = (ctx', Done (VContainer objf, rest)) ->
    map fst objf
    = (map fst obj
       ++ first_occurrences (map fst obj)
            (filter (fun n => negb (String.eqb n "")) (map fst scs)))%list.
Proof.
  induction scs as [|[n sc] scs IH]; intros obj input ctx ctx' objf rest;
    cbn [parse_fields map fst filter].
  - intros H. inversion H. cbn. now rewrite app_nil_r.
  - destruct (p sc input ctx) as [ctx1 [[subobj input']| |]]; try discriminate.
    destruct (String.eqb n ""); cbn [negb]; [apply IH|].
    intros H. rewrite (IH _ _ _ _ _ _ H). cbn [first_occurrences].
    destruct (existsb (String.eqb n) (map fst obj)) eqn:E.
    + apply existsb_eqb_In in E. now rewrite dict_set_present_keys.
    + assert (Hn : ~ In n (map fst obj)).
      { intros Hin. apply existsb_eqb_In in Hin. congruence. }
      rewrite (dict_set_fresh n subobj obj Hn), map_app. cbn [map fst].
      rewrite <- app_assoc. cbn [app]. do 2 f_equal.
      apply first_occurrences_ext. intros x. rewrite in_app_iff. cbn [In]. tauto.
Qed.

Lemma first_occurrences_NoDup (l : list string) :
  forall seen,
    NoDup l ->
    first_occurrences seen l
    = filter (fun x => negb (existsb (String.eqb x) seen)) l.
Proof.
  induction l as [|x l IH]; intros seen Hnd; cbn [first_occurrences filter];
    [reflexivity|].
  inversion Hnd as [|? ? Hx Hl]; subst.
  destruct (existsb (String.eqb x) seen) eqn:E; cbn [negb]; [now apply IH|].
  f_equal. rewrite (IH _ Hl). apply filter_ext_in. intros y Hy.
  cbn [existsb]. destruct (String.eqb_spec y x) as [->|_]; [contradiction|].
  reflexivity.
Qed.

Lemma filter_filter {A : Type} (f g : A -> bool) (l : list A) :
  filter f (filter g l) = filter (fun x => g x && f x) l.
Proof.
  induction l as [|x l IH]; cbn [filter]; [reflexivity|].
  destruct (g x); cbn [filter andb]; [destruct (f x)|]; now rewrite IH.
Qed.

Lemma normalized_keys (kv : list (string * pyvalue)) :
  map fst (map (fun p => (fst p, container_to_dict (snd p)))
             (filter (fun p => negb (startswith_underscore (fst p))) kv))
  = filter (fun n => negb (startswith_underscore n)) (map fst kv).
Proof.
  induction kv as [|[k x] kv IH]; cbn [filter map fst]; [reflexivity|].
  destruct (startswith_underscore k); cbn [negb map fst]; now rewrite IH.
Qed.

(** The normalized value of a decoded struct has, in the order of the
    schema, the fields whose name is not empty and does not start with an
    underscore, and nothing else: the stream handle that construct keeps
    under ["_io"] never reaches the output, and neither does a field with
    such a name. *)
Theorem normalized_struct_keys (fuel : nat) (subcons : list (string * Construct))
  (input rest : list byte) (ctx ctx' : context) (v : pyvalue) :
  distinct (map fst subcons) = true ->
  parse fuel (Struct subcons) input ctx = (ctx', Done (v, rest)) ->
  exists out,
    container_to_dict v = VDict out
    /\ map fst out
       = filter (fun n => negb (String.eqb n "") && negb (startswith_underscore n))
           (map fst subcons).
Proof.
  intros Hdist Hp. apply distinct_NoDup in Hdist. cbn [parse] in Hp.
  destruct (new_frame subcons ctx) as [fr|e]; [|discriminate].
  destruct (parse_fields (parse fuel) subcons [("_io", stream_object)] input
              (fr :: ctx)) as [cf r] eqn:Hpf.
  cbn [snd] in Hp. inversion Hp; subst ctx' r. clear Hp.
  destruct (parse_fields_done _ _ _ _ _ _ _ _ Hpf) as [obj ->].
  pose proof (parse_fields_order _ _ _ _ _ _ _ _ Hpf) as Hkeys.
  rewrite container_to_dict_container. eexists. split; [reflexivity|].
  rewrite normalized_keys, Hkeys. cbn [map fst app filter startswith_underscore].
  change (Ascii.eqb "_" "_") with true. cbn [negb].
  rewrite first_occurrences_NoDup by (now apply NoDup_filter).
  rewrite !filter_filter. apply filter_ext. intros n.
  cbn [existsb]. rewrite orb_false_r.
  destruct (String.eqb_spec n "_io") as [->|_]; [reflexivity|].
  reflexivity.
Qed.

(** ** The loader and the choice of a parser *)

(** On a directory, the loader never raises: it returns the parsers of
    the schema files that load, in the order of the files, and a warning
    for each of the others with the file's path and its exception, so
    that every file is accounted for once. *)
Theorem loader_keeps_order_and_loses_nothing (dir : string)
  (files : list schema_file) :
  exists parsers warnings,
    load_parsers_from_schemas (Directory dir files) = Ok (parsers, warnings)
    /\ Forall2 (fun p f => SchemaParser_init f = Ok p) parsers (filter loads files)
    /\ Forall2 (fun w f => fst w = file_path f /\ SchemaParser_init f = Raise (snd w))
         warnings (filter (fun f => negb (loads f)) files)
    /\ (List.length parsers + List.length warnings = List.length files)%nat.
Proof.
  cbn [load_parsers_from_schemas].
  exists (fst (load_each files)), (snd (load_each files)).
  split; [now destruct (load_each files)|].
  induction files as [|f files (IHp & IHw & IHn)]; cbn [load_each filter].
  - cbn. repeat split; constructor.
  - destruct (load_each files) as [parsers warnings]. cbn [fst snd] in *.
    assert (Hl : loads f = is_ok (SchemaParser_init f)) by reflexivity.
    rewrite Hl.
    destruct (SchemaParser_init f) as [p|e] eqn:Hf; cbn [is_ok negb fst snd List.length].
    + split; [now constructor|]. split; [exact IHw|lia].
    + split; [exact IHp|]. split; [constructor; auto|lia].
Qed.

Lemma find_parser_step (parser : SchemaParser) (parsers : list SchemaParser)
  (filename : string) :
  find_parser_for_file (parser :: parsers) filename
  = if pattern_takes (file_pattern parser) filename then Some parser
    else find_parser_for_file parsers filename.
Proof.
  cbn [find_parser_for_file]. unfold pattern_takes. cbv zeta.
  destruct (String.eqb (file_pattern parser) filename); [reflexivity|].
  cbn [orb].
  destruct (contains_char "*" (file_pattern parser)
            || contains_char "?" (file_pattern parser)).
  - destruct (fnmatch filename (file_pattern parser)); reflexivity.
  - destruct (String.eqb (str_lower filename) (str_lower (file_pattern parser)));
      reflexivity.
Qed.

(** [find_parser_for_file] returns the first parser of the list whose
    pattern takes the file name, and none exactly when no pattern does:
    the order of the parsers decides between two that match, also when
    the later one matches the name exactly. *)
Theorem find_parser_returns_first_match (parsers : list SchemaParser)
  (filename : string) :
  match find_parser_for_file parsers filename with
  | Some p =>
      exists pre post,
        parsers = (pre ++ p :: post)%list
        /\ pattern_takes (file_pattern p) filename = true
        /\ forallb (fun q => negb (pattern_takes (file_pattern q) filename)) pre = true
  | None =>
      forallb (fun q => negb (pattern_takes (file_pattern q) filename)) parsers = true
  end.
Proof.
  induction parsers as [|q parsers IH]; [reflexivity|].
  rewrite find_parser_step.
  destruct (pattern_takes (file_pattern q) filename) eqn:Hq.
  - exists [], parsers. auto.
  - destruct (find_parser_for_file parsers filename) as [p|].
    + destruct IH as (pre & post & -> & Hp & Hpre).
      exists (q :: pre), post. split; [reflexivity|]. split; [exact Hp|].
      cbn [forallb]. now rewrite Hq, Hpre.
    + cbn [forallb]. now rewrite Hq, IH.
Qed.

(** A parser whose schema has neither a [pattern] nor a [file_pattern]
    (or has them empty) has the pattern ["*"]; where [fnmatch] accepts
    the file name for it, the parser is chosen before any parser that
    comes after it in the list. *)
Theorem parser_without_pattern_takes_the_file (p : SchemaParser)
  (parsers : list SchemaParser) (filename : string) :
  str_or (doc_pattern (sp_schema p)) "" = "" ->
  str_or (doc_file_pattern (sp_schema p)) "" = "" ->
  fnmatch filename "*" = true ->
  file_pattern p = "*"
  /\ find_parser_for_file (p :: parsers) filename = Some p.
Proof.
  intros Hp Hf Hm.
  assert (Hpat : file_pattern p = "*").
  { unfold file_pattern, str_or in *.
    destruct (doc_pattern (sp_schema p)) as [s|].
    - destruct (String.eqb_spec s ""); [|contradiction].
      destruct (doc_file_pattern (sp_schema p)) as [s'|]; [|reflexivity].
      destruct (String.eqb_spec s' ""); [reflexivity|contradiction].
    - destruct (doc_file_pattern (sp_schema p)) as [s'|]; [|reflexivity].
      destruct (String.eqb_spec s' ""); [reflexivity|contradiction]. }
  split; [exact Hpat|].
  rewrite find_parser_step, Hpat. unfold pattern_takes.
  cbn [contains_char Ascii.eqb Bool.eqb orb]. rewrite Hm.
  now rewrite orb_true_r.
Qed.

(** ** Sizes *)

Lemma reads_zero (input : list byte) : reads 0 input input.
Proof. exists []. auto. Qed.

Lemma reads_add (a b : Z) (input mid rest : list byte) :
  reads a input mid -> reads b mid rest -> reads (a + b) input rest.
Proof.
  intros (d1 & -> & H1) (d2 & -> & H2). exists (d1 ++ d2)%list.
  split; [now rewrite app_assoc|]. rewrite length_app. lia.
Qed.

Lemma reads_of_result (n : Z) (input : list byte) (ctx ctx' : context)
  (f : list byte -> result pyvalue) (v : pyvalue) (rest : list byte) :
  of_result ctx ('(data, rest) <- stream_read n input ;;
                 v <- f data ;; Ok (v, rest))
  = (ctx', Done (v, rest)) ->
  reads n input rest.
Proof.
  destruct (stream_read n input) as [[data r]|e] eqn:Hread; cbn [bind of_result];
    [|discriminate].
  destruct (f data); cbn [bind of_result]; [|discriminate].
  intros H. inversion H; subst.
  apply stream_read_ok in Hread as [-> Hlen]. now exists data.
Qed.

Lemma reads_adapt (decode : pyvalue -> result pyvalue) (p : parsed)
  (ctx' : context) (v : pyvalue) (rest : list byte) :
  adapt decode p = (ctx', Done (v, rest)) ->
  exists obj, p = (ctx', Done (obj, rest)).
Proof.
  unfold adapt. destruct p as [c [[obj r]| |]]; try discriminate.
  destruct (decode obj); [|discriminate].
  intros H. inversion H; subst. now exists obj.
Qed.

Lemma fields_read_fixed (fuel : nat) :
  forall scs,
    Forall (fun sc => reads_fixed (snd sc)) scs ->
    forall n obj input ctx ctx' v rest,
      (fix sum (scs : list (string * Construct)) : option Z :=
         match scs with
         | [] => Some 0
         | (_, sc) :: scs' =>
             match fixed_size sc, sum scs' with
             | Some a, Some b => Some (a + b)
             | _, _ => None
             end
         end) scs = Some n ->
      parse_fields (parse fuel) scs obj input ctx = (ctx', Done (v, rest)) ->
      reads n input rest.
Proof.
  induction scs as [|[name sc] scs IH]; intros Hall n obj input ctx ctx' v rest Hn;
    cbn [parse_fields].
  - inversion Hn; subst. intros H. inversion H; subst. apply reads_zero.
  - apply Forall_cons_iff in Hall as [Hsc Hall]. cbn [snd] in Hsc.
    destruct (fixed_size sc) as [a|] eqn:Ha; [|discriminate Hn].
    match type of Hn with
    | match ?s with _ => _ end = _ => destruct s as [b|] eqn:Hb; [|discriminate Hn]
    end.
    inversion Hn; subst n.
    destruct (parse fuel sc input ctx) as [c1 [[subobj input']| |]] eqn:Hp;
      try discriminate.
    pose proof (Hsc _ _ _ _ _ _ _ Ha Hp) as Hfirst.
    intros H. apply (reads_add a b input input' rest Hfirst).
    destruct (String.eqb name ""); eapply (IH Hall b); eauto.
Qed.

Lemma array_reads_fixed (p : list byte -> context -> parsed) (s : Z) :
  (forall input ctx ctx' v rest,
     p input ctx = (ctx', Done (v, rest)) -> reads s input rest) ->
  forall n i acc input ctx ctx' v rest,
    parse_array p n i acc input ctx = (ctx', Done (v, rest)) ->
    reads (Z.of_nat n * s) input rest.
Proof.
  intros Hp. induction n as [|n IH]; intros i acc input ctx ctx' v rest;
    cbn [parse_array].
  - intros H. inversion H; subst. apply reads_zero.
  - destruct (p input _) as [c1 [[e input']| |]] eqn:He; try discriminate.
    intros H. replace (Z.of_nat (S n) * s) with (s + Z.of_nat n * s) by lia.
    eapply reads_add; [eapply Hp, He|eapply IH, H].
Qed.

Lemma codecs_read_fixed : forall con, reads_fixed con.
Proof.
  apply Construct_nested_ind; unfold reads_fixed.
  - intros subcons IH n fuel input ctx ctx' v rest Hn Hp.
    cbn [fixed_size] in Hn. cbn [parse] in Hp.
    destruct (new_frame subcons ctx); [|discriminate].
    destruct (parse_fields (parse fuel) subcons _ input _) as [cf r] eqn:Hpf.
    cbn [snd] in Hp. inversion Hp; subst.
    eapply fields_read_fixed; eauto.
  - intros count subcon IH n fuel input ctx ctx' v rest Hn Hp.
    cbn [fixed_size] in Hn. destruct count as [lit|parts]; [|discriminate].
    destruct (Z.ltb_spec lit 0); [discriminate|].
    destruct (fixed_size subcon) as [s|] eqn:Hs; [|discriminate].
    inversion Hn; subst n. cbn [parse] in Hp. unfold parse_count, evaluate in Hp.
    cbn [bind count_of_node] in Hp.
    destruct (Z.ltb_spec lit 0); [lia|].
    apply (array_reads_fixed (parse fuel subcon) s) in Hp.
    + now rewrite Z2Nat.id in Hp by lia.
    + intros. eapply IH; eauto.
  - intros subcon _ n fuel input ctx ctx' v rest Hn. discriminate Hn.
  - intros e c n fuel input ctx ctx' v rest Hn Hp. inversion Hn; subst n.
    cbn [parse] in Hp.
    apply (reads_of_result _ input ctx ctx' (fun data => Ok (unpack e c data)) v rest).
    destruct (stream_read _ input) as [[d r]|]; exact Hp.
  - intros length n fuel input ctx ctx' v rest Hn Hp. inversion Hn; subst n.
    cbn [parse] in Hp.
    apply (reads_of_result _ input ctx ctx' (fun data => Ok (VBytes data)) v rest).
    destruct (stream_read _ input) as [[d r]|]; exact Hp.
  - intros length encoding n fuel input ctx ctx' v rest Hn Hp. inversion Hn; subst n.
    cbn [parse] in Hp. destruct (length <? 0); [discriminate|].
    apply (reads_of_result _ input ctx ctx'
             (fun data => unit <- encodingunit encoding ;;
                          stripped <- null_strip unit data ;;
                          StringEncoded_decode encoding stripped) v rest).
    destruct (stream_read _ input) as [[d r]|]; [|exact Hp].
    cbn [bind] in *. destruct (encodingunit encoding); cbn [bind] in *; [|exact Hp].
    destruct (null_strip _ d); cbn [bind] in *; [|exact Hp].
    destruct (StringEncoded_decode encoding _); exact Hp.
  - intros length signed swapped n fuel input ctx ctx' v rest Hn Hp.
    inversion Hn; subst n. cbn [parse] in Hp. destruct (length <=? 0); [discriminate|].
    apply (reads_of_result _ input ctx ctx'
             (fun data => Ok (BytesInteger_decode length signed swapped data)) v rest).
    destruct (stream_read _ input) as [[d r]|]; exact Hp.
  - intros size_bits bit_flags subcon IH n fuel input ctx ctx' v rest Hn Hp.
    cbn [parse] in Hp. apply reads_adapt in Hp as [obj Hp]. eapply IH; eauto.
  - intros subcon scale IH n fuel input ctx ctx' v rest Hn Hp.
    cbn [parse] in Hp. apply reads_adapt in Hp as [obj Hp]. eapply IH; eauto.
  - intros subcon bit_position IH n fuel input ctx ctx' v rest Hn Hp.
    cbn [parse] in Hp. apply reads_adapt in Hp as [obj Hp]. eapply IH; eauto.
Qed.

(** A codec whose layout fixes its size (structs, arrays with a literal
    count, primitives, byte strings, text and bitfields, with or without
    adapters) reads exactly that many bytes whenever it decodes, whatever
    the bytes are; an input shorter than that never decodes. *)
Theorem fixed_layout_reads_its_size (con : Construct) (n : Z) (fuel : nat)
  (input rest : list byte) (v : pyvalue) :
  fixed_size con = Some n ->
  (parse_stream fuel con input = Done (v, rest) ->
   exists data, input = (data ++ rest)%list /\ Z.of_nat (List.length data) = n)
  /\ (Z.of_nat (List.length input) < n ->
      parse_stream fuel con input <> Done (v, rest)).
Proof.
  intros Hn.
  assert (Hreads : parse_stream fuel con input = Done (v, rest) -> reads n input rest).
  { unfold parse_stream.
    destruct (parse fuel con input (top_context true)) as [c r] eqn:Hp.
    cbn [snd]. intros ->. eapply codecs_read_fixed; eauto. }
  split; [exact Hreads|].
  intros Hshort Hp. destruct (Hreads Hp) as (data & -> & Hlen).
  rewrite length_app in Hshort. lia.
Qed.

(** ** Values through encode and decode *)

Lemma to_of_signed (size : nat) (z : Z) :
  (0 < size)%nat ->
  - 2 ^ (8 * Z.of_nat size - 1) <= z < 2 ^ (8 * Z.of_nat size - 1) ->
  to_signed size (of_signed size z) = z
  /\ 0 <= of_signed size z < 2 ^ (8 * Z.of_nat size).
Proof.
  intros Hs Hz.
  assert (Hp : 2 ^ (8 * Z.of_nat size) = 2 * 2 ^ (8 * Z.of_nat size - 1)).
  { rewrite <- Z.pow_succ_r by lia. f_equal. lia. }
  unfold to_signed, of_signed.
  destruct (Z.ltb_spec z 0).
  - destruct (Z.ltb_spec (z + 2 ^ (8 * Z.of_nat size)) (2 ^ (8 * Z.of_nat size - 1))); lia.
  - destruct (Z.ltb_spec z (2 ^ (8 * Z.of_nat size - 1))); lia.
Qed.


(** An integer within the range of an integer primitive encodes to the
    primitive's number of bytes, and these decode to the same integer; an
    integer outside the range is an encode error, never a wrapped value. *)
Theorem integer_primitive_encode_then_decode (e : endianness) (c : format_char)
  (z : Z) :
  format_is_float c = false ->
  (fst (format_range c) <= z < snd (format_range c) ->
   exists data,
     build_bytes (FormatField e c) (VInt z) = Ok data
     /\ List.length data = format_size c
     /\ forall fuel rest,
          parse_stream fuel (FormatField e c) (data ++ rest) = Done (VInt z, rest))
  /\ (z < fst (format_range c) \/ snd (format_range c) <= z ->
      build_bytes (FormatField e c) (VInt z) = Raise FormatFieldError).
Proof.
  intros Hf. pose proof (format_size_pos c) as Hpos.
  unfold build_bytes, format_range. cbn [build]. unfold pack. rewrite Hf.
  cbn [as_int]. set (size := format_size c) in *.
  set (lo := if format_signed c then - 2 ^ (8 * Z.of_nat size - 1) else 0).
  set (hi := if format_signed c then 2 ^ (8 * Z.of_nat size - 1)
             else 2 ^ (8 * Z.of_nat size)).
  assert (Hfst : fst (if format_signed c
                      then (- 2 ^ (8 * Z.of_nat size - 1), 2 ^ (8 * Z.of_nat size - 1))
                      else (0, 2 ^ (8 * Z.of_nat size))) = lo)
    by (subst lo; destruct (format_signed c); reflexivity).
  assert (Hsnd : snd (if format_signed c
                      then (- 2 ^ (8 * Z.of_nat size - 1), 2 ^ (8 * Z.of_nat size - 1))
                      else (0, 2 ^ (8 * Z.of_nat size))) = hi)
    by (subst hi; destruct (format_signed c); reflexivity).
  cbv zeta. rewrite Hfst, Hsnd. split.
  - intros Hz.
    replace ((lo <=? z) && (z <? hi)) with true
      by (symmetry; apply andb_true_iff; split; [apply Z.leb_le|apply Z.ltb_lt]; lia).
    cbn [bind]. eexists. split; [reflexivity|]. split.
    { now rewrite ordered_length, int_to_bytes_little_length. }
    intros fuel rest. unfold parse_stream. cbn [parse].
    rewrite stream_read_app
      by (now rewrite ordered_length, int_to_bytes_little_length).
    cbn [bind of_result snd]. do 2 f_equal.
    unfold unpack. rewrite Hf, ordered_involutive, int_from_to_bytes_little.
    fold size. rewrite pow_256 by lia. subst lo hi.
    destruct (format_signed c).
    + destruct (to_of_signed size z Hpos Hz) as [Hback Hr].
      rewrite Z.mod_small by exact Hr. now rewrite Hback.
    + now rewrite Z.mod_small by exact Hz.
  - intros Hz.
    replace ((lo <=? z) && (z <? hi)) with false; [reflexivity|].
    symmetry. apply andb_false_iff.
    destruct Hz; [left; apply Z.leb_gt|right; apply Z.ltb_ge]; lia.
Qed.

Lemma drop_zero_units_zeros (tail : list byte) :
  match tail with b :: _ => is_zero_byte b | [] => false end = false ->
  forall k fuel,
    (k + List.length tail <= fuel)%nat ->
    drop_zero_units fuel 1 (repeat x00 k ++ tail) = tail.
Proof.
  intros Htail. induction k as [|k IH]; intros fuel Hfuel; cbn [repeat app].
  - destruct fuel as [|fuel]; cbn [drop_zero_units].
    + destruct tail; [reflexivity|cbn in Hfuel; lia].
    + destruct tail as [|b tail]; [reflexivity|].
      cbn [List.length Nat.leb firstn forallb andb]. rewrite Htail. reflexivity.
  - destruct fuel as [|fuel]; [lia|]. cbn [drop_zero_units].
    cbn [List.length Nat.leb firstn forallb andb skipn].
    change (is_zero_byte x00) with true. cbn [andb]. apply IH. lia.
Qed.

Lemma null_strip_padded (bs : list byte) (k : nat) :
  ends_with_nul bs = false ->
  null_strip 1 (bs ++ repeat x00 k) = Ok bs.
Proof.
  intros Hend. unfold null_strip. cbn [Z.ltb Z.eqb Z.compare Pos.compare].
  change (1 <? 1) with false. change (1 =? 1) with true. cbv iota.
  rewrite rev_app_distr, rev_repeat.
  rewrite drop_zero_units_zeros.
  - now rewrite rev_involutive.
  - exact Hend.
  - rewrite length_app, repeat_length. lia.
Qed.


(** An ASCII text that does not end in a NUL character and fits the
    length of a string field encodes to exactly that many bytes, padded
    with zero bytes, and these decode to the same text; a text that is
    longer than the field is an encode error, never a truncated text. *)
Theorem ascii_text_encode_then_decode (length : Z) (encoding s : string) :
  String.eqb (normalize_encoding encoding) "ascii" = true ->
  forallb is_ascii_byte (list_byte_of_string s) = true ->
  ends_with_nul (list_byte_of_string s) = false ->
  (Z.of_nat (List.length (list_byte_of_string s)) <= length ->
   exists data,
     build_bytes (PaddedString length encoding) (VStr s) = Ok data
     /\ Z.of_nat (List.length data) = length
     /\ forall fuel rest,
          parse_stream fuel (PaddedString length encoding) (data ++ rest)
          = Done (VStr s, rest))
  /\ (length < Z.of_nat (List.length (list_byte_of_string s)) ->
      build_bytes (PaddedString length encoding) (VStr s) = Raise PaddingError).
Proof.
  intros Henc Hascii Hend.
  assert (Hencode : StringEncoded_encode encoding (VStr s)
                    = Ok (list_byte_of_string s)).
  { unfold StringEncoded_encode. destruct (String.eqb_spec s "") as [->|_];
      [reflexivity|]. now rewrite Henc, Hascii. }
  unfold build_bytes. cbn [build]. rewrite Hencode. cbn [bind].
  set (bs := list_byte_of_string s) in *. split.
  - intros Hlen.
    replace (length <? 0) with false by (symmetry; apply Z.ltb_ge; lia).
    replace (length - Z.of_nat (List.length bs) <? 0) with false
      by (symmetry; apply Z.ltb_ge; lia).
    cbn [bind]. eexists. split; [reflexivity|]. split.
    { rewrite length_app. unfold zeros. rewrite repeat_length. lia. }
    intros fuel rest. unfold parse_stream. cbn [parse].
    replace (length <? 0) with false by (symmetry; apply Z.ltb_ge; lia).
    rewrite stream_read_app
      by (rewrite length_app; unfold zeros; rewrite repeat_length; lia).
    cbn [bind]. rewrite (encodingunit_ascii _ Henc). cbn [bind].
    unfold zeros. rewrite (null_strip_padded bs _ Hend). cbn [bind].
    unfold StringEncoded_decode. rewrite Henc, Hascii. cbn [bind of_result snd].
    subst bs. now rewrite string_of_list_byte_of_string.
  - intros Hlen. destruct (length <? 0); [reflexivity|].
    replace (length - Z.of_nat (List.length bs) <? 0) with true
      by (symmetry; apply Z.ltb_lt; lia).
    reflexivity.
Qed.

(** ** Arrays to the end of the file *)

Lemma greedy_primitive_loop (e : endianness) (c : format_char) (sub_fuel : nat) :
  forall fuel i acc input ctx,
    (List.length input < fuel)%nat ->
    exists items rest ctx',
      parse_greedy (parse sub_fuel (FormatField e c)) fuel i acc input ctx
      = (ctx', Done (VList (rev acc ++ items), rest))
      /\ List.length items = (List.length input / format_size c)%nat
      /\ List.length rest = (List.length input mod format_size c)%nat
      /\ exists data, input = (data ++ rest)%list.
Proof.
  pose proof (format_size_pos c) as Hpos.
  set (p := parse sub_fuel (FormatField e c)).
  assert (Hp0 : forall inp cx,
             p inp cx
             = of_result cx
                 ('(data, rest) <- stream_read (Z.of_nat (format_size c)) inp ;;
                  Ok (unpack e c data, rest))) by reflexivity.
  induction fuel as [|fuel IH]; intros i acc input ctx Hfuel; [lia|].
  cbn [parse_greedy]. rewrite Hp0. unfold stream_read.
  destruct (Nat.le_gt_cases (format_size c) (List.length input)) as [Hle|Hgt].
  - replace ((0 <=? Z.of_nat (format_size c))
             && (Z.of_nat (format_size c) <=? Z.of_nat (List.length input)))
      with true
      by (symmetry; apply andb_true_iff; split; apply Z.leb_le; lia).
    cbn [bind of_result]. rewrite Nat2Z.id.
    set (data := firstn (format_size c) input).
    set (input' := skipn (format_size c) input).
    assert (Hin : input = (data ++ input')%list)
      by (symmetry; apply firstn_skipn).
    assert (Hlen : List.length input' = (List.length input - format_size c)%nat)
      by (apply length_skipn).
    destruct (IH (i + 1) (unpack e c data :: acc) input'
                (ctx_set "_index" (CVal (VInt i)) ctx) ltac:(lia))
      as (items & rest & ctx' & Hp & Hitems & Hrest & data' & Hdata).
    exists (unpack e c data :: items), rest, ctx'.
    split; [rewrite Hp; cbn [rev]; now rewrite <- app_assoc|].
    replace (List.length input)
      with (List.length input' + 1 * format_size c)%nat by lia.
    rewrite Nat.div_add, Nat.Div0.mod_add by lia.
    split; [cbn [List.length]; lia|]. split; [exact Hrest|].
    exists (data ++ data')%list. rewrite Hin at 1. rewrite Hdata at 1.
    now rewrite app_assoc.
  - replace ((0 <=? Z.of_nat (format_size c))
             && (Z.of_nat (format_size c) <=? Z.of_nat (List.length input)))
      with false
      by (symmetry; apply andb_false_iff; right; apply Z.leb_gt; lia).
    cbn [bind of_result].
    exists [], input, (ctx_set "_index" (CVal (VInt i)) ctx).
    rewrite app_nil_r. split; [reflexivity|].
    rewrite Nat.div_small, Nat.mod_small by lia.
    split; [reflexivity|]. split; [reflexivity|]. now exists [].
Qed.

(** An array of primitives to the end of the file never fails: it decodes
    as many elements as fit into the input, none for an empty input, and
    leaves the bytes of a last, incomplete element unread without an
    error. *)
Theorem until_eof_of_primitives_never_fails (e : endianness) (c : format_char)
  (fuel : nat) (input : list byte) :
  (List.length input < fuel)%nat ->
  exists items rest,
    parse_stream fuel (GreedyRange (FormatField e c)) input = Done (VList items, rest)
    /\ List.length items = (List.length input / format_size c)%nat
    /\ List.length rest = (List.length input mod format_size c)%nat
    /\ exists data, input = (data ++ rest)%list.
Proof.
  intros Hfuel. unfold parse_stream.
  change (parse fuel (GreedyRange (FormatField e c)) input (top_context true))
    with (parse_greedy (parse fuel (FormatField e c)) fuel 0 [] input
            (top_context true)).
  destruct (greedy_primitive_loop e c fuel fuel 0 [] input (top_context true) Hfuel)
    as (items & rest & ctx' & Hp & H).
  exists items, rest. rewrite Hp. cbn [snd rev app]. split; [reflexivity|exact H].
Qed.

(** ** What encoding requires of the mapping *)

Lemma build_fields_missing (pre post : list (string * Construct)) (name : string)
  (sc : Construct) (kv : list (string * pyvalue)) :
  dict_get name kv = None ->
  flagbuildnone sc = false ->
  forall out ctx r,
    build_fields build (pre ++ (name, sc) :: post) kv out ctx <> Ok r.
Proof.
  intros Hget Hflag. induction pre as [|[n s] pre IH]; intros out ctx r;
    cbn [app build_fields].
  - rewrite Hflag, Hget. destruct (String.eqb name ""); discriminate.
  - destruct (if String.eqb n "" then _ else _) as [subobj|e]; cbn [bind];
      [|discriminate].
    destruct (build s subobj _) as [[[ret data] ctx2]|e]; cbn [bind];
      [|discriminate].
    apply IH.
Qed.

(** A struct never encodes a mapping that lacks one of its fields, unless
    the field's codec is made of empty structs only: the missing name is
    a [KeyError], unlike the missing flag of a bitfield.  A field with
    the empty name is looked up under [None], and the error is
    [KeyError(None)]. *)
Theorem missing_struct_field_fails_to_encode
  (pre post : list (string * Construct)) (name : string) (sc : Construct)
  (obj : pyvalue) (kv : list (string * pyvalue)) :
  mapping_of obj = Ok kv ->
  dict_get name kv = None ->
  flagbuildnone sc = false ->
  (forall data, build_bytes (Struct (pre ++ (name, sc) :: post)) obj <> Ok data)
  /\ build_bytes (Struct ((name, sc) :: post)) obj
     = Raise (if String.eqb name "" then KeyErrorNone else KeyError name).
Proof.
  intros Hobj Hget Hflag. split.
  - intros data. unfold build_bytes. cbn [build].
    destruct (new_frame _ (top_context false)) as [fr|e]; cbn [bind]; [|discriminate].
    rewrite Hobj. cbn [bind].
    destruct (build_fields build _ kv [] _) as [[out ctx']|e] eqn:Hb; cbn [bind];
      [|discriminate].
    now apply build_fields_missing in Hb.
  - unfold build_bytes. cbn [build].
    destruct (new_frame_of_attrs ((name, sc) :: post) (top_context false))
      as [fr ->]; [eexists; reflexivity|].
    cbn [bind]. rewrite Hobj. cbn [bind build_fields]. rewrite Hflag, Hget.
    now destruct (String.eqb name "").
Qed.

Lemma pack_in_range (e : endianness) (c : format_char) (z : Z) :
  format_is_float c = false ->
  fst (format_range c) <= z < snd (format_range c) ->
  exists data, pack e c (VInt z) = Ok data.
Proof.
  intros Hf Hz. unfold pack. rewrite Hf. cbn [as_int]. cbv zeta.
  unfold format_range in Hz. cbv zeta in Hz.
  destruct (format_signed c); cbn [fst snd] in Hz;
    (replace (_ && _) with true
      by (symmetry; apply andb_true_iff; split;
          [apply Z.leb_le|apply Z.ltb_lt]; lia));
    eauto.
Qed.

(** Encoding does not compute a count field from the array that it
    counts: when the mapping's count and the number of its items differ,
    encoding the struct fails with a [RangeError].  Both fields have a
    name: a field with the empty name is not stored in the context, and
    is looked up in the mapping under [None]. *)
Theorem count_field_is_checked_not_recomputed (e : endianness) (c : format_char)
  (k name : string) (elem : Construct) (post : list (string * Construct))
  (kv : list (string * pyvalue)) (z : Z) (items : list pyvalue) :
  format_is_float c = false ->
  fst (format_range c) <= z < snd (format_range c) ->
  k <> "" -> name <> "" -> name <> k ->
  dict_get k kv = Some (VInt z) ->
  dict_get name kv = Some (VList items) ->
  Z.of_nat (List.length items) <> z ->
  build_bytes (Struct ((k, FormatField e c)
                       :: (name, Array (CountPath [k]) elem) :: post)) (VDict kv)
  = Raise RangeError.
Proof.
  intros Hf Hz Hk Hne Hname Hgetk Hgetn Hlen.
  unfold build_bytes. cbn [build].
  destruct (new_frame_of_attrs
              ((k, FormatField e c) :: (name, Array (CountPath [k]) elem) :: post)
              (top_context false)) as [fr ->]; [eexists; reflexivity|].
  cbn [bind mapping_of build_fields flagbuildnone]. rewrite Hgetk. cbn [bind].
  destruct (String.eqb_spec k "") as [|_]; [contradiction|].
  cbn [bind build]. destruct (pack_in_range e c z Hf Hz) as [data ->]. cbn [bind].
  rewrite Hgetn.
  destruct (String.eqb_spec name "") as [|_]; [contradiction|].
  replace (if flagbuildnone elem then Ok (VList items) else Ok (VList items))
    with (@Ok pyvalue (VList items)) by (now destruct (flagbuildnone elem)).
  cbn [bind ctx_set].
  set (fr1 := dict_set k (CVal (VInt z)) (dict_set k (CVal (VInt z)) _)).
  assert (Hres : forall fr2,
             dict_get k fr2 = Some (CVal (VInt z)) ->
             build (Array (CountPath [k]) elem) (VList items)
               (fr2 :: top_context false) = Raise RangeError).
  { intros fr2 Hfr2. cbn [build evaluate resolver node_getitem ctx_getitem].
    rewrite Hfr2. cbn [bind].
    destruct (Z.ltb_spec z 0); [reflexivity|]. cbn [bind items_of build_count].
    destruct (Z.ltb_spec z 0); [lia|].
    destruct (Z.eqb_spec (Z.of_nat (List.length items)) z); [contradiction|].
    reflexivity. }
  cbn [build] in Hres.
  rewrite Hres; [reflexivity|]. subst fr1.
  rewrite dict_get_set_other by congruence. apply dict_get_set_same.
Qed.

(** ** What follows the decoded bytes *)

Lemma prefix_of_result (n : Z) (input : list byte) (ctx ctx' : context)
  (f : list byte -> result pyvalue) (v : pyvalue) (rest : list byte) :
  of_result ctx ('(data, rest) <- stream_read n input ;;
                 v <- f data ;; Ok (v, rest))
  = (ctx', Done (v, rest)) ->
  exists data,
    input = (data ++ rest)%list
    /\ forall rest',
        of_result ctx ('(data, rest) <- stream_read n (data ++ rest') ;;
                       v <- f data ;; Ok (v, rest))
        = (ctx', Done (v, rest')).
Proof.
  destruct (stream_read n input) as [[data r]|e] eqn:Hread; cbn [bind of_result];
    [|discriminate].
  destruct (f data) as [w|] eqn:Hf; cbn [bind of_result]; [|discriminate].
  intros H. inversion H; subst.
  apply stream_read_ok in Hread as [-> Hlen]. exists data. split; [reflexivity|].
  intros rest'. rewrite (stream_read_app _ data rest' Hlen). cbn [bind].
  now rewrite Hf.
Qed.

Lemma prefix_adapt (decode : pyvalue -> result pyvalue)
  (p : list byte -> parsed) (input : list byte) (ctx' : context) (v : pyvalue)
  (rest : list byte) :
  (forall obj, p input = (ctx', Done (obj, rest)) ->
     exists data, input = (data ++ rest)%list
       /\ forall rest', p (data ++ rest')%list = (ctx', Done (obj, rest'))) ->
  adapt decode (p input) = (ctx', Done (v, rest)) ->
  exists data, input = (data ++ rest)%list
    /\ forall rest', adapt decode (p (data ++ rest')%list) = (ctx', Done (v, rest')).
Proof.
  intros Hp H. unfold adapt in H.
  destruct (p input) as [c [[obj r]| |]] eqn:Hpi; try discriminate.
  destruct (decode obj) as [w|] eqn:Hd; [|discriminate].
  inversion H; subst. destruct (Hp obj eq_refl) as (data & -> & Hall).
  exists data. split; [reflexivity|]. intros rest'. rewrite Hall.
  unfold adapt. now rewrite Hd.
Qed.

Lemma fields_read_prefix (fuel : nat) :
  forall scs,
    Forall (fun sc => reads_prefix (snd sc)) scs ->
    (fix all (scs : list (string * Construct)) : bool :=
       match scs with
       | [] => true
       | (_, sc) :: scs' => no_until_eof sc && all scs'
       end) scs = true ->
    forall obj input ctx ctx' v rest,
      parse_fields (parse fuel) scs obj input ctx = (ctx', Done (v, rest)) ->
      exists data,
        input = (data ++ rest)%list
        /\ forall rest',
            parse_fields (parse fuel) scs obj (data ++ rest') ctx
            = (ctx', Done (v, rest')).
Proof.
  induction scs as [|[name sc] scs IH]; intros Hall Hfree obj input ctx ctx' v rest;
    cbn [parse_fields].
  - intros H. inversion H; subst. exists []. split; reflexivity.
  - apply Forall_cons_iff in Hall as [Hsc Hall]. cbn [snd] in Hsc.
    apply andb_true_iff in Hfree as [Hf1 Hf2].
    destruct (parse fuel sc input ctx) as [c1 [[subobj input']| |]] eqn:Hp;
      try discriminate.
    destruct (Hsc _ _ _ _ _ _ Hf1 Hp) as (d1 & -> & H1).
    intros H.
    assert (Hrest : exists d2, input' = (d2 ++ rest)%list
              /\ forall rest',
                   (if String.eqb name ""
                    then parse_fields (parse fuel) scs obj (d2 ++ rest') c1
                    else parse_fields (parse fuel) scs (dict_set name subobj obj)
                           (d2 ++ rest') (ctx_set name (CVal subobj) c1))
                   = (ctx', Done (v, rest'))).
    { destruct (String.eqb name ""); eapply (IH Hall Hf2); exact H. }
    destruct Hrest as (d2 & -> & H2). exists (d1 ++ d2)%list.
    split; [now rewrite app_assoc|].
    intros rest'. rewrite <- app_assoc, H1. apply H2.
Qed.

Lemma array_reads_prefix (p : list byte -> context -> parsed) :
  (forall input ctx ctx' v rest,
     p input ctx = (ctx', Done (v, rest)) ->
     exists data, input = (data ++ rest)%list
       /\ forall rest', p (data ++ rest')%list ctx = (ctx', Done (v, rest'))) ->
  forall n i acc input ctx ctx' v rest,
    parse_array p n i acc input ctx = (ctx', Done (v, rest)) ->
    exists data, input = (data ++ rest)%list
      /\ forall rest',
          parse_array p n i acc (data ++ rest') ctx = (ctx', Done (v, rest')).
Proof.
  intros Hp. induction n as [|n IH]; intros i acc input ctx ctx' v rest;
    cbn [parse_array].
  - intros H. inversion H; subst. exists []. split; reflexivity.
  - destruct (p input _) as [c1 [[e input']| |]] eqn:He; try discriminate.
    destruct (Hp _ _ _ _ _ He) as (d1 & -> & H1).
    intros H. destruct (IH _ _ _ _ _ _ _ H) as (d2 & -> & H2).
    exists (d1 ++ d2)%list. split; [now rewrite app_assoc|].
    intros rest'. rewrite <- app_assoc, H1. apply H2.
Qed.

Lemma codecs_read_prefix : forall con, reads_prefix con.
Proof.
  apply Construct_nested_ind; unfold reads_prefix.
  - intros subcons IH fuel input ctx ctx' v rest Hfree Hp.
    cbn [no_until_eof] in Hfree. cbn [parse] in Hp |- *.
    destruct (new_frame subcons ctx) as [fr|]; [|discriminate].
    destruct (parse_fields (parse fuel) subcons _ input _) as [cf r] eqn:Hpf.
    cbn [snd] in Hp. inversion Hp; subst.
    destruct (fields_read_prefix fuel subcons IH Hfree _ _ _ _ _ _ Hpf)
      as (data & -> & Hall).
    exists data. split; [reflexivity|]. intros rest'. now rewrite Hall.
  - intros count subcon IH fuel input ctx ctx' v rest Hfree Hp.
    cbn [no_until_eof] in Hfree. cbn [parse] in Hp |- *.
    destruct (parse_count count ctx) as [n|]; [|discriminate].
    apply (array_reads_prefix (parse fuel subcon)) in Hp; [exact Hp|].
    intros. eapply IH; eauto.
  - intros subcon _ fuel input ctx ctx' v rest Hfree. discriminate Hfree.
  - intros e c fuel input ctx ctx' v rest _ Hp. cbn [parse] in Hp |- *.
    destruct (prefix_of_result (Z.of_nat (format_size c)) input ctx ctx'
                (fun data => Ok (unpack e c data)) v rest) as (data & -> & Hall).
    { destruct (stream_read _ input) as [[d r]|]; exact Hp. }
    exists data. split; [reflexivity|]. intros rest'. rewrite <- (Hall rest').
    destruct (stream_read _ (data ++ rest')) as [[d r]|]; reflexivity.
  - intros length fuel input ctx ctx' v rest _ Hp. cbn [parse] in Hp |- *.
    destruct (prefix_of_result length input ctx ctx'
                (fun data => Ok (VBytes data)) v rest) as (data & -> & Hall).
    { destruct (stream_read _ input) as [[d r]|]; exact Hp. }
    exists data. split; [reflexivity|]. intros rest'. rewrite <- (Hall rest').
    destruct (stream_read _ (data ++ rest')) as [[d r]|]; reflexivity.
  - intros length encoding fuel input ctx ctx' v rest _ Hp. cbn [parse] in Hp |- *.
    destruct (length <? 0); [discriminate|].
    destruct (prefix_of_result length input ctx ctx'
                (fun data => unit <- encodingunit encoding ;;
                             stripped <- null_strip unit data ;;
                             StringEncoded_decode encoding stripped) v rest)
      as (data & -> & Hall).
    { destruct (stream_read _ input) as [[d r]|]; [|exact Hp].
      cbn [bind] in *. destruct (encodingunit encoding); cbn [bind] in *; [|exact Hp].
      destruct (null_strip _ d); cbn [bind] in *; [|exact Hp].
      destruct (StringEncoded_decode encoding _); exact Hp. }
    exists data. split; [reflexivity|]. intros rest'. rewrite <- (Hall rest').
    destruct (stream_read _ (data ++ rest')) as [[d r]|]; [|reflexivity].
    cbn [bind]. destruct (encodingunit encoding); cbn [bind]; [|reflexivity].
    destruct (null_strip _ d); cbn [bind]; [|reflexivity].
    destruct (StringEncoded_decode encoding _); reflexivity.
  - intros length signed swapped fuel input ctx ctx' v rest _ Hp.
    cbn [parse] in Hp |- *. destruct (length <=? 0); [discriminate|].
    destruct (prefix_of_result length input ctx ctx'
                (fun data => Ok (BytesInteger_decode length signed swapped data))
                v rest) as (data & -> & Hall).
    { destruct (stream_read _ input) as [[d r]|]; exact Hp. }
    exists data. split; [reflexivity|]. intros rest'. rewrite <- (Hall rest').
    destruct (stream_read _ (data ++ rest')) as [[d r]|]; reflexivity.
  - intros size_bits bit_flags subcon IH fuel input ctx ctx' v rest Hfree Hp.
    cbn [no_until_eof] in Hfree. cbn [parse] in Hp |- *.
    apply (prefix_adapt _ (fun i => parse fuel subcon i ctx)) in Hp; [exact Hp|].
    intros obj Ho. eapply IH; eauto.
  - intros subcon scale IH fuel input ctx ctx' v rest Hfree Hp.
    cbn [no_until_eof] in Hfree. cbn [parse] in Hp |- *.
    apply (prefix_adapt _ (fun i => parse fuel subcon i ctx)) in Hp; [exact Hp|].
    intros obj Ho. eapply IH; eauto.
  - intros subcon bit_position IH fuel input ctx ctx' v rest Hfree Hp.
    cbn [no_until_eof] in Hfree. cbn [parse] in Hp |- *.
    apply (prefix_adapt _ (fun i => parse fuel subcon i ctx)) in Hp; [exact Hp|].
    intros obj Ho. eapply IH; eauto.
Qed.

(** [parse_file] reads the structure from the start of the file and
    stops: for a schema with no [until_eof] array, whatever follows the
    bytes that were decoded changes nothing in the result, and a file
    with bytes left over is parsed like the file without them. *)
Theorem parse_file_ignores_what_follows (p : SchemaParser) (fuel : nat)
  (filename : string) (content rest : list byte) (v : pyvalue) :
  no_until_eof (sp_struct p) = true ->
  parse_stream fuel (sp_struct p) content = Done (v, rest) ->
  exists data,
    content = (data ++ rest)%list
    /\ forall extra,
        parse_stream fuel (sp_struct p) (data ++ extra) = Done (v, extra)
        /\ parse_file fuel p filename (data ++ extra)
           = parse_file fuel p filename data.
Proof.
  intros Hfree Hp. unfold parse_stream in Hp.
  destruct (parse fuel (sp_struct p) content (top_context true)) as [c r] eqn:Hpc.
  cbn [snd] in Hp. subst r.
  destruct (codecs_read_prefix _ _ _ _ _ _ _ Hfree Hpc) as (data & -> & Hall).
  exists data. split; [reflexivity|].
  assert (Hs : forall extra,
             parse_stream fuel (sp_struct p) (data ++ extra) = Done (v, extra)).
  { intros extra. unfold parse_stream. now rewrite Hall. }
  intros extra. split; [apply Hs|].
  unfold parse_file. rewrite (Hs extra).
  pose proof (Hs []) as Hnil. rewrite app_nil_r in Hnil. now rewrite Hnil.
Qed.

(** [BoolBitAdapter] at any bit position keeps that bit and nothing else:
    decoding tests the bit, encoding a decoded integer gives the integer
    masked with [1 << bit_position], and decoding an encoded value gives
    its truth value. *)
Theorem bool_bit_adapter_keeps_one_bit (p : Z) :
  0 <= p ->
  (forall z, BoolBitAdapter_decode p (VInt z) = Ok (VBool (Z.testbit z p)))
  /\ (forall z v,
        BoolBitAdapter_decode p (VInt z) = Ok v ->
        BoolBitAdapter_encode p v = Ok (VInt (Z.land z (2 ^ p))))
  /\ (forall obj v,
        BoolBitAdapter_encode p obj = Ok v ->
        BoolBitAdapter_decode p v = Ok (VBool (truthy obj))).
Proof.
  intros Hp.
  assert (Hdec : forall z, BoolBitAdapter_decode p (VInt z)
                           = Ok (VBool (Z.testbit z p))).
  { intros z. unfold BoolBitAdapter_decode, py_rshift. cbn [bind].
    replace (p <? 0) with false by (symmetry; apply Z.ltb_ge; lia).
    cbn [bind]. now rewrite low_bit_is_testbit. }
  assert (Henc : forall obj, BoolBitAdapter_encode p obj
                             = Ok (VInt (if truthy obj then 2 ^ p else 0))).
  { intros obj. unfold BoolBitAdapter_encode, py_lshift.
    replace (p <? 0) with false by (symmetry; apply Z.ltb_ge; lia).
    cbn [bind]. destruct (truthy obj).
    - now rewrite Z.shiftl_1_l.
    - now rewrite Z.shiftl_0_l. }
  split; [exact Hdec|]. split.
  - intros z v Hv. rewrite Hdec in Hv. inversion Hv; subst v.
    rewrite Henc. cbn [truthy]. do 2 f_equal.
    apply Z.bits_inj'. intros q Hq. rewrite Z.land_spec.
    destruct (Z.eq_dec q p) as [->|Hne].
    + rewrite Z.pow2_bits_true by lia.
      destruct (Z.testbit z p); [now rewrite Z.pow2_bits_true by lia|].
      now rewrite Z.bits_0.
    + rewrite (Z.pow2_bits_false p q) by lia. rewrite andb_false_r.
      destruct (Z.testbit z p); [now rewrite Z.pow2_bits_false by lia|].
      now rewrite Z.bits_0.
  - intros obj v Hv. rewrite Henc in Hv. inversion Hv; subst v.
    rewrite Hdec. do 2 f_equal. destruct (truthy obj).
    + now rewrite Z.pow2_bits_true by lia.
    + now rewrite Z.bits_0.
Qed.

End Behaviour.

(** ** Runs of the theorems on concrete inputs

    The runs use no text field; the host is the one without further
    codecs. *)

#[local] Existing Instance ascii_only.

(** The second part of the theorem at scale 100 and the value 2.679 *)
Lemma scale_adapter_witness :
  py_mul (VFloat 2.679) (value_of_number (NInt 100)) = Ok (VInt 267)
  \/ exists p, py_mul (VFloat 2.679) (value_of_number (NInt 100)) = Ok (VFloat p)
               /\ toward_zero p 267.
Proof.
  apply (proj1 (proj2 scale_adapter_divides_and_truncates)).
  vm_compute. reflexivity.
Defined.


(** The first part of [bitfield_reads_big_endian] on a 12-bit field and
    three bytes of input *)
Lemma bitfield_reads_big_endian_witness :
  parse 0 (build_bitfield_struct (Some 12) (Some two_byte_flags))
    [x01; x02; x03] (top_context true)
  = (top_context true,
     match BitFieldAdapter_decode 12
             (sorted_by_bit (flags_with_bit two_byte_flags))
             (VInt (int_from_bytes_big [x01; x02])) with
     | Ok v => Done (v, [x03])
     | Raise e => Fail e
     end).
Proof.
  apply (proj1 bitfield_reads_big_endian
           12 (Some two_byte_flags) 0%nat [x01; x02; x03] (top_context true)
           [x01; x02] [x03]).
  - lia.
  - reflexivity.
Defined.

(** C3 as stated fails: the decoded [b] is not the boolean true. *)
Lemma bitfield_scenario_b_is_not_boolean :
  parse_stream 0 (build_bitfield_struct (Some 8) (Some scenario_flags)) [x0b]
  <> Done (VDict [("a", VBool true); ("b", VBool true); ("c", VInt 1)], []).
Proof. vm_compute. intros H. discriminate H. Qed.

(** C4 as stated fails: a mapping without [b] and [c] encodes, to the
    byte 1. *)
Lemma bitfield_encode_missing_keys_no_error :
  dict_get "b" [("a", VBool true)] = None
  /\ build_bytes (build_bitfield_struct (Some 8) (Some scenario_flags))
       (VDict [("a", VBool true)])
     = Ok [x01].
Proof. split; vm_compute; reflexivity. Qed.

(** [bitfield_encode_skips_absent_keys] on the scenario layout and the
    mapping that has [a] only: it encodes, and bit 2, in the range of the
    absent [b], is 0. *)
Lemma bitfield_encode_skips_absent_keys_witness :
  (exists v,
     BitFieldAdapter_encode 8 (sorted_by_bit (flags_with_bit scenario_flags))
       (VDict [("a", VBool true)]) = Ok (VInt v))
  /\ Z.testbit 1 2 = false.
Proof.
  pose proof (bitfield_encode_skips_absent_keys (Some 8) (Some scenario_flags)
                [("a", VBool true)]) as H.
  cbv beta iota delta [build_bitfield_struct] in H.
  destruct H as [H1 H2]. split.
  - apply H1.
    + repeat constructor; simpl; try discriminate; lia.
    + intros f name v [<-|[<-|[<-|[]]]]; simpl; intros Hn Hv;
        inversion Hn; subst; simpl in Hv; try discriminate;
        inversion Hv; subst; simpl; eauto.
  - apply (H2 [BitFlag (Some "a") 0] (BitFlag (Some "b") 1) [BitFlag (Some "c") 3]
              "b" 1 2).
    + reflexivity.
    + reflexivity.
    + reflexivity.
    + reflexivity.
    + simpl. lia.
Defined.

(** C6 as stated fails: a count that resolves to a boolean is no error;
    the [char] field is true and the array has one element. *)
Lemma boolean_count_is_no_error :
  build_struct_from_schema flag_count_schema = Ok flag_count_codec
  /\ parse_stream 0 flag_count_codec [x01; xaa]
     = Done (VContainer [ ("_io", stream_object); ("flag", VBool true);
                          ("items", VList [VInt 170]) ], []).
Proof. split; vm_compute; reflexivity. Qed.

(** [array_count_is_resolved_or_fails] on a count path that the context
    does not have, and on a struct whose array names the field after it *)
Lemma array_count_is_resolved_or_fails_witness :
  parse 0 (Array (CountPath ["num"]) (FormatField LittleEndian Fmt_B)) [x01]
    (top_context true)
  = (top_context true, Fail (KeyError "num"))
  /\ (forall v rest,
        snd (parse 0
               (Struct ([] ++ ("items", Array (CountPath ["num"])
                                         (FormatField LittleEndian Fmt_B))
                           :: [("num", FormatField LittleEndian Fmt_B)]))
               [x01; x02] (top_context true))
        <> Done (v, rest)).
Proof.
  split.
  - apply (proj1 array_count_is_resolved_or_fails). reflexivity.
  - refine (proj1 (proj2 (proj2 (proj2 array_count_is_resolved_or_fails))
                     [] "items" "num" [] (FormatField LittleEndian Fmt_B)
                     [("num", FormatField LittleEndian Fmt_B)] 0%nat [x01; x02]
                     (top_context true) _ _)).
    + simpl. intros H. repeat (destruct H as [H|H]; [discriminate H|]). exact H.
    + simpl. intros H. exact H.
Defined.

(** C7 as stated fails of the code: a [string] node of length 0, or of a
    negative length, compiles, where the [bytes] branch next to it
    refuses such a size; and the codec of a negative length fails on
    every input. *)
Lemma string_length_zero_compiles :
  build_struct_from_schema (with_length 0 (schema_node (Some "string")))
  = Ok (PaddedString 0 "ascii")
  /\ build_struct_from_schema (with_length (-3) (schema_node (Some "string")))
     = Ok (PaddedString (-3) "ascii")
  /\ (forall fuel input,
        parse_stream fuel (PaddedString (-3) "ascii") input = Fail PaddingError).
Proof. repeat split; vm_compute; reflexivity. Qed.

(** [bytes_size_and_string_length_checks] on a [bytes] node of size 0, a
    [string] node without a length and a [string] node of length 4 *)
Lemma bytes_size_and_string_length_checks_witness :
  build_struct_from_schema (with_size 0 (schema_node (Some "bytes")))
  = Raise (ValueError "Bytes must have a positive 'size'")
  /\ build_struct_from_schema (schema_node (Some "string"))
     = Raise (ValueError "String must have 'length'")
  /\ build_struct_from_schema (with_length 4 (schema_node (Some "string")))
     = Ok (PaddedString 4 "ascii").
Proof.
  split; [|split].
  - apply (proj1 (bytes_size_and_string_length_checks
                    None None None None None (Some 0) None None None None)).
    simpl. lia.
  - apply (proj1 (proj2 (bytes_size_and_string_length_checks
                           None None None None None None None None None None))).
    reflexivity.
  - apply (proj2 (proj2 (bytes_size_and_string_length_checks
                           None None None None None None (Some 4) None None None))
             4 1).
    + reflexivity.
    + reflexivity.
Defined.

(** [unknown_type_fails_one_schema_only] on the type ["foo"] and on a
    directory of three files with the bad one in the middle *)
Lemma unknown_type_fails_one_schema_only_witness :
  build_struct_from_schema (schema_node (Some "foo"))
  = Raise (ValueError "Unknown type in schema: foo")
  /\ load_parsers_from_schemas
       (Directory "schemas" ([good_schema_file] ++ bad_schema_file :: [good_schema_file]))
     = Ok ((fst (load_each [good_schema_file]) ++ fst (load_each [good_schema_file]))%list,
           (snd (load_each [good_schema_file])
              ++ (file_path bad_schema_file, ValueError "Unknown type in schema: foo")
              :: snd (load_each [good_schema_file]))%list)
  /\ List.length (fst (load_each [good_schema_file])) = 1%nat.
Proof.
  split; [|split].
  - apply (proj1 unknown_type_fails_one_schema_only
             "foo" None None None None None None None None None None).
    reflexivity.
  - apply (proj1 (proj2 (proj2 (proj2 unknown_type_fails_one_schema_only)))).
    reflexivity.
  - reflexivity.
Defined.




(** [lossless_schema_round_trip] on the struct of a count and its items,
    and the six bytes of a count of 2 and two items *)
Lemma lossless_schema_round_trip_witness :
  build_bytes counted_items_codec
    (VContainer [("_io", stream_object); ("num", VInt 2);
                 ("items", VList [VInt 170; VInt 187])])
  = Ok [x02; x00; x00; x00; xaa; xbb].
Proof.
  apply (proj2 (lossless_schema_round_trip counted_items_schema counted_items_codec
                  0%nat [x02; x00; x00; x00; xaa; xbb] []
                  (VContainer [("_io", stream_object); ("num", VInt 2);
                               ("items", VList [VInt 170; VInt 187])])
                  ltac:(vm_compute; reflexivity)
                  ltac:(vm_compute; reflexivity)
                  ltac:(vm_compute; reflexivity))).
  reflexivity.
Defined.

(** ** Runs of the further properties *)

(** [bitfield_decode_of_encode_is_identity] on the width-8 layout and the
    mapping of [a] true, [b] 2 and [c] 17, with one more byte behind *)
Lemma bitfield_decode_of_encode_is_identity_witness :
  exists data,
    build_bytes (build_bitfield_struct (Some 8) (Some scenario_flags))
      (VDict [("a", VBool true); ("b", VInt 2); ("c", VInt 17)]) = Ok data
    /\ Z.of_nat (List.length data) = (8 + 7) / 8
    /\ parse_stream 0 (build_bitfield_struct (Some 8) (Some scenario_flags))
         (data ++ [x55])
       = Done (VDict [("a", VBool true); ("b", VInt 2); ("c", VInt 17)], [x55]).
Proof.
  apply (bitfield_decode_of_encode_is_identity 8 scenario_flags
           [("a", VBool true); ("b", VInt 2); ("c", VInt 17)] 0%nat [x55]).
  - lia.
  - repeat (apply Forall_cons; [split; [discriminate|lia]|]). apply Forall_nil.
  - reflexivity.
  - vm_compute. reflexivity.
Defined.

(** [bitfield_encode_reduces_values] on the same layout and a mapping
    without [b], with 5 for the one-bit [a] and 100 for the five-bit [c] *)
Lemma bitfield_encode_reduces_values_witness :
  exists data res,
    build_bytes (build_bitfield_struct (Some 8) (Some scenario_flags))
      (VDict [("a", VInt 5); ("c", VInt 100)]) = Ok data
    /\ Z.of_nat (List.length data) = (8 + 7) / 8
    /\ parse_stream 0 (build_bitfield_struct (Some 8) (Some scenario_flags))
         (data ++ [])
       = Done (VDict res, [])
    /\ map fst res = map flag_key (sorted_by_bit (flags_with_bit scenario_flags))
    /\ forall pre f post,
         sorted_by_bit (flags_with_bit scenario_flags) = (pre ++ f :: post)%list ->
         dict_get (flag_key f) res
         = Some (flag_decoded (flag_end 8 post - bf_bit f)
                   (flag_field (flag_end 8 post - bf_bit f)
                      (dict_get (flag_key f) [("a", VInt 5); ("c", VInt 100)]))).
Proof.
  apply (bitfield_encode_reduces_values 8 scenario_flags
           [("a", VInt 5); ("c", VInt 100)] 0%nat []).
  - lia.
  - repeat (apply Forall_cons; [split; [discriminate|lia]|]). apply Forall_nil.
  - intros f name v _ _ Hget. apply dict_get_Some_In in Hget.
    destruct Hget as [H|[H|[]]]; inversion H; subst; simpl; eauto.
  - reflexivity.
Defined.

(** [bitfield_encode_reads_flag_keys_only] on a mapping and the same
    mapping with a key that is no flag *)
Lemma bitfield_encode_reads_flag_keys_only_witness :
  BitFieldAdapter_encode 8 (sorted_by_bit (flags_with_bit scenario_flags))
    (VDict [("a", VBool true)])
  = BitFieldAdapter_encode 8 (sorted_by_bit (flags_with_bit scenario_flags))
      (VDict [("zzz", VInt 9); ("a", VBool true)]).
Proof.
  apply (bitfield_encode_reads_flag_keys_only 8
           (sorted_by_bit (flags_with_bit scenario_flags))
           [("a", VBool true)] [("zzz", VInt 9); ("a", VBool true)]).
  intros f [<-|[<-|[<-|[]]]]; reflexivity.
Defined.

(** [zero_scale_compiles_and_never_decodes] on [uint16] and the scale 0 *)
Lemma zero_scale_compiles_and_never_decodes_witness :
  exists base,
    build_struct_from_schema (with_scale (NInt 0) (schema_node (Some "uint16")))
    = Ok (ScaleAdapter base (NInt 0))
    /\ (forall fuel input ctx ctx' v rest,
          parse fuel (ScaleAdapter base (NInt 0)) input ctx <> (ctx', Done (v, rest)))
    /\ (forall fuel input ctx raw rest,
          parse fuel base input ctx = (ctx, Done (VInt raw, rest)) ->
          parse fuel (ScaleAdapter base (NInt 0)) input ctx
          = (ctx, Fail ZeroDivisionError)).
Proof.
  apply (zero_scale_compiles_and_never_decodes "uint16" (NInt 0)).
  - vm_compute. tauto.
  - reflexivity.
Defined.

(** [compiled_field_names_are_distinct] on the struct of a count and its
    items *)
Lemma compiled_field_names_are_distinct_witness :
  names_distinct counted_items_codec = true.
Proof.
  apply (compiled_field_names_are_distinct counted_items_schema counted_items_codec).
  vm_compute. reflexivity.
Defined.

(** [repeated_field_name_keeps_last] on the fields [a] (8 bits), [b] and
    [a] again (16 bits) *)
Lemma repeated_field_name_keeps_last_witness :
  map fst [("a", FormatField LittleEndian Fmt_H); ("b", FormatField LittleEndian Fmt_B)]
  = first_occurrences []
      (field_names [with_name "a" (schema_node (Some "uint8"));
                    with_name "b" (schema_node (Some "uint8"));
                    with_name "a" (schema_node (Some "uint16"))])
  /\ distinct (map fst [("a", FormatField LittleEndian Fmt_H);
                        ("b", FormatField LittleEndian Fmt_B)]) = true
  /\ forall n,
       match field_for n [with_name "a" (schema_node (Some "uint8"));
                          with_name "b" (schema_node (Some "uint8"));
                          with_name "a" (schema_node (Some "uint16"))] None,
             dict_get n [("a", FormatField LittleEndian Fmt_H);
                         ("b", FormatField LittleEndian Fmt_B)] with
       | Some f, Some c => build_struct_from_schema f = Ok c
       | None, None => True
       | _, _ => False
       end.
Proof.
  apply (repeated_field_name_keeps_last
           [with_name "a" (schema_node (Some "uint8"));
            with_name "b" (schema_node (Some "uint8"));
            with_name "a" (schema_node (Some "uint16"))]
           [("a", FormatField LittleEndian Fmt_H); ("b", FormatField LittleEndian Fmt_B)]).
  vm_compute. reflexivity.
Defined.

(** [bitfield_flag_order_is_irrelevant] on the scenario flags and the
    same flags in reverse *)
Lemma bitfield_flag_order_is_irrelevant_witness :
  build_bitfield_struct (Some 8) (Some scenario_flags)
  = build_bitfield_struct (Some 8) (Some (rev scenario_flags)).
Proof.
  apply (bitfield_flag_order_is_irrelevant (Some 8) scenario_flags (rev scenario_flags)).
  - apply Permutation_rev.
  - vm_compute. repeat constructor; simpl; intuition lia.
Defined.

(** [array_counts_by_decoded_sibling] on the struct of a count and its
    items *)
Lemma array_counts_by_decoded_sibling_witness :
  exists obj vk n items,
    VContainer [("_io", stream_object); ("num", VInt 2);
                ("items", VList [VInt 170; VInt 187])] = VContainer obj
    /\ dict_get "num" obj = Some vk
    /\ dict_get "items" obj = Some (VList items)
    /\ resolver [] (NVal vk) = Ok n
    /\ count_of_node n = Ok (Z.of_nat (List.length items)).
Proof.
  apply (array_counts_by_decoded_sibling 0%nat
           [("num", FormatField LittleEndian Fmt_L)] [] "items" "num" []
           (FormatField LittleEndian Fmt_B)
           [x02; x00; x00; x00; xaa; xbb] [] (top_context true) (top_context true)).
  - reflexivity.
  - reflexivity.
  - reflexivity.
  - left. reflexivity.
  - vm_compute. reflexivity.
Defined.

(** [array_counts_by_enclosing_context] on a struct whose array is counted
    by ["_.n"], inside a context that holds 2 under [n] *)
Lemma array_counts_by_enclosing_context_witness :
  exists obj n items,
    VContainer [("_io", stream_object); ("items", VList [VInt 170; VInt 187])]
    = VContainer obj
    /\ dict_get "items" obj = Some (VList items)
    /\ resolver ["n"] (NCtx (ctx_set "n" (CVal (VInt 2)) (top_context true))) = Ok n
    /\ count_of_node n = Ok (Z.of_nat (List.length items)).
Proof.
  apply (array_counts_by_enclosing_context 0%nat [] [] "items" ["n"]
           (FormatField LittleEndian Fmt_B) [xaa; xbb] []
           (ctx_set "n" (CVal (VInt 2)) (top_context true))
           (ctx_set "n" (CVal (VInt 2)) (top_context true))).
  - reflexivity.
  - reflexivity.
  - vm_compute. reflexivity.
Defined.

(** [normalized_struct_keys] on a struct with the fields [_pad] and [x] *)
Lemma normalized_struct_keys_witness :
  exists out,
    container_to_dict
      (VContainer [("_io", stream_object); ("_pad", VInt 1); ("x", VInt 2)])
    = VDict out
    /\ map fst out
       = filter (fun n => negb (String.eqb n "") && negb (startswith_underscore n))
           (map fst [("_pad", FormatField LittleEndian Fmt_B);
                     ("x", FormatField LittleEndian Fmt_B)]).
Proof.
  apply (normalized_struct_keys 0%nat
           [("_pad", FormatField LittleEndian Fmt_B);
            ("x", FormatField LittleEndian Fmt_B)]
           [x01; x02] [] (top_context true) (top_context true)).
  - reflexivity.
  - vm_compute. reflexivity.
Defined.

#[local] Existing Instance ascii_text.

(** [parser_without_pattern_takes_the_file] on a schema that has a name
    only, before the parser of [good_schema_file]'s kind, and a file name *)
Lemma parser_without_pattern_takes_the_file_witness :
  file_pattern (MkSchemaParser "all.json" (SchemaDoc (Some "all") None (Some "") None)
                  (Struct []))
  = "*"
  /\ find_parser_for_file
       [MkSchemaParser "all.json" (SchemaDoc (Some "all") None (Some "") None)
          (Struct []);
        MkSchemaParser "nodes.json"
          (SchemaDoc (Some "nodes") (Some "NODES*.DAT") None None) (Struct [])]
       "NODES7.DAT"
     = Some (MkSchemaParser "all.json" (SchemaDoc (Some "all") None (Some "") None)
               (Struct [])).
Proof.
  apply (parser_without_pattern_takes_the_file
           (MkSchemaParser "all.json" (SchemaDoc (Some "all") None (Some "") None)
              (Struct []))
           [MkSchemaParser "nodes.json"
              (SchemaDoc (Some "nodes") (Some "NODES*.DAT") None None) (Struct [])]
           "NODES7.DAT").
  - reflexivity.
  - reflexivity.
  - reflexivity.
Defined.

(** [fixed_layout_reads_its_size] on a struct of a 16-bit field and three
    bytes, and an input of six bytes *)
Lemma fixed_layout_reads_its_size_witness :
  parse_stream 0 (Struct [("a", FormatField LittleEndian Fmt_H);
                          ("b", Array (CountLit 3) (FormatField LittleEndian Fmt_B))])
    [x01; x00; x0a; x0b; x0c; xff]
  = Done (VContainer [("_io", stream_object); ("a", VInt 1);
                      ("b", VList [VInt 10; VInt 11; VInt 12])], [xff])
  /\ exists data,
       [x01; x00; x0a; x0b; x0c; xff] = (data ++ [xff])%list
       /\ Z.of_nat (List.length data) = 5.
Proof.
  split; [reflexivity|].
  apply (proj1 (fixed_layout_reads_its_size
                  (Struct [("a", FormatField LittleEndian Fmt_H);
                           ("b", Array (CountLit 3) (FormatField LittleEndian Fmt_B))])
                  5 0%nat [x01; x00; x0a; x0b; x0c; xff] [xff]
                  (VContainer [("_io", stream_object); ("a", VInt 1);
                               ("b", VList [VInt 10; VInt 11; VInt 12])])
                  eq_refl)).
  reflexivity.
Defined.

(** [integer_primitive_encode_then_decode] on a signed 16-bit field and
    the integer -2 *)
Lemma integer_primitive_encode_then_decode_witness :
  (fst (format_range Fmt_h) <= -2 < snd (format_range Fmt_h) ->
   exists data,
     build_bytes (FormatField LittleEndian Fmt_h) (VInt (-2)) = Ok data
     /\ List.length data = format_size Fmt_h
     /\ forall fuel rest,
          parse_stream fuel (FormatField LittleEndian Fmt_h) (data ++ rest)
          = Done (VInt (-2), rest))
  /\ (-2 < fst (format_range Fmt_h) \/ snd (format_range Fmt_h) <= -2 ->
      build_bytes (FormatField LittleEndian Fmt_h) (VInt (-2))
      = Raise FormatFieldError).
Proof.
  apply (integer_primitive_encode_then_decode LittleEndian Fmt_h (-2)).
  reflexivity.
Defined.

(** [ascii_text_encode_then_decode] on a field of 8 bytes and a text of 3 *)
Lemma ascii_text_encode_then_decode_witness :
  (Z.of_nat (List.length (list_byte_of_string "GTA")) <= 8 ->
   exists data,
     build_bytes (PaddedString 8 "ascii") (VStr "GTA") = Ok data
     /\ Z.of_nat (List.length data) = 8
     /\ forall fuel rest,
          parse_stream fuel (PaddedString 8 "ascii") (data ++ rest)
          = Done (VStr "GTA", rest))
  /\ (8 < Z.of_nat (List.length (list_byte_of_string "GTA")) ->
      build_bytes (PaddedString 8 "ascii") (VStr "GTA") = Raise PaddingError).
Proof.
  apply (ascii_text_encode_then_decode 8 "ascii" "GTA"); reflexivity.
Defined.

(** [until_eof_of_primitives_never_fails] on 16-bit elements and five
    bytes *)
Lemma until_eof_of_primitives_never_fails_witness :
  exists items rest,
    parse_stream 10 (GreedyRange (FormatField LittleEndian Fmt_H))
      [x01; x00; x02; x00; x03]
    = Done (VList items, rest)
    /\ List.length items
       = (List.length [x01; x00; x02; x00; x03] / format_size Fmt_H)%nat
    /\ List.length rest
       = (List.length [x01; x00; x02; x00; x03] mod format_size Fmt_H)%nat
    /\ exists data, [x01; x00; x02; x00; x03] = (data ++ rest)%list.
Proof.
  apply (until_eof_of_primitives_never_fails LittleEndian Fmt_H 10%nat
           [x01; x00; x02; x00; x03]).
  simpl. lia.
Defined.

(** [missing_struct_field_fails_to_encode] on a struct of [a] and [b] and
    a mapping that has [b] only *)
Lemma missing_struct_field_fails_to_encode_witness :
  (forall data,
     build_bytes (Struct (("a", FormatField LittleEndian Fmt_B)
                          :: [("b", FormatField LittleEndian Fmt_B)]))
       (VDict [("b", VInt 1)]) <> Ok data)
  /\ build_bytes (Struct (("a", FormatField LittleEndian Fmt_B)
                          :: [("b", FormatField LittleEndian Fmt_B)]))
       (VDict [("b", VInt 1)])
     = Raise (KeyError "a").
Proof.
  apply (missing_struct_field_fails_to_encode []
           [("b", FormatField LittleEndian Fmt_B)] "a"
           (FormatField LittleEndian Fmt_B) (VDict [("b", VInt 1)]) [("b", VInt 1)]);
    reflexivity.
Defined.

(** [count_field_is_checked_not_recomputed] on a count of 3 and one item *)
Lemma count_field_is_checked_not_recomputed_witness :
  build_bytes (Struct (("num", FormatField LittleEndian Fmt_L)
                       :: ("items", Array (CountPath ["num"])
                                      (FormatField LittleEndian Fmt_B)) :: []))
    (VDict [("num", VInt 3); ("items", VList [VInt 1])])
  = Raise RangeError.
Proof.
  apply (count_field_is_checked_not_recomputed LittleEndian Fmt_L "num" "items"
           (FormatField LittleEndian Fmt_B) []
           [("num", VInt 3); ("items", VList [VInt 1])] 3 [VInt 1]).
  - reflexivity.
  - simpl. lia.
  - discriminate.
  - discriminate.
  - discriminate.
  - reflexivity.
  - reflexivity.
  - simpl. lia.
Defined.

(** [parse_file_ignores_what_follows] on a counted array of two bytes
    that two more bytes follow *)
Lemma parse_file_ignores_what_follows_witness :
  exists data,
    [x02; x0a; x0b; xff; xfe] = (data ++ [xff; xfe])%list
    /\ forall extra,
        parse_stream 0
          (sp_struct
             (MkSchemaParser "items.json" (SchemaDoc (Some "items") None None None)
                (Struct [("n", FormatField LittleEndian Fmt_B);
                         ("items", Array (CountPath ["n"])
                                     (FormatField LittleEndian Fmt_B))])))
          (data ++ extra)
        = Done (VContainer [("_io", stream_object); ("n", VInt 2);
                            ("items", VList [VInt 10; VInt 11])], extra)
        /\ parse_file 0
             (MkSchemaParser "items.json" (SchemaDoc (Some "items") None None None)
                (Struct [("n", FormatField LittleEndian Fmt_B);
                         ("items", Array (CountPath ["n"])
                                     (FormatField LittleEndian Fmt_B))]))
             "a.dat" (data ++ extra)
           = parse_file 0
               (MkSchemaParser "items.json" (SchemaDoc (Some "items") None None None)
                  (Struct [("n", FormatField LittleEndian Fmt_B);
                           ("items", Array (CountPath ["n"])
                                       (FormatField LittleEndian Fmt_B))]))
               "a.dat" data.
Proof.
  apply (parse_file_ignores_what_follows
           (MkSchemaParser "items.json" (SchemaDoc (Some "items") None None None)
              (Struct [("n", FormatField LittleEndian Fmt_B);
                       ("items", Array (CountPath ["n"])
                                   (FormatField LittleEndian Fmt_B))]))
           0%nat "a.dat" [x02; x0a; x0b; xff; xfe] [xff; xfe]).
  - reflexivity.
  - reflexivity.
Defined.

(** [bool_bit_adapter_keeps_one_bit] on bit 3 *)
Lemma bool_bit_adapter_keeps_one_bit_witness :
  (forall z, BoolBitAdapter_decode 3 (VInt z) = Ok (VBool (Z.testbit z 3)))
  /\ (forall z v,
        BoolBitAdapter_decode 3 (VInt z) = Ok v ->
        BoolBitAdapter_encode 3 v = Ok (VInt (Z.land z (2 ^ 3))))
  /\ (forall obj v,
        BoolBitAdapter_encode 3 obj = Ok v ->
        BoolBitAdapter_decode 3 v = Ok (VBool (truthy obj))).
Proof.
  apply (bool_bit_adapter_keeps_one_bit 3). lia.
Defined.
